(** * The path-expression engine of baja-lite-field ([src/index.ts])

    A shallow embedding of [LGet], [LSet], [evaluatePath], [setValueAtPath],
    [tokenizePath], [parseArguments] and [parseValue], over a small model of
    the JavaScript values they traverse. The functions keep their names; a
    loop over a string or over the tokens becomes a recursive function on
    what remains of it ([tokenize_loop], [arguments_loop], [evaluate_loop],
    [set_loop]), and the body of a loop a function of its own
    ([arguments_step], [set_step]).

    What the model covers:
    - the code runs in strict mode, as the code of a module does;
    - strings are sequences of code units below 256 (Rocq's [string]);
    - numbers are exact decimals (sign, coefficient, power of ten) together
      with NaN and the two infinities; IEEE rounding and overflow are not
      modelled, so the model agrees with the language on every integer of
      magnitude below 2^53 and on short decimal fractions;
    - objects live in a heap and are reached through references, so aliasing
      and in-place mutation are visible; an object is a plain object, an
      array (with its [length]) or a function, and carries its own data
      properties in creation order;
    - members inherited from the built-in prototypes, the built-in members
      of functions, accessors, proxies and frozen objects are not in the
      heap; [built_in] and [guarded] list the names concerned, and a
      statement that depends on what such a name reads or stores is made
      for the other names ([reads_own], [stores_own], [held]);
    - functions are native: their behaviour is looked up in a [runtime] and
      is assumed to terminate;
    - what holds of a read whatever a member access does (inheritance,
      accessors, proxies, functions that the state does not determine) is
      stated over a [host], of which the heap is one.

    After the engine come the other utilities of the module that stand on
    their own: [P2C] and [C2P], the validators [validIdCard] and
    [validateBusinessLicense] with the patterns and check sums they use, and
    the class [SetEx]. The [Field] decorator, the form validation classes
    and the enumeration tables are left out: they are written against
    reflection metadata, promises and module-level state. *)

From Stdlib Require Import ZArith NArith Ascii String List Bool Lia.
From Stdlib Require Import DecimalString DecimalN.
From stdpp Require Import list.

Set Warnings "-register-all".

Local Open Scope string_scope.
Local Open Scope list_scope.

(** ** Strings *)

Fixpoint rev_onto (s acc : string) : string :=
  match s with
  | EmptyString => acc
  | String c s' => rev_onto s' (String c acc)
  end.

Definition reverse_string (s : string) : string := rev_onto s EmptyString.

(** WhiteSpace and LineTerminator code units below 256: TAB, LF, VT, FF, CR,
    SP and NBSP. *)
Definition is_space (c : ascii) : bool :=
  let n := N_of_ascii c in
  ((9 <=? n) && (n <=? 13) || (n =? 32) || (n =? 160))%N.

Fixpoint trimStart (s : string) : string :=
  match s with
  | String c s' => if is_space c then trimStart s' else s
  | EmptyString => EmptyString
  end.

Definition trimEnd (s : string) : string :=
  reverse_string (trimStart (reverse_string s)).

(** [s.trim()] *)
Definition trim (s : string) : string := trimEnd (trimStart s).

(** [s.startsWith(c)] and [s.endsWith(c)] for a one-character [c]. *)
Definition startsWith (s : string) (c : ascii) : bool :=
  match s with
  | String d _ => Ascii.eqb d c
  | EmptyString => false
  end.

Definition endsWith (s : string) (c : ascii) : bool :=
  startsWith (reverse_string s) c.

Definition drop_last (s : string) : string :=
  match reverse_string s with
  | String _ r => reverse_string r
  | EmptyString => EmptyString
  end.

(** [s.slice(1, -1)] *)
Definition slice_1_m1 (s : string) : string :=
  match s with
  | String _ s' => drop_last s'
  | EmptyString => EmptyString
  end.

(** [s += c] *)
Definition push_char (s : string) (c : ascii) : string :=
  String.append s (String c EmptyString).

(** A string used as a condition: the empty string is falsy. *)
Definition nonempty (s : string) : bool :=
  match s with
  | EmptyString => false
  | String _ _ => true
  end.

(** The double quote character. *)
Definition double_quote : ascii := ascii_of_N 34.

(** ** Numbers *)

(** [Finite s c e] is (-1)^s * c * 10^e. *)
Inductive number : Type :=
| NaN
| Infinity (negative : bool)
| Finite (negative : bool) (coefficient : N) (exponent : Z).

Fixpoint strip_zeros (fuel : nat) (c : N) (e : Z) : N * Z :=
  match fuel with
  | O => (c, e)
  | S fuel' =>
      if (c mod 10 =? 0)%N then strip_zeros fuel' (c / 10)%N (e + 1)%Z
      else (c, e)
  end.

(** The representation without trailing zeros in the coefficient. *)
Definition normal (c : N) (e : Z) : N * Z :=
  if (c =? 0)%N then (0%N, 0%Z) else strip_zeros (N.to_nat (N.log2 c)) c e.

Definition finite (negative : bool) (c : N) (e : Z) : number :=
  let (c', e') := normal c e in Finite negative c' e'.

Definition of_N (n : N) : number := finite false n 0.

Definition isNaN (x : number) : bool :=
  match x with
  | NaN => true
  | _ => false
  end.

Definition digit (base : N) (c : ascii) : option N :=
  let n := N_of_ascii c in
  let d := (if (48 <=? n) && (n <=? 57) then Some (n - 48)
            else if (97 <=? n) && (n <=? 102) then Some (n - 87)
            else if (65 <=? n) && (n <=? 70) then Some (n - 55)
            else None)%N in
  match d with
  | Some v => if (v <? base)%N then Some v else None
  | None => None
  end.

Fixpoint digits_onto (base : N) (s : string) (acc : N) : option N :=
  match s with
  | EmptyString => Some acc
  | String c s' =>
      match digit base c with
      | Some d => digits_onto base s' (acc * base + d)%N
      | None => None
      end
  end.

(** A non-empty run of digits in the given base, read as a natural number. *)
Definition digits (base : N) (s : string) : option N :=
  match s with
  | EmptyString => None
  | _ => digits_onto base s 0%N
  end.

(** The longest prefix of decimal digits, and what follows it. *)
Fixpoint span_digits (s : string) : string * string :=
  match s with
  | String c s' =>
      match digit 10 c with
      | Some _ => let (ds, r) := span_digits s' in (String c ds, r)
      | None => (EmptyString, s)
      end
  | EmptyString => (EmptyString, EmptyString)
  end.

(** An ExponentPart or nothing; [None] when the text is neither. *)
Definition exponent_part (s : string) : option Z :=
  match s with
  | EmptyString => Some 0%Z
  | String c r =>
      if Ascii.eqb c "e" || Ascii.eqb c "E" then
        match r with
        | String "+" r' => Z.of_N <$> digits 10 r'
        | String "-" r' => (fun n => (- Z.of_N n)%Z) <$> digits 10 r'
        | _ => Z.of_N <$> digits 10 r
        end
      else None
  end.

(** StrUnsignedDecimalLiteral: [Infinity], [12], [12.], [12.5], [.5], each
    with an optional exponent. *)
Definition unsigned_decimal (negative : bool) (s : string) : number :=
  if String.eqb s "Infinity" then Infinity negative else
  let (ip, r1) := span_digits s in
  let (fp, r2) := match r1 with
                  | String "." r => span_digits r
                  | _ => (EmptyString, r1)
                  end in
  match String.append ip fp with
  | EmptyString => NaN
  | ds =>
      match digits 10 ds, exponent_part r2 with
      | Some c, Some e => finite negative c (e - Z.of_nat (String.length fp))
      | _, _ => NaN
      end
  end.

Definition non_decimal (base : N) (s : string) : number :=
  match digits base s with
  | Some n => of_N n
  | None => NaN
  end.

(** [Number(s)] for a string [s] (StringToNumber): surrounding white space is
    ignored, the empty string is 0, and text outside the numeric grammar is
    NaN. *)
Definition StringToNumber (s : string) : number :=
  match trim s with
  | EmptyString => Finite false 0 0
  | String "0" (String "x" r) | String "0" (String "X" r) => non_decimal 16 r
  | String "0" (String "o" r) | String "0" (String "O" r) => non_decimal 8 r
  | String "0" (String "b" r) | String "0" (String "B" r) => non_decimal 2 r
  | String "+" r => unsigned_decimal false r
  | String "-" r => unsigned_decimal true r
  | t => unsigned_decimal false t
  end.

Definition decimal (n : N) : string := NilZero.string_of_uint (N.to_uint n).

Fixpoint zeros (n : nat) : string :=
  match n with
  | O => EmptyString
  | S n' => String "0" (zeros n')
  end.

(** Number::toString in radix 10, the text of a number used as a property
    key. *)
Definition Number_toString (x : number) : string :=
  match x with
  | NaN => "NaN"
  | Infinity negative => if negative then "-Infinity" else "Infinity"
  | Finite negative c0 e0 =>
      let (c, e) := normal c0 e0 in
      if (c =? 0)%N then "0" else
      let s := decimal c in
      let k := Z.of_nat (String.length s) in
      let n := (k + e)%Z in
      let body :=
        if (k <=? n)%Z && (n <=? 21)%Z then
          String.append s (zeros (Z.to_nat (n - k)))
        else if (0 <? n)%Z && (n <=? 21)%Z then
          String.append (substring 0 (Z.to_nat n) s)
            (String "." (substring (Z.to_nat n) (Z.to_nat (k - n)) s))
        else if (-6 <? n)%Z && (n <=? 0)%Z then
          String.append "0." (String.append (zeros (Z.to_nat (- n))) s)
        else
          let x := (n - 1)%Z in
          let es := String (if (x <? 0)%Z then "-" else "+")%char
                      (decimal (Z.abs_N x)) in
          match s with
          | String d EmptyString => String d (String "e" es)
          | String d r =>
              String d (String "." (String.append r (String "e" es)))
          | EmptyString => EmptyString
          end in
      if negative then String "-" body else body
  end.

(** The natural number a number denotes, when it is an integer that is not
    negative. *)
Definition to_natural (x : number) : option N :=
  match x with
  | Finite negative c e =>
      if negative && negb (c =? 0)%N then None
      else if (0 <=? e)%Z then Some (c * 10 ^ Z.to_N e)%N
      else
        let d := (10 ^ Z.to_N (- e))%N in
        if (c mod d =? 0)%N then Some (c / d)%N else None
  | _ => None
  end.

(** An array index: the canonical decimal text of an integer below 2^32 - 1. *)
Definition array_index (key : string) : option N :=
  match NilZero.uint_of_string key with
  | Some u =>
      let n := N.of_uint u in
      if String.eqb (decimal n) key && (n <? 4294967295)%N then Some n
      else None
  | None => None
  end.

(** ** Literal values and tokens *)

(** What [parseValue] returns: the values of function-call arguments. They are
    created afresh by each call and never shared, so they are kept as trees. *)
Inductive literal : Type :=
| LString (s : string)
| LNumber (n : number)
| LBool (b : bool)
| LNull
| LUndefined
| LArray (items : list literal)
| LObject (members : list (string * literal)).

(** The [value] of an index token: [number | string]. *)
Inductive index_value : Type :=
| of_number (n : number)
| of_string (s : string).

(** [PathToken] *)
Inductive PathToken : Type :=
| property (value : string)
| index (value : index_value)
| function (name : string) (args : list literal).

Inductive exn : Type :=
| TypeError
| RangeError
| SyntaxError
| Error (message : string).

Inductive result (A : Type) : Type :=
| Ok (a : A)
| Throw (e : exn).

Arguments Ok {A} a.
Arguments Throw {A} e.

(** ** JSON.parse *)

Fixpoint skip_ws (s : string) : string :=
  match s with
  | String c s' =>
      let n := N_of_ascii c in
      if ((n =? 32) || (n =? 9) || (n =? 10) || (n =? 13))%N then skip_ws s'
      else s
  | EmptyString => EmptyString
  end.

(** The text after the character [c], when the text starts with it. *)
Definition after_char (c : ascii) (s : string) : option string :=
  match s with
  | String d r => if Ascii.eqb d c then Some r else None
  | EmptyString => None
  end.

(** The text after the word [w], when the text starts with it. *)
Fixpoint after_word (w s : string) : option string :=
  match w with
  | EmptyString => Some s
  | String c w' =>
      match s with
      | String d s' => if Ascii.eqb c d then after_word w' s' else None
      | EmptyString => None
      end
  end.

Definition hex4 (a b c d : ascii) : option N :=
  digits 16 (String a (String b (String c (String d EmptyString)))).

(** The character a one-letter escape stands for. *)
Definition escape (e : ascii) : option ascii :=
  if Ascii.eqb e double_quote || Ascii.eqb e "\" || Ascii.eqb e "/" then Some e
  else if Ascii.eqb e "b" then Some (ascii_of_N 8)
  else if Ascii.eqb e "f" then Some (ascii_of_N 12)
  else if Ascii.eqb e "n" then Some (ascii_of_N 10)
  else if Ascii.eqb e "r" then Some (ascii_of_N 13)
  else if Ascii.eqb e "t" then Some (ascii_of_N 9)
  else None.

(** The characters of a JSON string after its opening quote, up to the
    closing one. An escape that names a code unit above 255 has no
    counterpart among the modelled strings and is refused. *)
Fixpoint json_string (s : string) (acc : string) : option (string * string) :=
  match s with
  | EmptyString => None
  | String c r =>
      if Ascii.eqb c double_quote then Some (acc, r)
      else if Ascii.eqb c "\" then
        match r with
        | String e r' =>
            if Ascii.eqb e "u" then
              match r' with
              | String a (String b (String c (String d r''))) =>
                  match hex4 a b c d with
                  | Some n =>
                      if (n <? 256)%N then
                        json_string r'' (push_char acc (ascii_of_N n))
                      else None
                  | None => None
                  end
              | _ => None
              end
            else
              match escape e with
              | Some x => json_string r' (push_char acc x)
              | None => None
              end
        | EmptyString => None
        end
      else if (N_of_ascii c <? 32)%N then None
      else json_string r (push_char acc c)
  end.

(** The exponent of a JSON number and the text after it; no exponent counts
    as 0. *)
Definition json_exponent (s : string) : option (Z * string) :=
  match s with
  | String c r =>
      if Ascii.eqb c "e" || Ascii.eqb c "E" then
        let (negative, r1) :=
          match after_char "-" r with
          | Some r' => (true, r')
          | None =>
              match after_char "+" r with
              | Some r' => (false, r')
              | None => (false, r)
              end
          end in
        let (ds, r2) := span_digits r1 in
        match digits 10 ds with
        | Some n => Some (if negative then (- Z.of_N n)%Z else Z.of_N n, r2)
        | None => None
        end
      else Some (0%Z, s)
  | EmptyString => Some (0%Z, s)
  end.

(** The fraction of a JSON number and the text after it; no fraction counts
    as no digits. *)
Definition json_fraction (s : string) : option (string * string) :=
  match after_char "." s with
  | Some r =>
      let (fp, r') := span_digits r in
      if nonempty fp then Some (fp, r') else None
  | None => Some (EmptyString, s)
  end.

(** int frac? exp?, the integer part without a leading zero. *)
Definition json_unsigned (negative : bool) (s : string)
  : option (number * string) :=
  let (ip, r1) := span_digits s in
  if negb (nonempty ip) || (startsWith ip "0" && (1 <? String.length ip)%nat)
  then None
  else
    match json_fraction r1 with
    | Some (fp, r2) =>
        match digits 10 (String.append ip fp), json_exponent r2 with
        | Some c, Some (e, r3) =>
            Some (finite negative c (e - Z.of_nat (String.length fp)), r3)
        | _, _ => None
        end
    | None => None
    end.

(** A JSON number: [-]? int frac? exp?. *)
Definition json_number (s : string) : option (number * string) :=
  match after_char "-" s with
  | Some r => json_unsigned true r
  | None => json_unsigned false s
  end.

(** [o[k] = v] on the members of an object under construction: a repeated
    key keeps its place and takes the later value. *)
Fixpoint set_member {A : Type} (k : string) (v : A) (ms : list (string * A))
  : list (string * A) :=
  match ms with
  | [] => [(k, v)]
  | (k', v') :: ms' =>
      if String.eqb k' k then (k', v) :: ms' else (k', v') :: set_member k v ms'
  end.

Definition keyword (w : string) (v : literal) (s : string)
  : option (literal * string) :=
  match after_word w s with
  | Some r => Some (v, r)
  | None => None
  end.

Fixpoint json_value (fuel : nat) (s : string) {struct fuel}
  : option (literal * string) :=
  match fuel with
  | O => None
  | S fuel' =>
      match skip_ws s with
      | EmptyString => None
      | String c r as t =>
          if Ascii.eqb c "n" then keyword "null" LNull t
          else if Ascii.eqb c "t" then keyword "true" (LBool true) t
          else if Ascii.eqb c "f" then keyword "false" (LBool false) t
          else if Ascii.eqb c double_quote then
            match json_string r EmptyString with
            | Some (str, r') => Some (LString str, r')
            | None => None
            end
          else if Ascii.eqb c "[" then
            match after_char "]" (skip_ws r) with
            | Some r' => Some (LArray [], r')
            | None =>
                match json_items fuel' (skip_ws r) [] with
                | Some (items, r') => Some (LArray items, r')
                | None => None
                end
            end
          else if Ascii.eqb c "{" then
            match after_char "}" (skip_ws r) with
            | Some r' => Some (LObject [], r')
            | None =>
                match json_members fuel' (skip_ws r) [] with
                | Some (members, r') => Some (LObject members, r')
                | None => None
                end
            end
          else
            match json_number t with
            | Some (n, r') => Some (LNumber n, r')
            | None => None
            end
      end
  end
with json_items (fuel : nat) (s : string) (acc : list literal) {struct fuel}
  : option (list literal * string) :=
  match fuel with
  | O => None
  | S fuel' =>
      match json_value fuel' s with
      | Some (v, r) =>
          match after_char "," (skip_ws r) with
          | Some r' => json_items fuel' r' (acc ++ [v])
          | None =>
              match after_char "]" (skip_ws r) with
              | Some r' => Some (acc ++ [v], r')
              | None => None
              end
          end
      | None => None
      end
  end
with json_members (fuel : nat) (s : string) (acc : list (string * literal))
  {struct fuel} : option (list (string * literal) * string) :=
  match fuel with
  | O => None
  | S fuel' =>
      match after_char double_quote (skip_ws s) with
      | Some r =>
          match json_string r EmptyString with
          | Some (k, r1) =>
              match after_char ":" (skip_ws r1) with
              | Some r2 =>
                  match json_value fuel' r2 with
                  | Some (v, r3) =>
                      match after_char "," (skip_ws r3) with
                      | Some r' => json_members fuel' r' (set_member k v acc)
                      | None =>
                          match after_char "}" (skip_ws r3) with
                          | Some r' => Some (set_member k v acc, r')
                          | None => None
                          end
                      end
                  | None => None
                  end
              | None => None
              end
          | None => None
          end
      | None => None
      end
  end.

(** [JSON.parse(text)]: one value, white space around it, nothing else. Every
    recursive call of the parser comes after at most one other call on the
    same text, so twice the length of the text is fuel enough
    ([JSON_parse_fuel]). *)
Definition JSON_parse (text : string) : result literal :=
  match json_value (2 * String.length text + 2) text with
  | Some (v, r) =>
      match skip_ws r with
      | EmptyString => Ok v
      | _ => Throw SyntaxError
      end
  | None => Throw SyntaxError
  end.

(** ** parseValue *)

Definition parseValue (valueStr : string) : literal :=
  let trimmed := trim valueStr in
  if negb (nonempty trimmed) then LString ""
  else if (startsWith trimmed double_quote && endsWith trimmed double_quote)
          || (startsWith trimmed "'" && endsWith trimmed "'") then
    LString (slice_1_m1 trimmed)
  else if startsWith trimmed "[" && endsWith trimmed "]" then
    match JSON_parse trimmed with
    | Ok v => v
    | Throw _ => LString trimmed
    end
  else if startsWith trimmed "{" && endsWith trimmed "}" then
    match JSON_parse trimmed with
    | Ok v => v
    | Throw _ => LString trimmed
    end
  else if negb (isNaN (StringToNumber trimmed)) then
    LNumber (StringToNumber trimmed)
  else if String.eqb trimmed "true" then LBool true
  else if String.eqb trimmed "false" then LBool false
  else if String.eqb trimmed "null" then LNull
  else if String.eqb trimmed "undefined" then LUndefined
  else LString trimmed.

(** ** parseArguments *)

(** The local variables of the scanning loop of [parseArguments]; [stringChar]
    is [None] where the source holds the empty string. *)
Record arguments_state : Type := {
  args : list literal;
  current : string;
  inString : bool;
  stringChar : option ascii;
  parenCount : Z;
  bracketCount : Z
}.

Definition arguments_start : arguments_state :=
  {| args := []; current := ""; inString := false; stringChar := None;
     parenCount := 0; bracketCount := 0 |}.

(** One turn of the loop at the character [char]; [previous] is
    [argsStr[i - 1]]. *)
Definition arguments_step (previous : option ascii) (char : ascii)
    (st : arguments_state) : arguments_state :=
  let appended := push_char (current st) char in
  if negb (inString st) then
    if Ascii.eqb char double_quote || Ascii.eqb char "'" then
      {| args := args st; current := appended; inString := true;
         stringChar := Some char; parenCount := parenCount st;
         bracketCount := bracketCount st |}
    else if Ascii.eqb char "(" then
      {| args := args st; current := appended; inString := false;
         stringChar := stringChar st; parenCount := parenCount st + 1;
         bracketCount := bracketCount st |}
    else if Ascii.eqb char ")" then
      {| args := args st; current := appended; inString := false;
         stringChar := stringChar st; parenCount := parenCount st - 1;
         bracketCount := bracketCount st |}
    else if Ascii.eqb char "[" then
      {| args := args st; current := appended; inString := false;
         stringChar := stringChar st; parenCount := parenCount st;
         bracketCount := bracketCount st + 1 |}
    else if Ascii.eqb char "]" then
      {| args := args st; current := appended; inString := false;
         stringChar := stringChar st; parenCount := parenCount st;
         bracketCount := bracketCount st - 1 |}
    else if Ascii.eqb char "," && (parenCount st =? 0)%Z
            && (bracketCount st =? 0)%Z then
      {| args := args st ++ [parseValue (trim (current st))]; current := "";
         inString := false; stringChar := stringChar st;
         parenCount := parenCount st; bracketCount := bracketCount st |}
    else
      {| args := args st; current := appended; inString := false;
         stringChar := stringChar st; parenCount := parenCount st;
         bracketCount := bracketCount st |}
  else
    if match stringChar st with
       | Some q => Ascii.eqb char q
       | None => false
       end
       && negb match previous with
               | Some p => Ascii.eqb p "\"
               | None => false
               end then
      {| args := args st; current := appended; inString := false;
         stringChar := None; parenCount := parenCount st;
         bracketCount := bracketCount st |}
    else
      {| args := args st; current := appended; inString := true;
         stringChar := stringChar st; parenCount := parenCount st;
         bracketCount := bracketCount st |}.

(** The loop over the characters from position [i] on. *)
Fixpoint arguments_loop (previous : option ascii) (rest : string)
    (st : arguments_state) : arguments_state :=
  match rest with
  | EmptyString => st
  | String char rest' =>
      arguments_loop (Some char) rest' (arguments_step previous char st)
  end.

Definition parseArguments (argsStr : string) : list literal :=
  if negb (nonempty (trim argsStr)) then []
  else
    let st := arguments_loop None argsStr arguments_start in
    if nonempty (trim (current st)) then
      args st ++ [parseValue (trim (current st))]
    else args st.

(** ** tokenizePath *)

(** The scan for the matching closing delimiter, from position [j] on: the
    text strictly inside, and the text after the closing delimiter (all of
    the remainder is inside when none closes). *)
Fixpoint scan_matching (opening closing : ascii) (rest : string) (count : Z)
    (content : string) : string * string :=
  match rest with
  | EmptyString => (content, EmptyString)
  | String c rest' =>
      let count := if Ascii.eqb c opening then (count + 1)%Z else count in
      let count := if Ascii.eqb c closing then (count - 1)%Z else count in
      if (0 <? count)%Z then
        scan_matching opening closing rest' count (push_char content c)
      else (content, rest')
  end.

(** [isNaN(Number(indexContent)) ? indexContent : Number(indexContent)] *)
Definition index_of_content (indexContent : string) : index_value :=
  if isNaN (StringToNumber indexContent) then of_string indexContent
  else of_number (StringToNumber indexContent).

Definition flush (current : string) (tokens : list PathToken)
  : list PathToken :=
  if nonempty current then tokens ++ [property current] else tokens.

(** The main loop, with [rest] the text from position [i] on. Every turn
    consumes at least one character, so a turn per character is fuel
    enough. *)
Fixpoint tokenize_loop (fuel : nat) (rest : string) (current : string)
    (tokens : list PathToken) : list PathToken :=
  match fuel with
  | O => tokens
  | S fuel' =>
      match rest with
      | EmptyString => flush current tokens
      | String char rest' =>
          if Ascii.eqb char "." then
            tokenize_loop fuel' rest' "" (flush current tokens)
          else if Ascii.eqb char "[" then
            let (indexContent, after) := scan_matching "[" "]" rest' 1 "" in
            tokenize_loop fuel' after ""
              (flush current tokens ++ [index (index_of_content indexContent)])
          else if Ascii.eqb char "(" then
            let (argsContent, after) := scan_matching "(" ")" rest' 1 "" in
            tokenize_loop fuel' after ""
              (tokens ++ [function current (parseArguments argsContent)])
          else tokenize_loop fuel' rest' (push_char current char) tokens
      end
  end.

Definition tokenizePath (path : string) : list PathToken :=
  tokenize_loop (S (String.length path)) path "" [].

(** ** Values and the heap *)

Definition loc : Type := nat.

Inductive any : Type :=
| VUndefined
| VNull
| VBool (b : bool)
| VNumber (n : number)
| VString (s : string)
| VObject (l : loc).

Inductive object_kind : Type :=
| PlainObject
| ArrayObject (len : N)
| FunctionObject (id : nat).

(** An object: what it is, and its own properties in creation order. *)
Record object : Type := {
  kind : object_kind;
  properties : list (string * any)
}.

Abbreviation heap := (list object).

(** The native code behind the functions of the heap, and the conversion of
    an object to a number (its [valueOf] or [toString]). *)
Record runtime : Type := {
  call : nat -> any -> list literal -> heap -> result any * heap;
  object_to_number : heap -> loc -> result number
}.

(** Computations that read and write the heap and may throw; what was
    written before a throw stays written. *)
Definition M (A : Type) : Type := heap -> result A * heap.

Definition ret {A : Type} (a : A) : M A := fun h => (Ok a, h).

Definition throw {A : Type} (e : exn) : M A := fun h => (Throw e, h).

Definition bind {A B : Type} (m : M A) (k : A -> M B) : M B :=
  fun h =>
    match m h with
    | (Ok a, h') => k a h'
    | (Throw e, h') => (Throw e, h')
    end.

(** [try { m } catch (error) { handler }] *)
Definition try_catch {A : Type} (m : M A) (handler : exn -> M A) : M A :=
  fun h =>
    match m h with
    | (Ok a, h') => (Ok a, h')
    | (Throw e, h') => handler e h'
    end.

Notation "x <- m ;; k" := (bind m (fun x => k))
  (at level 100, m at next level, right associativity).
Notation "m ;;; k" := (bind m (fun _ => k))
  (at level 100, right associativity).

Fixpoint lookup_member {A : Type} (k : string) (ms : list (string * A))
  : option A :=
  match ms with
  | [] => None
  | (k', v) :: ms' => if String.eqb k' k then Some v else lookup_member k ms'
  end.

(** [!v] is [negb (truthy v)]. *)
Definition truthy (v : any) : bool :=
  match v with
  | VUndefined | VNull => false
  | VBool b => b
  | VNumber NaN => false
  | VNumber (Infinity _) => true
  | VNumber (Finite _ c _) => negb (c =? 0)%N
  | VString s => nonempty s
  | VObject _ => true
  end.

(** [v == null] *)
Definition nullish (v : any) : bool :=
  match v with
  | VUndefined | VNull => true
  | _ => false
  end.

(** The property key an index token's value stands for. *)
Definition ToPropertyKey (v : index_value) : string :=
  match v with
  | of_number n => Number_toString n
  | of_string s => s
  end.

(** [s[key]] for a string [s]: its [length] and its characters. The
    members a string inherits ([primitive_built_in]) are not here. *)
Definition string_member (s : string) (key : string) : any :=
  if String.eqb key "length" then VNumber (of_N (N.of_nat (String.length s)))
  else
    match array_index key with
    | Some i =>
        match String.get (N.to_nat i) s with
        | Some c => VString (String c EmptyString)
        | None => VUndefined
        end
    | None => VUndefined
    end.

(** [o[key]] for an object [o]: its own data properties, and the [length]
    of an array. The members it inherits and the built-in members of a
    function ([built_in]) are not here. *)
Definition object_member (o : object) (key : string) : any :=
  match kind o with
  | ArrayObject len =>
      if String.eqb key "length" then VNumber (of_N len)
      else default VUndefined (lookup_member key (properties o))
  | _ => default VUndefined (lookup_member key (properties o))
  end.

(** [target[key]] as a value, from the own data properties alone: exact
    where [reads_own] holds of an object, and for a key that is not
    [primitive_built_in] of a string, a number or a boolean. *)
Definition get_member (h : heap) (target : any) (key : string)
  : result any :=
  match target with
  | VUndefined | VNull => Throw TypeError
  | VBool _ | VNumber _ => Ok VUndefined
  | VString s => Ok (string_member s key)
  | VObject l =>
      match h !! l with
      | Some o => Ok (object_member o key)
      | None => Throw TypeError
      end
  end.

Definition ToNumber (rt : runtime) (h : heap) (v : any) : result number :=
  match v with
  | VUndefined => Ok NaN
  | VNull => Ok (Finite false 0 0)
  | VBool b => Ok (Finite false (if b then 1 else 0) 0)
  | VNumber n => Ok n
  | VString s => Ok (StringToNumber s)
  | VObject l => object_to_number rt h l
  end.

(** The elements an array keeps when its length becomes [len]. *)
Definition truncate (len : N) (ps : list (string * any))
  : list (string * any) :=
  List.filter (fun p => match array_index (fst p) with
                        | Some i => (i <? len)%N
                        | None => true
                        end) ps.

(** [o[key] = v] for an object [o]. Writing the [length] of an array resizes
    it, and writing an element at or past the end extends it. Every other
    write stores an own data property: exact where [stores_own] holds, that
    is, where no inherited setter ([__proto__]) and no read-only built-in
    member takes the assignment. *)
Definition put_object (rt : runtime) (h : heap) (o : object) (key : string)
    (v : any) : result object :=
  match kind o with
  | ArrayObject len =>
      if String.eqb key "length" then
        match ToNumber rt h v with
        | Ok n =>
            match to_natural n with
            | Some len' =>
                if (len' <? 4294967296)%N then
                  Ok {| kind := ArrayObject len';
                        properties := truncate len' (properties o) |}
                else Throw RangeError
            | None => Throw RangeError
            end
        | Throw e => Throw e
        end
      else
        Ok {| kind := ArrayObject match array_index key with
                                  | Some i => N.max len (i + 1)
                                  | None => len
                                  end;
              properties := set_member key v (properties o) |}
  | k => Ok {| kind := k; properties := set_member key v (properties o) |}
  end.

(** [target[key]] *)
Definition read (target : any) (key : string) : M any :=
  fun h => (get_member h target key, h).

(** [target[key] = v], in strict mode: a primitive target throws. *)
Definition write (rt : runtime) (target : any) (key : string) (v : any)
  : M unit :=
  fun h =>
    match target with
    | VObject l =>
        match h !! l with
        | Some o =>
            match put_object rt h o key v with
            | Ok o' => (Ok tt, <[l := o']> h)
            | Throw e => (Throw e, h)
            end
        | None => (Throw TypeError, h)
        end
    | _ => (Throw TypeError, h)
    end.

(** A new object, at the next free location. *)
Definition alloc (o : object) : M any :=
  fun h => (Ok (VObject (length h)), h ++ [o]).

(** [Array.isArray(v)] *)
Definition isArray (v : any) : M bool :=
  fun h =>
    (Ok match v with
        | VObject l =>
            match h !! l with
            | Some {| kind := ArrayObject _ |} => true
            | _ => false
            end
        | _ => false
        end, h).

Definition function_id (h : heap) (v : any) : option nat :=
  match v with
  | VObject l =>
      match h !! l with
      | Some {| kind := FunctionObject id |} => Some id
      | _ => None
      end
  | _ => None
  end.

(** [typeof v === 'function'] *)
Definition is_function (v : any) : M bool :=
  fun h => (Ok (bool_decide (is_Some (function_id h v))), h).

(** [f.apply(this, args)] *)
Definition apply (rt : runtime) (f this : any) (args : list literal)
  : M any :=
  fun h =>
    match function_id h f with
    | Some id => call rt id this args h
    | None => (Throw TypeError, h)
    end.

(** ** evaluatePath *)

(** The loop over the tokens, and the return after it. *)
Fixpoint evaluate_loop (rt : runtime) (tokens : list PathToken)
    (current defaultValue : any) : M any :=
  match tokens with
  | [] =>
      ret match current with
          | VUndefined => defaultValue
          | _ => current
          end
  | token :: tokens' =>
      if nullish current then ret defaultValue
      else
        match token with
        | property value =>
            next <- read current value ;;
            evaluate_loop rt tokens' next defaultValue
        | index value =>
            next <- read current (ToPropertyKey value) ;;
            evaluate_loop rt tokens' next defaultValue
        | function name args =>
            member <- read current name ;;
            callable <- is_function member ;;
            if callable : bool then
              next <- apply rt member current args ;;
              evaluate_loop rt tokens' next defaultValue
            else ret defaultValue
        end
  end.

Definition evaluatePath (rt : runtime) (obj : any) (path : string)
    (defaultValue : any) : M any :=
  let tokens := tokenizePath path in
  evaluate_loop rt tokens obj defaultValue.

(** ** setValueAtPath *)

(** [(nextToken?.type === 'index') ? [] : {}] *)
Definition new_container (nextToken : PathToken) : object :=
  match nextToken with
  | index _ => {| kind := ArrayObject 0; properties := [] |}
  | _ => {| kind := PlainObject; properties := [] |}
  end.

(** The two statements shared by the property and the index case: create the
    member when it is null or absent, then step into it. *)
Definition descend (rt : runtime) (current : any) (key : string)
    (nextToken : PathToken) : M any :=
  member <- read current key ;;
  (if nullish member then
     fresh <- alloc (new_container nextToken) ;;
     write rt current key fresh
   else ret tt) ;;;
  read current key.

(** The body of the loop over all tokens but the last. *)
Definition set_step (rt : runtime) (token nextToken : PathToken)
    (current : any) : M any :=
  match token with
  | property value => descend rt current value nextToken
  | index value =>
      array <- isArray current ;;
      if array : bool then descend rt current (ToPropertyKey value) nextToken
      else throw (Error "Cannot access array index on non-array")
  | function name args =>
      member <- read current name ;;
      callable <- is_function member ;;
      if callable : bool then apply rt member current args
      else
        throw (Error (String.append "Function "
                        (String.append name " not found")))
  end.

Fixpoint set_loop (rt : runtime) (tokens : list PathToken) (current : any)
  : M any :=
  match tokens with
  | token :: ((nextToken :: _) as tokens') =>
      next <- set_step rt token nextToken current ;;
      set_loop rt tokens' next
  | _ => ret current
  end.

(** The switch on the last token. *)
Definition set_last (rt : runtime) (lastToken : option PathToken)
    (current value : any) : M unit :=
  match lastToken with
  | Some (property key) => write rt current key value
  | Some (index key) =>
      array <- isArray current ;;
      if array : bool then write rt current (ToPropertyKey key) value
      else throw (Error "Cannot set array index on non-array")
  | Some (function _ _) =>
      throw (Error "Cannot set value to function call result directly")
  | None => ret tt
  end.

Definition setValueAtPath (rt : runtime) (obj : any) (path : string)
    (value : any) : M unit :=
  let tokens := tokenizePath path in
  current <- set_loop rt tokens obj ;;
  set_last rt (last tokens) current value.

(** ** The public operations *)

(** [path] is any value: the guard tests that it is a string. An omitted
    [defaultValue] is [VUndefined]. *)
Definition LGet (rt : runtime) (obj path defaultValue : any) : M any :=
  match path with
  | VString path =>
      if negb (truthy obj) then ret defaultValue
      else
        try_catch (evaluatePath rt obj path defaultValue)
          (fun error => ret defaultValue)
  | _ => ret defaultValue
  end.

Definition LSet (rt : runtime) (obj path value : any) : M any :=
  match path with
  | VString path =>
      if negb (truthy obj) then ret obj
      else
        try_catch (setValueAtPath rt obj path value ;;; ret obj)
          (fun error => ret obj)
  | _ => ret obj
  end.

(** ** Reading in any host

    [read] takes a member from the own data properties of an object, which
    is all that the heap holds. In the language a member can also be
    inherited, computed by an accessor or answered by a proxy, and reading
    it then runs code; a function can also return what the state does not
    determine. A [host] says what reading a member, testing for a function
    and applying one do, to a state of any type and as relations.
    [evaluate_in] is the loop of [evaluatePath] and [LGet_in] is [LGet] over
    a host. The member that a call token names is read twice, for the test
    and for the call, as the source writes it. *)
Record host (W : Type) : Type := {
  (* [current[key]] *)
  host_member : any -> string -> W -> result any * W -> Prop;
  (* [typeof member === 'function'] *)
  host_function : any -> W -> bool;
  (* [member.apply(current, args)] *)
  host_apply : any -> any -> list literal -> W -> result any * W -> Prop
}.

Arguments host_member {W}.
Arguments host_function {W}.
Arguments host_apply {W}.

Inductive evaluate_in {W : Type} (H : host W) (defaultValue : any)
  : list PathToken -> any -> W -> result any * W -> Prop :=
| evaluate_end (current : any) (w : W) :
    evaluate_in H defaultValue [] current w
      (Ok match current with
          | VUndefined => defaultValue
          | _ => current
          end, w)
| evaluate_nullish (token : PathToken) (tokens : list PathToken)
    (current : any) (w : W) :
    nullish current = true ->
    evaluate_in H defaultValue (token :: tokens) current w
      (Ok defaultValue, w)
| evaluate_property (value : string) (tokens : list PathToken)
    (current next : any) (w w1 : W) (out : result any * W) :
    nullish current = false ->
    host_member H current value w (Ok next, w1) ->
    evaluate_in H defaultValue tokens next w1 out ->
    evaluate_in H defaultValue (property value :: tokens) current w out
| evaluate_property_throws (value : string) (tokens : list PathToken)
    (current : any) (w w1 : W) (e : exn) :
    nullish current = false ->
    host_member H current value w (Throw e, w1) ->
    evaluate_in H defaultValue (property value :: tokens) current w
      (Throw e, w1)
| evaluate_index (value : index_value) (tokens : list PathToken)
    (current next : any) (w w1 : W) (out : result any * W) :
    nullish current = false ->
    host_member H current (ToPropertyKey value) w (Ok next, w1) ->
    evaluate_in H defaultValue tokens next w1 out ->
    evaluate_in H defaultValue (index value :: tokens) current w out
| evaluate_index_throws (value : index_value) (tokens : list PathToken)
    (current : any) (w w1 : W) (e : exn) :
    nullish current = false ->
    host_member H current (ToPropertyKey value) w (Throw e, w1) ->
    evaluate_in H defaultValue (index value :: tokens) current w
      (Throw e, w1)
| evaluate_test_throws (name : string) (args : list literal)
    (tokens : list PathToken) (current : any) (w w1 : W) (e : exn) :
    nullish current = false ->
    host_member H current name w (Throw e, w1) ->
    evaluate_in H defaultValue (function name args :: tokens) current w
      (Throw e, w1)
| evaluate_no_function (name : string) (args : list literal)
    (tokens : list PathToken) (current tested : any) (w w1 : W) :
    nullish current = false ->
    host_member H current name w (Ok tested, w1) ->
    host_function H tested w1 = false ->
    evaluate_in H defaultValue (function name args :: tokens) current w
      (Ok defaultValue, w1)
| evaluate_member_throws (name : string) (args : list literal)
    (tokens : list PathToken) (current tested : any) (w w1 w2 : W)
    (e : exn) :
    nullish current = false ->
    host_member H current name w (Ok tested, w1) ->
    host_function H tested w1 = true ->
    host_member H current name w1 (Throw e, w2) ->
    evaluate_in H defaultValue (function name args :: tokens) current w
      (Throw e, w2)
| evaluate_call_throws (name : string) (args : list literal)
    (tokens : list PathToken) (current tested member : any) (w w1 w2 w3 : W)
    (e : exn) :
    nullish current = false ->
    host_member H current name w (Ok tested, w1) ->
    host_function H tested w1 = true ->
    host_member H current name w1 (Ok member, w2) ->
    host_apply H member current args w2 (Throw e, w3) ->
    evaluate_in H defaultValue (function name args :: tokens) current w
      (Throw e, w3)
| evaluate_call (name : string) (args : list literal)
    (tokens : list PathToken) (current tested member next : any)
    (w w1 w2 w3 : W) (out : result any * W) :
    nullish current = false ->
    host_member H current name w (Ok tested, w1) ->
    host_function H tested w1 = true ->
    host_member H current name w1 (Ok member, w2) ->
    host_apply H member current args w2 (Ok next, w3) ->
    evaluate_in H defaultValue tokens next w3 out ->
    evaluate_in H defaultValue (function name args :: tokens) current w out.

Inductive LGet_in {W : Type} (H : host W) (obj path defaultValue : any)
    (w : W) : any * W -> Prop :=
| LGet_guard :
    truthy obj = false \/ (forall p : string, path <> VString p) ->
    LGet_in H obj path defaultValue w (defaultValue, w)
| LGet_returns (p : string) (r : any) (w' : W) :
    truthy obj = true -> path = VString p ->
    evaluate_in H defaultValue (tokenizePath p) obj w (Ok r, w') ->
    LGet_in H obj path defaultValue w (r, w')
| LGet_catches (p : string) (e : exn) (w' : W) :
    truthy obj = true -> path = VString p ->
    evaluate_in H defaultValue (tokenizePath p) obj w (Throw e, w') ->
    LGet_in H obj path defaultValue w (defaultValue, w').

(** The host of the heap: members are own data properties, read by [read],
    and the functions are those of the runtime. *)
Definition own_data (rt : runtime) : host heap :=
  {| host_member := fun current key h out => out = read current key h;
     host_function := fun v h => bool_decide (is_Some (function_id h v));
     host_apply := fun f this args h out => out = apply rt f this args h |}.

(** * The other utilities of the module *)

(** ** Property names and column names: P2C and C2P *)

(** The classes [[A-Z]] and [[a-z]]. *)
Definition is_upper (c : ascii) : bool :=
  let n := N_of_ascii c in ((65 <=? n) && (n <=? 90))%N.

Definition is_lower (c : ascii) : bool :=
  let n := N_of_ascii c in ((97 <=? n) && (n <=? 122))%N.

(** [a.toLowerCase()] and [b.toUpperCase()] for the one letter that the
    pattern has matched; other characters are never passed. *)
Definition lower_letter (c : ascii) : ascii :=
  if is_upper c then ascii_of_N (N_of_ascii c + 32) else c.

Definition upper_letter (c : ascii) : ascii :=
  if is_lower c then ascii_of_N (N_of_ascii c - 32) else c.

(** [pro.replace(/[A-Z]/g, a => `_${a.toLowerCase()}`)] *)
Fixpoint replace_P2CEX (pro : string) : string :=
  match pro with
  | EmptyString => EmptyString
  | String a rest =>
      if is_upper a
      then String "_" (String (lower_letter a) (replace_P2CEX rest))
      else String a (replace_P2CEX rest)
  end.

(** [pro.replace(/_([a-z])/g, (a, b) => `${b.toUpperCase()}`)]: the search
    goes on after the match, or one character further where there is none. *)
Fixpoint replace_C2PEX (pro : string) : string :=
  match pro with
  | EmptyString => EmptyString
  | String a rest =>
      if Ascii.eqb a "_"
      then match rest with
           | String b rest' =>
               if is_lower b
               then String (upper_letter b) (replace_C2PEX rest')
               else String a (replace_C2PEX rest)
           | EmptyString => String a EmptyString
           end
      else String a (replace_C2PEX rest)
  end.

Definition P2C (pro : string) (IF : bool) : string :=
  if IF then replace_P2CEX pro else pro.

Definition C2P (pro : string) (IF : bool) : string :=
  if IF then replace_C2PEX pro else pro.

(** ** Patterns of fixed shape *)

(** The patterns of the validators are sequences of groups; a group is a
    choice between sequences of character classes, a repeated class being
    the choice of one sequence. *)
Definition class : Type := ascii -> bool.

Definition between (lo hi : ascii) : class :=
  fun c =>
    ((N_of_ascii lo <=? N_of_ascii c) && (N_of_ascii c <=? N_of_ascii hi))%N.

Definition one_of (s : string) : class :=
  fun c => existsb (Ascii.eqb c) (list_ascii_of_string s).

Definition either (p q : class) : class := fun c => p c || q c.

(** [\d] *)
Definition decimal_digit : class := between "0" "9".

(** [p{n}] *)
Definition times (n : nat) (p : class) : list (list class) := [repeat p n].

Fixpoint match_classes (cs : list class) (s : string) : option string :=
  match cs with
  | [] => Some s
  | p :: cs' =>
      match s with
      | String c rest => if p c then match_classes cs' rest else None
      | EmptyString => None
      end
  end.

(** [/^...$/.test(s)]: the alternatives of a group are tried in turn, each
    with what follows the group. *)
Fixpoint test (groups : list (list (list class))) (s : string) : bool :=
  match groups with
  | [] => negb (nonempty s)
  | alternatives :: groups' =>
      existsb (fun cs => match match_classes cs s with
                         | Some rest => test groups' rest
                         | None => false
                         end) alternatives
  end.

(** ** Upper case, and white space *)

(** [s.toUpperCase()], code unit by code unit. The capitals of the micro
    sign and of y with diaeresis lie above 255; the two are kept, and like
    their capitals they are no white space, no digit and no ASCII letter.
    A code unit below 256 has a capital form of at most two characters (the
    sharp s); above 255 there are characters with three (U+FB04 gives FFL),
    which strings here do not reach. *)
Definition upper_code_unit (c : ascii) : string :=
  let n := N_of_ascii c in
  if ((97 <=? n) && (n <=? 122)
      || (224 <=? n) && (n <=? 254) && negb (n =? 247))%N
  then String (ascii_of_N (n - 32)) EmptyString
  else if (n =? 223)%N then "SS"
  else String c EmptyString.

Fixpoint toUpperCase (s : string) : string :=
  match s with
  | EmptyString => EmptyString
  | String c rest => String.append (upper_code_unit c) (toUpperCase rest)
  end.

(** [s.replace(/\s/g, '')] *)
Fixpoint remove_spaces (s : string) : string :=
  match s with
  | EmptyString => EmptyString
  | String c rest =>
      if is_space c then remove_spaces rest else String c (remove_spaces rest)
  end.

(** ** Weighted sums of characters *)

(** [for (i = 0; i < weights.length; i++) sum += value(code[i]) * weights[i]];
    [None] stands for a sum that is NaN, or for a loop that was left. *)
Fixpoint weighted_sum (value : ascii -> option N) (code : string)
    (weights : list N) (sum : N) {struct weights} : option N :=
  match weights with
  | [] => Some sum
  | w :: weights' =>
      match code with
      | String c rest =>
          match value c with
          | Some v => weighted_sum value rest weights' (sum + v * w)%N
          | None => None
          end
      | EmptyString => None
      end
  end.

(** [parseInt(c, 10)] and [parseInt(c)] for a string of one character. *)
Definition parseInt (c : ascii) : option N := digit 10 c.

(** [chars.indexOf(c)], counted from [i]; [None] is -1. *)
Fixpoint indexOf_from (chars : string) (c : ascii) (i : N) : option N :=
  match chars with
  | EmptyString => None
  | String a rest =>
      if Ascii.eqb a c then Some i else indexOf_from rest c (i + 1)%N
  end.

Definition indexOf (chars : string) (c : ascii) : option N :=
  indexOf_from chars c 0.

(** [a === b] for two results of indexing a string, [None] being
    [undefined]. *)
Definition same_character (a b : option ascii) : bool :=
  match a, b with
  | Some x, Some y => Ascii.eqb x y
  | None, None => true
  | _, _ => false
  end.

(** ** validateBusinessLicense *)

Definition validate15DigitLicense (code : string) : bool :=
  if negb (test [times 15 decimal_digit] code) then false else
  let pre14 := String.substring 0 14 code in
  let checkCode := String.get 14 code in
  let weights := [10; 1; 3; 5; 7; 9; 11; 2; 4; 6; 8; 10; 12; 14]%N in
  match weighted_sum parseInt pre14 weights 0 with
  | Some sum =>
      let computedCode := ((31 - sum mod 31) mod 31)%N in
      match checkCode with
      | Some c =>
          String.eqb (String c EmptyString)
            (if (computedCode =? 0)%N then "0" else decimal computedCode)
      | None => false
      end
  | None => false
  end.

(** [[1-9A-HJ-NPQRTUWXY]] and [[0-9A-HJ-NPQRTUWXY]] *)
Definition license_letter : class :=
  either (between "A" "H") (either (between "J" "N") (one_of "PQRTUWXY")).

Definition validate18DigitLicense (code : string) : bool :=
  if negb (test [times 2 (either (between "1" "9") license_letter);
                 times 6 decimal_digit;
                 times 10 (either (between "0" "9") license_letter)] code)
  then false else
  let chars := "0123456789ABCDEFGHJKLMNPQRTUWXY" in
  let weights :=
    [1; 3; 9; 27; 19; 26; 16; 17; 20; 29; 25; 13; 8; 24; 10; 30; 28]%N in
  let checkCode := String.get 17 code in
  match weighted_sum (indexOf chars) code weights 0 with
  | Some sum =>
      let remainder := (sum mod 31)%N in
      let computedCodeIndex := ((31 - remainder) mod 31)%N in
      let computedCode := String.get (N.to_nat computedCodeIndex) chars in
      same_character checkCode computedCode
  | None => false
  end.

Definition validateBusinessLicense (code : string) : bool :=
  let code := remove_spaces (toUpperCase code) in
  if (String.length code =? 15)%nat then validate15DigitLicense code
  else if (String.length code =? 18)%nat then validate18DigitLicense code
  else false.

(** ** validIdCard *)

(** [(0[1-9]|1[0-2])] and [(0[1-9]|[12]\d|3[01])] *)
Definition month : list (list class) :=
  [[one_of "0"; between "1" "9"]; [one_of "1"; between "0" "2"]].

Definition day : list (list class) :=
  [[one_of "0"; between "1" "9"]; [one_of "12"; decimal_digit];
   [one_of "3"; one_of "01"]].

Definition regex15 : list (list (list class)) :=
  [times 1 (between "1" "9"); times 5 decimal_digit; times 2 decimal_digit;
   month; day; times 3 decimal_digit].

Definition regex18 : list (list (list class)) :=
  [times 1 (between "1" "9"); times 5 decimal_digit;
   [[one_of "1"; one_of "8"]; [one_of "1"; one_of "9"];
    [one_of "2"; one_of "0"]];
   times 2 decimal_digit; month; day; times 3 decimal_digit;
   times 1 (either (between "0" "9") (one_of "Xx"))].

Definition validIdCard (value : string) : bool :=
  if test regex15 value then true
  else if test regex18 value then
    let factor := [7; 9; 10; 5; 8; 4; 2; 1; 6; 3; 7; 9; 10; 5; 8; 4; 2]%N in
    let parity :=
      ["1"; "0"; "X"; "9"; "8"; "7"; "6"; "5"; "4"; "3"; "2"]%char in
    match weighted_sum parseInt value factor 0 with
    | Some sum =>
        let mod_ := (sum mod 11)%N in
        match String.get 17 value, nth_error parity (N.to_nat mod_) with
        | Some c, Some p =>
            String.eqb (toUpperCase (String c EmptyString))
              (String p EmptyString)
        | _, _ => false
        end
    | None => false
    end
  else false.

(** ** SetEx *)

(** A set of objects that is indexed by one of their members. The elements
    are references, compared by identity; [member value name] is
    [value[name]]. The callbacks act on the rest of the program, [world];
    they are assumed neither to call the set nor to assign the key member
    of an element. *)
Section SetEx.
Context {T K W : Type} `{EqDecision T} `{EqDecision K}.
Variable member : T -> string -> K.

(** A Map, as the list of its entries in the order of insertion:
    [m.get(key)], [m.set(key, value)] and [m.delete(key)]. *)
Fixpoint map_get (key : K) (m : list (K * T)) : option T :=
  match m with
  | [] => None
  | (k, v) :: m' => if decide (k = key) then Some v else map_get key m'
  end.

Fixpoint map_set (key : K) (value : T) (m : list (K * T)) : list (K * T) :=
  match m with
  | [] => [(key, value)]
  | (k, v) :: m' =>
      if decide (k = key) then (k, value) :: m'
      else (k, v) :: map_set key value m'
  end.

Fixpoint map_delete (key : K) (m : list (K * T)) : list (K * T) :=
  match m with
  | [] => []
  | (k, v) :: m' =>
      if decide (k = key) then map_delete key m'
      else (k, v) :: map_delete key m'
  end.

Record SetEx : Type := {
  elements : list T;
  _key : string;
  _onExist1 : option (T -> T -> W -> W);
  _onNotExist1 : option (T -> W -> W);
  _replaceIfExits1 : bool;
  _onExist2 : option (T -> T -> W -> W);
  _onNotExist2 : option (T -> W -> W);
  _replaceIfExits2 : bool;
  _map : list (K * T);
  world : W
}.

Definition with_elements (l : list T) (this : SetEx) : SetEx :=
  {| elements := l; _key := _key this;
     _onExist1 := _onExist1 this; _onNotExist1 := _onNotExist1 this;
     _replaceIfExits1 := _replaceIfExits1 this;
     _onExist2 := _onExist2 this; _onNotExist2 := _onNotExist2 this;
     _replaceIfExits2 := _replaceIfExits2 this;
     _map := _map this; world := world this |}.

Definition with_map (m : list (K * T)) (this : SetEx) : SetEx :=
  {| elements := elements this; _key := _key this;
     _onExist1 := _onExist1 this; _onNotExist1 := _onNotExist1 this;
     _replaceIfExits1 := _replaceIfExits1 this;
     _onExist2 := _onExist2 this; _onNotExist2 := _onNotExist2 this;
     _replaceIfExits2 := _replaceIfExits2 this;
     _map := m; world := world this |}.

Definition with_world (w : W) (this : SetEx) : SetEx :=
  {| elements := elements this; _key := _key this;
     _onExist1 := _onExist1 this; _onNotExist1 := _onNotExist1 this;
     _replaceIfExits1 := _replaceIfExits1 this;
     _onExist2 := _onExist2 this; _onNotExist2 := _onNotExist2 this;
     _replaceIfExits2 := _replaceIfExits2 this;
     _map := _map this; world := w |}.

(** [super.add(value)]: a set keeps the order of insertion and holds no
    element twice. *)
Definition super_add (value : T) (this : SetEx) : SetEx :=
  if decide (value ∈ elements this) then this
  else with_elements (elements this ++ [value]) this.

(** [super.delete(value)] *)
Definition super_delete (value : T) (this : SetEx) : SetEx :=
  with_elements (filter (fun x => x <> value) (elements this)) this.

(** [if (f) f(...)] *)
Definition notify (f : option (W -> W)) (this : SetEx) : SetEx :=
  match f with
  | Some g => with_world (g (world this)) this
  | None => this
  end.

Definition add (value : T) (this : SetEx) : SetEx :=
  let key := member value (_key this) in
  let item := map_get key (_map this) in
  let '(flag, this) :=
    match item with
    | Some item =>
        let this :=
          notify (option_map (fun f => f item value) (_onExist1 this)) this in
        if _replaceIfExits1 this then
          let this := super_delete item this in
          let this := with_map (map_delete key (_map this)) this in
          (false, this)
        else (true, this)
    | None => (false, this)
    end in
  if flag then this
  else
    let this := super_add value this in
    let this := with_map (map_set key value (_map this)) this in
    notify (option_map (fun f => f value) (_onNotExist1 this)) this.

Definition addAll (values : list T) (this : SetEx) : SetEx :=
  fold_left (fun this value => add value this) values this.

Definition add2 (value : T) (this : SetEx) : T * SetEx :=
  let key := member value (_key this) in
  let item := map_get key (_map this) in
  let tmp := value in
  let '(flag, tmp, this) :=
    match item with
    | Some item =>
        let this :=
          notify (option_map (fun f => f item value) (_onExist2 this)) this in
        if _replaceIfExits2 this then
          let this := super_delete value this in
          let this := with_map (map_delete key (_map this)) this in
          (false, tmp, this)
        else (true, item, this)
    | None => (false, tmp, this)
    end in
  if flag then (tmp, this)
  else
    let this := super_add value this in
    let this := with_map (map_set key value (_map this)) this in
    (tmp, notify (option_map (fun f => f value) (_onNotExist2 this)) this).


(** [None] is [null]. *)
Definition find (key : K) (this : SetEx) : option T := map_get key (_map this).

Definition has (key : K) (this : SetEx) : bool :=
  match map_get key (_map this) with
  | Some _ => true
  | None => false
  end.

(** [delete(_key)] *)
Definition delete_ (key : K) (this : SetEx) : bool * SetEx :=
  match map_get key (_map this) with
  | Some item =>
      let this := super_delete item this in
      let this := with_map (map_delete key (_map this)) this in
      (true, this)
  | None => (false, this)
  end.

(** The argument of the constructor and of [reset]; the key is given
    apart, being required by the one and not by the other. *)
Record settings : Type := {
  onExist1 : option (T -> T -> W -> W);
  onNotExist1 : option (T -> W -> W);
  replaceIfExits1 : option bool;
  onExist2 : option (T -> T -> W -> W);
  onNotExist2 : option (T -> W -> W);
  replaceIfExits2 : option bool;
  values : option (list T)
}.

(** [option.replaceIfExits1 === true] *)
Definition given_true (flag : option bool) : bool :=
  match flag with
  | Some true => true
  | _ => false
  end.

(** [new SetEx({key, ...option})], in the given world. *)
Definition new (key : string) (option : settings) (w : W) : SetEx :=
  let this :=
    {| elements := []; _key := key;
       _onExist1 := onExist1 option; _onNotExist1 := onNotExist1 option;
       _replaceIfExits1 := given_true (replaceIfExits1 option);
       _onExist2 := onExist2 option; _onNotExist2 := onNotExist2 option;
       _replaceIfExits2 := given_true (replaceIfExits2 option);
       _map := []; world := w |} in
  match values option with
  | Some values => addAll values this
  | None => this
  end.


End SetEx.

(** * Auxiliary notions used by the statements *)

(** ** The literal shapes of the value parser, in the order they are tried *)

Definition shape_empty (t : string) : option literal :=
  if nonempty t then None else Some (LString "").

Definition shape_quoted (t : string) : option literal :=
  if (startsWith t double_quote && endsWith t double_quote)
     || (startsWith t "'" && endsWith t "'")
  then Some (LString (slice_1_m1 t))
  else None.

(** A structured parse of the whole text, the text itself when that fails. *)
Definition structured (t : string) : literal :=
  match JSON_parse t with
  | Ok v => v
  | Throw _ => LString t
  end.

Definition shape_bracketed (t : string) : option literal :=
  if startsWith t "[" && endsWith t "]" then Some (structured t) else None.

Definition shape_braced (t : string) : option literal :=
  if startsWith t "{" && endsWith t "}" then Some (structured t) else None.

Definition shape_numeric (t : string) : option literal :=
  if isNaN (StringToNumber t) then None else Some (LNumber (StringToNumber t)).

Definition shape_boolean (t : string) : option literal :=
  if String.eqb t "true" then Some (LBool true)
  else if String.eqb t "false" then Some (LBool false)
  else None.

Definition shape_null (t : string) : option literal :=
  if String.eqb t "null" then Some LNull else None.

Definition shape_undefined (t : string) : option literal :=
  if String.eqb t "undefined" then Some LUndefined else None.

Definition literal_shapes : list (string -> option literal) :=
  [shape_empty; shape_quoted; shape_bracketed; shape_braced; shape_numeric;
   shape_boolean; shape_null; shape_undefined].

(** The first shape that recognises the text decides; the text itself is the
    value when none does. *)
Fixpoint first_match (shapes : list (string -> option literal)) (t : string)
  : literal :=
  match shapes with
  | [] => LString t
  | shape :: shapes' =>
      match shape t with
      | Some v => v
      | None => first_match shapes' t
      end
  end.

(** ** Splitting an argument list at its top-level commas *)

(** Where a scan of an argument list stands: the open quote if any, and the
    two depths. *)
Record scan_mode : Type := {
  quote : option ascii;
  parens : Z;
  brackets : Z
}.

Definition outside : scan_mode :=
  {| quote := None; parens := 0; brackets := 0 |}.

Definition top_level (m : scan_mode) : bool :=
  match quote m with
  | Some _ => false
  | None => (parens m =? 0)%Z && (brackets m =? 0)%Z
  end.

Definition escaped (previous : option ascii) : bool :=
  match previous with
  | Some p => Ascii.eqb p "\"
  | None => false
  end.

(** The mode after the character [c]. A quote opens quote mode; the same
    quote, unless a backslash comes right before it, closes it; parentheses
    and brackets count outside quote mode only. *)
Definition scan_next (previous : option ascii) (c : ascii) (m : scan_mode)
  : scan_mode :=
  match quote m with
  | Some q =>
      if Ascii.eqb c q && negb (escaped previous) then
        {| quote := None; parens := parens m; brackets := brackets m |}
      else m
  | None =>
      if Ascii.eqb c double_quote || Ascii.eqb c "'" then
        {| quote := Some c; parens := parens m; brackets := brackets m |}
      else if Ascii.eqb c "(" then
        {| quote := None; parens := parens m + 1; brackets := brackets m |}
      else if Ascii.eqb c ")" then
        {| quote := None; parens := parens m - 1; brackets := brackets m |}
      else if Ascii.eqb c "[" then
        {| quote := None; parens := parens m; brackets := brackets m + 1 |}
      else if Ascii.eqb c "]" then
        {| quote := None; parens := parens m; brackets := brackets m - 1 |}
      else m
  end.

(** The fields of [s]: the pieces between the commas met at top level. *)
Fixpoint fields_of (previous : option ascii) (s : string) (m : scan_mode)
  : list string :=
  match s with
  | EmptyString => [EmptyString]
  | String c s' =>
      if Ascii.eqb c "," && top_level m then
        EmptyString :: fields_of (Some c) s' m
      else
        match fields_of (Some c) s' (scan_next previous c m) with
        | f :: fs => String c f :: fs
        | [] => [String c EmptyString]
        end
  end.

Definition blank (s : string) : bool := negb (nonempty (trim s)).

(** All fields, but not a last one that is blank. *)
Fixpoint without_blank_end (fs : list string) : list string :=
  match fs with
  | [] => []
  | [f] => if blank f then [] else [f]
  | f :: fs' => f :: without_blank_end fs'
  end.

Definition split_arguments (s : string) : list string :=
  if blank s then [] else without_blank_end (fields_of None s outside).

(** The mode the loop of [parseArguments] is in, read off its variables. *)
Definition mode_of (st : arguments_state) : scan_mode :=
  {| quote := if inString st then stringChar st else None;
     parens := parenCount st;
     brackets := bracketCount st |}.

(** The fields of a text that continues a field already begun. *)
Definition attach (current : string) (fs : list string) : list string :=
  match fs with
  | f :: fs' => String.append current f :: fs'
  | [] => [current]
  end.

(** The fields with a comma put back between them. *)
Fixpoint rejoin (fs : list string) : string :=
  match fs with
  | [] => EmptyString
  | [f] => f
  | f :: fs' => String.append f (String "," (rejoin fs'))
  end.

(** What becomes of a field: it is trimmed and handed to the value parser. *)
Definition parse_field (f : string) : literal := parseValue (trim f).

(** While the loop is inside a string it knows the quote that opened it. *)
Definition consistent (st : arguments_state) : Prop :=
  inString st = true -> stringChar st <> None.

(** ** Index values that the numeric test can have produced *)

Definition well_typed_index (v : index_value) : bool :=
  match v with
  | of_number n => negb (isNaN n)
  | of_string s => isNaN (StringToNumber s)
  end.

Definition well_typed_token (token : PathToken) : bool :=
  match token with
  | index v => well_typed_index v
  | _ => true
  end.

(** No character that the tokenizer treats specially. *)
Fixpoint plain_name (s : string) : bool :=
  match s with
  | EmptyString => true
  | String c s' =>
      negb (Ascii.eqb c "." || Ascii.eqb c "[" || Ascii.eqb c "(")
      && plain_name s'
  end.

Fixpoint bracket_free (s : string) : bool :=
  match s with
  | EmptyString => true
  | String c s' => negb (Ascii.eqb c "[" || Ascii.eqb c "]") && bracket_free s'
  end.

(** ** Tokens, values and objects by kind *)

(** The key a property or index token names; a call names none. *)
Definition token_key (token : PathToken) : option string :=
  match token with
  | property value => Some value
  | index value => Some (ToPropertyKey value)
  | function _ _ => None
  end.

Definition is_index (token : PathToken) : bool :=
  match token with
  | index _ => true
  | _ => false
  end.

Definition is_call (token : PathToken) : bool :=
  match token with
  | function _ _ => true
  | _ => false
  end.

Definition is_object (v : any) : bool :=
  match v with
  | VObject _ => true
  | _ => false
  end.

Definition is_array (o : object) : bool :=
  match kind o with
  | ArrayObject _ => true
  | _ => false
  end.

(** The kind of an object after a member named [key] is written: an array
    grows to hold an element written at or past its end. *)
Definition grown (k : object_kind) (key : string) : object_kind :=
  match k with
  | ArrayObject len =>
      ArrayObject match array_index key with
                  | Some i => N.max len (i + 1)
                  | None => len
                  end
  | _ => k
  end.

(** The object after [o[key] = v], for a key other than the length of an
    array. *)
Definition assign (key : string) (v : any) (o : object) : object :=
  {| kind := grown (kind o) key;
     properties := set_member key v (properties o) |}.

(** The key is the length of the array [o]. *)
Definition names_length (o : object) (key : string) : bool :=
  is_array o && String.eqb key "length".

(** ** Reads without effects *)

Definition effect_free (rt : runtime) : Prop :=
  forall (id : nat) (this : any) (args : list literal) (h : heap),
    snd (call rt id this args h) = h.

Definition calls_nothing (path : any) : bool :=
  match path with
  | VString p => forallb (fun token => negb (is_call token)) (tokenizePath p)
  | _ => true
  end.

(** ** Hosts without effects *)

(** Reading a member changes nothing. *)
Definition quiet_reads {W : Type} (H : host W) : Prop :=
  forall (current : any) (key : string) (w : W) (r : result any) (w' : W),
    host_member H current key w (r, w') -> w' = w.

(** Applying a function changes nothing. *)
Definition quiet_calls {W : Type} (H : host W) : Prop :=
  forall (f this : any) (args : list literal) (w : W) (r : result any)
         (w' : W),
    host_apply H f this args w (r, w') -> w' = w.

(** What a read and a call give is determined by their arguments and the
    state. *)
Definition deterministic {W : Type} (H : host W) : Prop :=
  (forall (current : any) (key : string) (w : W) (out out' : result any * W),
      host_member H current key w out -> host_member H current key w out' ->
      out = out')
  /\ (forall (f this : any) (args : list literal) (w : W)
             (out out' : result any * W),
        host_apply H f this args w out -> host_apply H f this args w out' ->
        out = out').

(** A member computed by an accessor that counts its reads,
    [get id() { return this.n++ }]; the state is the count. *)
Definition counting : host nat :=
  {| host_member := fun _ _ n out =>
       out = (Ok (VNumber (of_N (N.of_nat n))), S n);
     host_function := fun _ _ => false;
     host_apply := fun _ _ _ _ _ => False |}.

(** A member computed from what the state does not hold, as the result of
    [Math.random() < 0.5] is. *)
Definition tossing : host unit :=
  {| host_member := fun _ _ w out =>
       out = (Ok (VBool true), w) \/ out = (Ok (VBool false), w);
     host_function := fun _ _ => false;
     host_apply := fun _ _ _ _ _ => False |}.

(** ** The write walk on property and index tokens *)

(** Only property and index tokens. *)
Definition accesses (tokens : list PathToken) : bool :=
  forallb (fun token => negb (is_call token)) tokens.

(** The key of the last token. *)
Definition last_key (tokens : list PathToken) : option string :=
  match last tokens with
  | Some token => token_key token
  | None => None
  end.

(** The walk of [setValueAtPath] on tokens already made. *)
Definition set_tokens (rt : runtime) (tokens : list PathToken)
    (current value : any) : M unit :=
  current <- set_loop rt tokens current ;;
  set_last rt (last tokens) current value.

(** The values a path passes through in the heap as it stands, from
    [current] down to the one the last token applies to; it ends early at a
    member that is null or absent. *)
Fixpoint trail (h : heap) (tokens : list PathToken) (current : any)
  : list any :=
  current ::
  match tokens with
  | token :: ((_ :: _) as tokens') =>
      match token_key token with
      | Some key =>
          match get_member h current key with
          | Ok member => if nullish member then [] else trail h tokens' member
          | Throw _ => []
          end
      | None => []
      end
  | _ => []
  end.

(** What one turn of the loop of [setValueAtPath] can do at a token that
    names [key]: step into a member that is there, create the member and
    step into it, step to a character of a string, or throw, having at most
    allocated the container it was about to store. *)
Inductive step_result (h : heap) (current : any) (key : string)
    (nextToken : PathToken) : result any * heap -> Prop :=
| step_enters (l : loc) (o : object) :
    current = VObject l -> h !! l = Some o ->
    nullish (object_member o key) = false ->
    step_result h current key nextToken (Ok (object_member o key), h)
| step_creates (l : loc) (o : object) :
    current = VObject l -> h !! l = Some o ->
    nullish (object_member o key) = true ->
    step_result h current key nextToken
      (Ok (VObject (length h)),
       <[l := assign key (VObject (length h)) o]>
         (h ++ [new_container nextToken]))
| step_character (s : string) :
    current = VString s -> nullish (string_member s key) = false ->
    step_result h current key nextToken (Ok (string_member s key), h)
| step_fails (e : exn) (h' : heap) :
    h' = h \/ h' = h ++ [new_container nextToken] ->
    step_result h current key nextToken (Throw e, h').

(** ** Members the language supplies

    An object answers to more names than those of its own properties: it
    inherits the members of its prototypes, and a function has a [length],
    a [name] and a [prototype] that the heap does not hold. What such a name
    reads, and what an assignment to it does, is not what [get_member] and
    [put_object] say; the statements about particular members are made where
    the two agree, which [reads_own] and [stores_own] decide. The names are
    those of ECMAScript 2025 and its Annex B, with the prototypes as the
    language makes them. *)

Definition Object_prototype : list string :=
  ["constructor"; "__defineGetter__"; "__defineSetter__"; "hasOwnProperty";
   "__lookupGetter__"; "__lookupSetter__"; "isPrototypeOf";
   "propertyIsEnumerable"; "toString"; "valueOf"; "__proto__";
   "toLocaleString"].

Definition Array_prototype : list string :=
  ["constructor"; "at"; "concat"; "copyWithin"; "fill"; "find"; "findIndex";
   "findLast"; "findLastIndex"; "lastIndexOf"; "pop"; "push"; "reverse";
   "shift"; "unshift"; "slice"; "sort"; "splice"; "includes"; "indexOf";
   "join"; "keys"; "entries"; "values"; "forEach"; "filter"; "flat";
   "flatMap"; "map"; "every"; "some"; "reduce"; "reduceRight"; "toReversed";
   "toSorted"; "toSpliced"; "with"; "toLocaleString"; "toString"].

Definition Function_prototype : list string :=
  ["length"; "name"; "arguments"; "caller"; "constructor"; "apply"; "bind";
   "call"; "toString"].

Definition String_prototype : list string :=
  ["constructor"; "anchor"; "at"; "big"; "blink"; "bold"; "charAt";
   "charCodeAt"; "codePointAt"; "concat"; "endsWith"; "fontcolor";
   "fontsize"; "fixed"; "includes"; "indexOf"; "isWellFormed"; "italics";
   "lastIndexOf"; "link"; "localeCompare"; "match"; "matchAll"; "normalize";
   "padEnd"; "padStart"; "repeat"; "replace"; "replaceAll"; "search";
   "slice"; "small"; "split"; "strike"; "sub"; "substr"; "substring"; "sup";
   "startsWith"; "toString"; "toWellFormed"; "trim"; "trimStart";
   "trimLeft"; "trimEnd"; "trimRight"; "toLocaleLowerCase";
   "toLocaleUpperCase"; "toLowerCase"; "toUpperCase"; "valueOf"].

Definition Number_prototype : list string :=
  ["constructor"; "toExponential"; "toFixed"; "toPrecision"; "toString";
   "valueOf"; "toLocaleString"].

Definition Boolean_prototype : list string :=
  ["constructor"; "toString"; "valueOf"].

Definition named_in (names : list string) (key : string) : bool :=
  existsb (String.eqb key) names.

(** The names an object of kind [k] answers to without an own property in
    the heap. The [length] of an array is not among them: the heap holds
    it. *)
Definition built_in (k : object_kind) (key : string) : bool :=
  match k with
  | PlainObject => named_in Object_prototype key
  | ArrayObject _ => named_in (Array_prototype ++ Object_prototype) key
  | FunctionObject _ =>
      named_in ("prototype" :: Function_prototype ++ Object_prototype) key
  end.

(** Among them, the names under which an assignment stores no own property:
    [__proto__] is an accessor, whose setter takes the assignment, and the
    [length], [name], [prototype], [arguments] and [caller] of a function
    are read-only or are accessors that throw. Under the other built-in
    names an assignment stores an own property that hides the inherited
    member. *)
Definition guarded (k : object_kind) (key : string) : bool :=
  match k with
  | FunctionObject _ =>
      named_in ["__proto__"; "length"; "name"; "prototype"; "arguments";
                "caller"] key
  | _ => String.eqb key "__proto__"
  end.

(** The names a string, a number or a boolean answers to, apart from the
    [length] and the characters of a string. *)
Definition primitive_built_in (key : string) : bool :=
  named_in (String_prototype ++ Number_prototype ++ Boolean_prototype
            ++ Object_prototype) key.

(** [key] names an own property of [o]. *)
Definition own (o : object) (key : string) : bool :=
  names_length o key
  || match lookup_member key (properties o) with
     | Some _ => true
     | None => false
     end.

(** [o[key]] reads what the heap holds: an own property, or nothing where
    the language supplies nothing either. *)
Definition reads_own (o : object) (key : string) : bool :=
  own o key || negb (built_in (kind o) key).

(** [o[key] = v] stores an own property. *)
Definition stores_own (o : object) (key : string) : bool :=
  own o key || negb (guarded (kind o) key).

(** The same two conditions in the containers that a write creates past the
    first member that is null or absent: [token] is applied to a new array
    when it is an index token and to a new plain object otherwise, and the
    last token assigns. *)
Fixpoint created_hold (tokens : list PathToken) : bool :=
  match tokens with
  | [] => true
  | token :: tokens' =>
      match token_key token with
      | Some key =>
          negb match tokens' with
               | [] => guarded (kind (new_container token)) key
               | _ :: _ => built_in (kind (new_container token)) key
               end
          && created_hold tokens'
      | None => true
      end
  end.

(** The walk of a write along [tokens], followed in the heap before the
    write, meets only members that the heap holds: it reads with [reads_own]
    at every token but the last, and assigns with [stores_own] at the
    last. *)
Fixpoint held (h : heap) (tokens : list PathToken) (current : any) : bool :=
  match tokens with
  | [] => true
  | token :: tokens' =>
      match token_key token, current with
      | Some key, VObject l =>
          match h !! l with
          | Some o =>
              match tokens' with
              | [] => stores_own o key
              | _ :: _ =>
                  reads_own o key
                  && (if nullish (object_member o key)
                      then created_hold tokens'
                      else held h tokens' (object_member o key))
              end
          | None => true
          end
      | _, _ => true
      end
  end.

(** ** Where a write ends *)

(** The last token names the [length] of the array that the walk of a write
    arrives at: the assignment resizes the array. *)
Definition resizes (rt : runtime) (tokens : list PathToken) (current : any)
    (h : heap) : bool :=
  match set_loop rt tokens current h with
  | (Ok (VObject l), h1) =>
      match h1 !! l, last_key tokens with
      | Some o, Some key => names_length o key
      | _, _ => false
      end
  | _ => false
  end.

(** The member that the last token assigns is one that the path has stepped
    through on its way, [seen] being the members stepped through so far:
    the assignment changes where the path leads. A walk that has to create
    a member assigns in a new container, which the path has not met. *)
Fixpoint cut_from (seen : list (loc * string)) (h : heap)
    (tokens : list PathToken) (current : any) : bool :=
  match tokens with
  | [] => false
  | token :: tokens' =>
      match token_key token, current with
      | Some key, VObject l =>
          match tokens' with
          | [] =>
              existsb (fun s => Nat.eqb (fst s) l && String.eqb (snd s) key)
                seen
          | _ :: _ =>
              match get_member h current key with
              | Ok member =>
                  if nullish member then false
                  else cut_from ((l, key) :: seen) h tokens' member
              | Throw _ => false
              end
          end
      | _, _ => false
      end
  end.

Definition cut (h : heap) (tokens : list PathToken) (current : any) : bool :=
  cut_from [] h tokens current.

(** ** What a write leaves in place *)





(** ** The order in which the language lists the keys of an object *)







(** ** Example texts, heaps and runtimes *)

(** The argument text ["a,b", 2], double quotes included. *)
Definition quoted_comma : string :=
  String double_quote
    (String.append "a,b" (String double_quote ", 2")).

(** The values a condition treats as false. *)
Definition falsy_values : list any :=
  [VUndefined; VNull; VBool false; VNumber (Finite false 0 0);
   VNumber (Finite true 0 0); VNumber NaN; VString ""].

(** A runtime without functions of interest. *)
Definition inert : runtime :=
  {| call := fun _ _ _ h => (Ok VUndefined, h);
     object_to_number := fun _ _ => Ok NaN |}.

Definition empty_object : object := {| kind := PlainObject; properties := [] |}.

Definition empty_array : object := {| kind := ArrayObject 0; properties := [] |}.

(** An object with a flag and a method that raises the flag and returns what
    it was: [{ done: false, mark() { const was = this.done; this.done = true;
    return was; } }]. *)
Definition marking : runtime :=
  {| call := fun _ this _ h =>
               match get_member h this "done" with
               | Ok was =>
                   match write inert this "done" (VBool true) h with
                   | (Ok _, h') => (Ok was, h')
                   | (Throw e, h') => (Throw e, h')
                   end
               | Throw e => (Throw e, h)
               end;
     object_to_number := fun _ _ => Ok NaN |}.

Definition marked_heap : heap :=
  [ {| kind := PlainObject;
       properties := [("done", VBool false); ("mark", VObject 1)] |};
    {| kind := FunctionObject 0; properties := [] |} ].

Definition named_heap : heap :=
  [ {| kind := PlainObject; properties := [("a", VObject 1)] |};
    {| kind := PlainObject; properties := [("name", VString "Ann")] |} ].

(** [{ a: [1, 2, 3] }] *)
Definition numbers_heap : heap :=
  [ {| kind := PlainObject; properties := [("a", VObject 1)] |};
    {| kind := ArrayObject 3;
       properties := [("0", VNumber (Finite false 1 0));
                      ("1", VNumber (Finite false 2 0));
                      ("2", VNumber (Finite false 3 0))] |} ].

(** An object that is its own member [a]. *)
Definition cyclic_heap : heap :=
  [ {| kind := PlainObject; properties := [("a", VObject 0)] |} ].

(** [{ a: {} }] *)
Definition holder_heap : heap :=
  [ {| kind := PlainObject; properties := [("a", VObject 1)] |};
    empty_object ].

(** ** Paths of names *)

(** The names joined by dots: [a.b.c]. *)
Fixpoint dotted (names : list string) : string :=
  match names with
  | [] => EmptyString
  | name :: names' =>
      match names' with
      | [] => name
      | _ => String.append name (String "." (dotted names'))
      end
  end.

(** A path of [n] dots. *)
Fixpoint dots (n : nat) : string :=
  match n with
  | O => EmptyString
  | S n' => String "." (dots n')
  end.

Fixpoint paren_free (s : string) : bool :=
  match s with
  | EmptyString => true
  | String c s' => negb (Ascii.eqb c "(" || Ascii.eqb c ")") && paren_free s'
  end.

(** A name as the tokenizer makes them: not empty, and without a special
    character. *)
Definition proper_name (s : string) : bool := nonempty s && plain_name s.

(** ** Names in the two cases *)

(** No underscore of [s] is followed by a lower-case letter. *)
Fixpoint no_lower_after_underscore (s : string) : bool :=
  match s with
  | EmptyString => true
  | String a rest =>
      negb (Ascii.eqb a "_" && match rest with
                                | String b _ => is_lower b
                                | EmptyString => false
                                end)
      && no_lower_after_underscore rest
  end.

Fixpoint no_upper (s : string) : bool :=
  match s with
  | EmptyString => true
  | String a rest => negb (is_upper a) && no_upper rest
  end.

Fixpoint count_upper (s : string) : nat :=
  match s with
  | EmptyString => 0
  | String a rest => (if is_upper a then 1 else 0) + count_upper rest
  end.

(** ** Patterns of fixed width *)

(** The length of the texts that a pattern accepts, when all of them have
    the same. *)
Fixpoint fixed_width (groups : list (list (list class))) (n : nat) : bool :=
  match groups with
  | [] => (n =? 0)%nat
  | alternatives :: groups' =>
      forallb (fun cs => (length cs <=? n)%nat
                         && fixed_width groups' (n - length cs)) alternatives
  end.

(** ** Weights of neighbours *)

(** The weights of two characters that stand side by side. *)
Fixpoint adjacent_pairs (weights : list N) : list (N * N) :=
  match weights with
  | w :: weights' =>
      match weights' with
      | w' :: _ => (w, w') :: adjacent_pairs weights'
      | [] => []
      end
  | [] => []
  end.

(** ** Sets indexed by key *)

Section SetEx_notions.
Context {T K W : Type} `{EqDecision T} `{EqDecision K}.
Variable member : T -> string -> K.

(** The map indexes the elements by their key: the set holds no element
    twice, and the map takes a key to the element that has it. *)
Definition indexed (this : @SetEx T K W) : Prop :=
  NoDup (elements this) /\
  forall k v, map_get k (_map this) = Some v
              <-> v ∈ elements this /\ member v (_key this) = k.


End SetEx_notions.

(** * Properties *)

(** ** Strings *)

Lemma append_assoc (a b c : string) :
  String.append (String.append a b) c = String.append a (String.append b c).
Proof. induction a as [|x a IH]; simpl; [reflexivity|]. rewrite IH. reflexivity. Qed.

Lemma append_empty (a : string) : String.append a "" = a.
Proof. induction a as [|x a IH]; simpl; [reflexivity|]. rewrite IH. reflexivity. Qed.

Lemma length_append (a b : string) :
  String.length (String.append a b) = String.length a + String.length b.
Proof. induction a as [|x a IH]; simpl; [reflexivity|]. rewrite IH. reflexivity. Qed.

(** ** The public operations never throw *)

Lemma LGet_string (rt : runtime) (obj : any) (p : string) (defaultValue : any)
    (h : heap) :
  LGet rt obj (VString p) defaultValue h =
  if truthy obj then
    match evaluatePath rt obj p defaultValue h with
    | (Ok r, h') => (Ok r, h')
    | (Throw _, h') => (Ok defaultValue, h')
    end
  else (Ok defaultValue, h).
Proof.
  unfold LGet, try_catch, ret.
  destruct (truthy obj); simpl; [|reflexivity].
  destruct (evaluatePath rt obj p defaultValue h) as [[r|e] h']; reflexivity.
Qed.

Lemma LSet_string (rt : runtime) (obj : any) (p : string) (value : any)
    (h : heap) :
  LSet rt obj (VString p) value h =
  (Ok obj, if truthy obj then snd (setValueAtPath rt obj p value h) else h).
Proof.
  unfold LSet, try_catch, bind, ret.
  destruct (truthy obj); simpl; [|reflexivity].
  destruct (setValueAtPath rt obj p value h) as [[[]|e] h']; reflexivity.
Qed.

(** C1: [LGet] and [LSet] return normally whatever the root, the path and the
    default or assigned value are. [LGet] returns what the internal
    evaluation returns, and the default value when that evaluation throws;
    [LSet] returns the root itself, whether or not the internal walk
    throws. *)
Theorem LGet_LSet_never_throw (rt : runtime) (obj path defaultValue value : any)
    (h : heap) :
  (exists r h', LGet rt obj path defaultValue h = (Ok r, h'))
  /\ (forall p : string,
        LGet rt obj (VString p) defaultValue h =
        if truthy obj then
          match evaluatePath rt obj p defaultValue h with
          | (Ok r, h') => (Ok r, h')
          | (Throw _, h') => (Ok defaultValue, h')
          end
        else (Ok defaultValue, h))
  /\ (exists h', LSet rt obj path value h = (Ok obj, h'))
  /\ (forall p : string,
        LSet rt obj (VString p) value h =
        (Ok obj, if truthy obj then snd (setValueAtPath rt obj p value h)
                 else h)).
Proof.
  repeat split.
  - destruct path as [| |b|n|p|l]; try (eexists _, _; reflexivity).
    rewrite LGet_string. destruct (truthy obj); [|eexists _, _; reflexivity].
    destruct (evaluatePath rt obj p defaultValue h) as [[r|e] h'];
      eexists _, _; reflexivity.
  - intros p. apply LGet_string.
  - destruct path as [| |b|n|p|l]; try (eexists; reflexivity).
    rewrite LSet_string. eexists; reflexivity.
  - intros p. apply LSet_string.
Qed.

(** ** Falsy roots *)

(** C9: for a falsy root, whatever the path, [LGet] returns the default value
    and [LSet] returns the root, and neither touches the heap; null,
    undefined, false, both zeros, NaN and the empty string are falsy. *)
Theorem falsy_root_short_circuits (rt : runtime)
    (obj path defaultValue value : any) (h : heap) :
  truthy obj = false ->
  LGet rt obj path defaultValue h = (Ok defaultValue, h)
  /\ LSet rt obj path value h = (Ok obj, h)
  /\ Forall (fun v => truthy v = false) falsy_values.
Proof.
  intros F. unfold LGet, LSet. rewrite F. simpl.
  repeat split.
  - destruct path; reflexivity.
  - destruct path; reflexivity.
  - unfold falsy_values. repeat constructor.
Qed.

Lemma falsy_root_short_circuits_witness :
  truthy (VNumber (Finite false 0 0)) = false
  /\ LGet inert (VNumber (Finite false 0 0)) (VString "") (VString "d")
       [empty_object] = (Ok (VString "d"), [empty_object])
  /\ LSet inert (VNumber (Finite false 0 0)) (VString "") VNull [empty_object]
     = (Ok (VNumber (Finite false 0 0)), [empty_object]).
Proof.
  split; [reflexivity|].
  pose proof (falsy_root_short_circuits inert (VNumber (Finite false 0 0))
                (VString "") (VString "d") VNull [empty_object] eq_refl)
    as (G & S & _).
  split; assumption.
Defined.

(** ** The fuel of the JSON parser *)

Lemma skip_ws_length (s : string) : String.length (skip_ws s) <= String.length s.
Proof.
  induction s as [|c s IH]; simpl; [lia|].
  destruct (_ || _)%bool; simpl; lia.
Qed.

Lemma after_char_length (c : ascii) (s r : string) :
  after_char c s = Some r -> String.length s = S (String.length r).
Proof.
  destruct s as [|d s]; simpl; [discriminate|].
  destruct (Ascii.eqb d c); [|discriminate]. intros E. injection E as ->.
  reflexivity.
Qed.

Lemma after_word_length (w : string) :
  forall s r : string,
    after_word w s = Some r ->
    String.length s = String.length w + String.length r.
Proof.
  induction w as [|c w IH]; intros s r; simpl.
  - intros E. injection E as ->. reflexivity.
  - destruct s as [|d s]; [discriminate|].
    destruct (Ascii.eqb c d); [|discriminate].
    intros E. apply IH in E. simpl. lia.
Qed.

Lemma span_digits_length (s : string) :
  String.length (fst (span_digits s)) + String.length (snd (span_digits s))
  = String.length s.
Proof.
  induction s as [|c s IH]; simpl; [reflexivity|].
  destruct (digit 10 c); [|reflexivity].
  destruct (span_digits s) as [ds r]. simpl in *. lia.
Qed.

Lemma json_string_length (n : nat) :
  forall (s acc x r : string),
    String.length s <= n -> json_string s acc = Some (x, r) ->
    String.length r < String.length s.
Proof.
  induction n as [|n IH]; intros s acc x r B E.
  - destruct s; [discriminate E|simpl in B; lia].
  - destruct s as [|c s]; [discriminate E|]. simpl in B. simpl in E.
    destruct (Ascii.eqb c double_quote).
    { injection E as -> ->. simpl. lia. }
    destruct (Ascii.eqb c "\").
    + destruct s as [|e s]; [discriminate E|].
      destruct (Ascii.eqb e "u").
      * destruct s as [|a [|b [|c' [|d s]]]]; try discriminate E.
        destruct (hex4 a b c' d) as [m|]; [|discriminate E].
        destruct (m <? 256)%N; [|discriminate E].
        apply IH in E; simpl in *; lia.
      * destruct (escape e); [|discriminate E].
        apply IH in E; simpl in *; lia.
    + destruct (N_of_ascii c <? 32)%N; [discriminate E|].
      apply IH in E; simpl in *; lia.
Qed.

Lemma json_exponent_length (s : string) (e : Z) (r : string) :
  json_exponent s = Some (e, r) -> String.length r <= String.length s.
Proof.
  destruct s as [|c s]; simpl.
  - intros E. injection E as <- <-. simpl. lia.
  - destruct (_ || _)%bool.
    + destruct (after_char "-" s) as [r'|] eqn:A1.
      * pose proof (after_char_length _ _ _ A1).
        pose proof (span_digits_length r').
        destruct (span_digits r') as [ds r2].
        destruct (digits 10 ds); [|discriminate].
        intros E. injection E as <- <-. simpl in *. lia.
      * destruct (after_char "+" s) as [r'|] eqn:A2.
        -- pose proof (after_char_length _ _ _ A2).
           pose proof (span_digits_length r').
           destruct (span_digits r') as [ds r2].
           destruct (digits 10 ds); [|discriminate].
           intros E. injection E as <- <-. simpl in *. lia.
        -- pose proof (span_digits_length s).
           destruct (span_digits s) as [ds r2].
           destruct (digits 10 ds); [|discriminate].
           intros E. injection E as <- <-. simpl in *. lia.
    + intros E. injection E as <- <-. simpl. lia.
Qed.

Lemma json_fraction_length (s fp r : string) :
  json_fraction s = Some (fp, r) -> String.length r <= String.length s.
Proof.
  unfold json_fraction. destruct (after_char "." s) as [r0|] eqn:A.
  - pose proof (after_char_length _ _ _ A).
    pose proof (span_digits_length r0) as L.
    destruct (span_digits r0) as [ds r']. simpl in L.
    destruct (nonempty ds); [|discriminate].
    intros E. injection E as <- <-. lia.
  - intros E. injection E as <- <-. lia.
Qed.

Lemma json_unsigned_length (negative : bool) (s : string) (x : number)
    (r : string) :
  json_unsigned negative s = Some (x, r) -> String.length r < String.length s.
Proof.
  unfold json_unsigned. pose proof (span_digits_length s) as L.
  destruct (span_digits s) as [ip r1]. simpl in L.
  destruct ip as [|d ip]; [discriminate|]. cbn [nonempty negb orb].
  destruct (_ && _)%bool; [discriminate|].
  destruct (json_fraction r1) as [[fp r2]|] eqn:F; [|discriminate].
  apply json_fraction_length in F.
  destruct (digits 10 _); [|discriminate].
  destruct (json_exponent r2) as [[e r3]|] eqn:X; [|discriminate].
  apply json_exponent_length in X.
  intros E. injection E as _ <-. simpl in L. lia.
Qed.

Lemma json_number_length (s : string) (x : number) (r : string) :
  json_number s = Some (x, r) -> String.length r < String.length s.
Proof.
  unfold json_number. destruct (after_char "-" s) as [r'|] eqn:A.
  - pose proof (after_char_length _ _ _ A). intros E.
    apply json_unsigned_length in E. lia.
  - apply json_unsigned_length.
Qed.

Lemma json_value_unfold (fuel : nat) (s : string) :
  json_value (S fuel) s
  = match skip_ws s with
    | EmptyString => None
    | String c r as t =>
        if Ascii.eqb c "n" then keyword "null" LNull t
        else if Ascii.eqb c "t" then keyword "true" (LBool true) t
        else if Ascii.eqb c "f" then keyword "false" (LBool false) t
        else if Ascii.eqb c double_quote then
          match json_string r EmptyString with
          | Some (str, r') => Some (LString str, r')
          | None => None
          end
        else if Ascii.eqb c "[" then
          match after_char "]" (skip_ws r) with
          | Some r' => Some (LArray [], r')
          | None =>
              match json_items fuel (skip_ws r) [] with
              | Some (items, r') => Some (LArray items, r')
              | None => None
              end
          end
        else if Ascii.eqb c "{" then
          match after_char "}" (skip_ws r) with
          | Some r' => Some (LObject [], r')
          | None =>
              match json_members fuel (skip_ws r) [] with
              | Some (members, r') => Some (LObject members, r')
              | None => None
              end
          end
        else
          match json_number t with
          | Some (n, r') => Some (LNumber n, r')
          | None => None
          end
    end.
Proof. reflexivity. Qed.

Lemma json_items_unfold (fuel : nat) (s : string) (acc : list literal) :
  json_items (S fuel) s acc
  = match json_value fuel s with
    | Some (v, r) =>
        match after_char "," (skip_ws r) with
        | Some r' => json_items fuel r' (acc ++ [v])
        | None =>
            match after_char "]" (skip_ws r) with
            | Some r' => Some (acc ++ [v], r')
            | None => None
            end
        end
    | None => None
    end.
Proof. reflexivity. Qed.

Lemma json_members_unfold (fuel : nat) (s : string)
    (acc : list (string * literal)) :
  json_members (S fuel) s acc
  = match after_char double_quote (skip_ws s) with
    | Some r =>
        match json_string r EmptyString with
        | Some (k, r1) =>
            match after_char ":" (skip_ws r1) with
            | Some r2 =>
                match json_value fuel r2 with
                | Some (v, r3) =>
                    match after_char "," (skip_ws r3) with
                    | Some r' => json_members fuel r' (set_member k v acc)
                    | None =>
                        match after_char "}" (skip_ws r3) with
                        | Some r' => Some (set_member k v acc, r')
                        | None => None
                        end
                    end
                | None => None
                end
            | None => None
            end
        | None => None
        end
    | None => None
    end.
Proof. reflexivity. Qed.

Lemma keyword_length (w : string) (v x : literal) (s r : string) :
  keyword w v s = Some (x, r) ->
  String.length s = String.length w + String.length r.
Proof.
  unfold keyword. destruct (after_word w s) as [r'|] eqn:A; [|discriminate].
  intros E. injection E as _ <-. apply after_word_length, A.
Qed.

(** Each of the three parsers consumes at least one character. *)
Lemma json_parsers_length (fuel : nat) :
  (forall s v r, json_value fuel s = Some (v, r) ->
                 String.length r < String.length s)
  /\ (forall s acc x r, json_items fuel s acc = Some (x, r) ->
                        String.length r < String.length s)
  /\ (forall s acc x r, json_members fuel s acc = Some (x, r) ->
                        String.length r < String.length s).
Proof.
  induction fuel as [|fuel (IHv & IHi & IHm)];
    [repeat split; intros; discriminate|].
  split; [|split].
  - intros s v r. rewrite json_value_unfold.
    pose proof (skip_ws_length s) as W.
    destruct (skip_ws s) as [|c t]; [discriminate|]. simpl in W. cbv zeta.
    pose proof (skip_ws_length t) as Wt.
    destruct (Ascii.eqb c "n");
      [intros E; apply keyword_length in E; simpl in E; lia|].
    destruct (Ascii.eqb c "t");
      [intros E; apply keyword_length in E; simpl in E; lia|].
    destruct (Ascii.eqb c "f");
      [intros E; apply keyword_length in E; simpl in E; lia|].
    destruct (Ascii.eqb c double_quote).
    { destruct (json_string t "") as [[str r']|] eqn:J; [|discriminate].
      apply (json_string_length _ _ _ _ _ (le_n _)) in J.
      intros E. injection E as _ <-. lia. }
    destruct (Ascii.eqb c "[").
    { destruct (after_char "]" (skip_ws t)) as [r'|] eqn:A.
      - apply after_char_length in A. intros E. injection E as _ <-. lia.
      - destruct (json_items fuel (skip_ws t) []) as [[items r']|] eqn:J;
          [|discriminate].
        apply IHi in J. intros E. injection E as _ <-. lia. }
    destruct (Ascii.eqb c "{").
    { destruct (after_char "}" (skip_ws t)) as [r'|] eqn:A.
      - apply after_char_length in A. intros E. injection E as _ <-. lia.
      - destruct (json_members fuel (skip_ws t) []) as [[ms r']|] eqn:J;
          [|discriminate].
        apply IHm in J. intros E. injection E as _ <-. lia. }
    destruct (json_number (String c t)) as [[n r']|] eqn:J; [|discriminate].
    apply json_number_length in J. intros E. injection E as _ <-.
    simpl in J. lia.
  - intros s acc x r. rewrite json_items_unfold.
    destruct (json_value fuel s) as [[v r0]|] eqn:V; [|discriminate].
    apply IHv in V. pose proof (skip_ws_length r0) as W.
    destruct (after_char "," (skip_ws r0)) as [r'|] eqn:A.
    + apply after_char_length in A. intros E. apply IHi in E. lia.
    + destruct (after_char "]" (skip_ws r0)) as [r'|] eqn:B; [|discriminate].
      apply after_char_length in B. intros E. injection E as _ <-. lia.
  - intros s acc x r. rewrite json_members_unfold.
    pose proof (skip_ws_length s) as W.
    destruct (after_char double_quote (skip_ws s)) as [r0|] eqn:Q;
      [|discriminate].
    apply after_char_length in Q.
    destruct (json_string r0 "") as [[k r1]|] eqn:J; [|discriminate].
    apply (json_string_length _ _ _ _ _ (le_n _)) in J.
    pose proof (skip_ws_length r1) as W1.
    destruct (after_char ":" (skip_ws r1)) as [r2|] eqn:C; [|discriminate].
    apply after_char_length in C.
    destruct (json_value fuel r2) as [[v r3]|] eqn:V; [|discriminate].
    apply IHv in V. pose proof (skip_ws_length r3) as W3.
    destruct (after_char "," (skip_ws r3)) as [r'|] eqn:A.
    + apply after_char_length in A. intros E. apply IHm in E. lia.
    + destruct (after_char "}" (skip_ws r3)) as [r'|] eqn:B; [|discriminate].
      apply after_char_length in B. intros E. injection E as _ <-. lia.
Qed.

(** Past twice the length of the text, one more unit of fuel changes
    nothing. *)
Lemma json_parsers_stable (fuel : nat) :
  (forall s, 2 * String.length s + 1 <= fuel ->
             json_value (S fuel) s = json_value fuel s)
  /\ (forall s acc, 2 * String.length s + 2 <= fuel ->
                    json_items (S fuel) s acc = json_items fuel s acc)
  /\ (forall s acc, 2 * String.length s + 1 <= fuel ->
                    json_members (S fuel) s acc = json_members fuel s acc).
Proof.
  induction fuel as [|fuel (IHv & IHi & IHm)];
    [repeat split; intros; lia|].
  destruct (json_parsers_length fuel) as (Lv & Li & Lm).
  split; [|split].
  - intros s B. rewrite (json_value_unfold (S fuel)), (json_value_unfold fuel).
    pose proof (skip_ws_length s) as W.
    destruct (skip_ws s) as [|c t]; [reflexivity|]. simpl in W.
    pose proof (skip_ws_length t) as Wt.
    rewrite IHi, IHm by lia. reflexivity.
  - intros s acc B.
    rewrite (json_items_unfold (S fuel)), (json_items_unfold fuel).
    rewrite IHv by lia.
    destruct (json_value fuel s) as [[v r0]|] eqn:V; [|reflexivity].
    apply Lv in V. pose proof (skip_ws_length r0) as W.
    destruct (after_char "," (skip_ws r0)) as [r'|] eqn:A; [|reflexivity].
    apply after_char_length in A. apply IHi. lia.
  - intros s acc B.
    rewrite (json_members_unfold (S fuel)), (json_members_unfold fuel).
    pose proof (skip_ws_length s) as W.
    destruct (after_char double_quote (skip_ws s)) as [r0|] eqn:Q;
      [|reflexivity].
    apply after_char_length in Q.
    destruct (json_string r0 "") as [[k r1]|] eqn:J; [|reflexivity].
    apply (json_string_length _ _ _ _ _ (le_n _)) in J.
    pose proof (skip_ws_length r1) as W1.
    destruct (after_char ":" (skip_ws r1)) as [r2|] eqn:C; [|reflexivity].
    apply after_char_length in C.
    rewrite IHv by lia.
    destruct (json_value fuel r2) as [[v r3]|] eqn:V; [|reflexivity].
    apply Lv in V. pose proof (skip_ws_length r3) as W3.
    destruct (after_char "," (skip_ws r3)) as [r'|] eqn:A; [|reflexivity].
    apply after_char_length in A. apply IHm. lia.
Qed.

(** The fuel of [JSON_parse] never runs out: more fuel gives the same
    parse. *)
Lemma JSON_parse_fuel (text : string) (extra : nat) :
  json_value (2 * String.length text + 2 + extra) text
  = json_value (2 * String.length text + 2) text.
Proof.
  induction extra as [|extra IH]; [rewrite Nat.add_0_r; reflexivity|].
  rewrite Nat.add_succ_r.
  destruct (json_parsers_stable (2 * String.length text + 2 + extra))
    as (Sv & _).
  rewrite Sv by lia. exact IH.
Qed.

(** ** The value parser *)

Lemma parseValue_first_match (s : string) :
  parseValue s = first_match literal_shapes (trim s).
Proof.
  unfold parseValue, literal_shapes, first_match.
  unfold shape_empty, shape_quoted, shape_bracketed, shape_braced,
    shape_numeric, shape_boolean, shape_null, shape_undefined, structured.
  destruct (nonempty (trim s)); simpl; [|reflexivity].
  destruct (isNaN (StringToNumber (trim s))); simpl;
  repeat match goal with
         | |- context [if ?c then _ else _] => destruct c; simpl; try reflexivity
         end.
Qed.

(** C7: [parseValue] returns a value for every input: it tries the shapes in
    order (empty, quoted, bracketed and braced with the structured parse and
    its fallback, numeric, true or false, null, undefined), the first that
    matches decides, a failing structured parse yields the trimmed text, and
    so does an input that matches no shape. *)
Theorem parseValue_total_first_match (s : string) :
  parseValue s = first_match literal_shapes (trim s)
  /\ (exists v, parseValue s = v)
  /\ (Forall (fun shape => shape (trim s) = None) literal_shapes ->
      parseValue s = LString (trim s))
  /\ (forall e, JSON_parse (trim s) = Throw e ->
      structured (trim s) = LString (trim s)).
Proof.
  split; [apply parseValue_first_match|].
  split; [eexists; reflexivity|].
  split.
  - intros F. rewrite parseValue_first_match.
    induction F as [|shape shapes E F IH]; simpl; [reflexivity|].
    rewrite E. exact IH.
  - intros e E. unfold structured. rewrite E. reflexivity.
Qed.

(** ** The tokenizer *)

Lemma scan_matching_shorter (opening closing : ascii) (rest : string) :
  forall (count : Z) (content : string),
    String.length (snd (scan_matching opening closing rest count content))
    <= String.length rest.
Proof.
  induction rest as [|c rest IH]; intros count content; simpl; [lia|].
  destruct (0 <? _)%Z; simpl; [|lia].
  specialize (IH (if Ascii.eqb c closing
                  then ((if Ascii.eqb c opening then count + 1 else count) - 1)%Z
                  else if Ascii.eqb c opening then (count + 1)%Z else count)
                (push_char content c)).
  lia.
Qed.

(** The fuel of the main loop never runs out: any amount above the length of
    the remaining text gives the same tokens. *)
Lemma tokenize_loop_fuel (fuel : nat) :
  forall (fuel' : nat) (rest current : string) (tokens : list PathToken),
    String.length rest < fuel -> String.length rest < fuel' ->
    tokenize_loop fuel rest current tokens
    = tokenize_loop fuel' rest current tokens.
Proof.
  induction fuel as [|fuel IH]; intros fuel' rest current tokens L L'; [lia|].
  destruct fuel' as [|fuel']; [lia|].
  destruct rest as [|c rest]; simpl; [reflexivity|].
  simpl in L, L'.
  destruct (Ascii.eqb c "."); [apply IH; lia|].
  destruct (Ascii.eqb c "[").
  { pose proof (scan_matching_shorter "[" "]" rest 1 "") as B.
    destruct (scan_matching "[" "]" rest 1 "") as [content after].
    simpl in B. apply IH; lia. }
  destruct (Ascii.eqb c "(").
  { pose proof (scan_matching_shorter "(" ")" rest 1 "") as B.
    destruct (scan_matching "(" ")" rest 1 "") as [content after].
    simpl in B. apply IH; lia. }
  apply IH; lia.
Qed.

Lemma tokenize_loop_typed (fuel : nat) :
  forall (rest current : string) (tokens : list PathToken),
    forallb well_typed_token tokens = true ->
    forallb well_typed_token (tokenize_loop fuel rest current tokens) = true.
Proof.
  assert (F : forall current tokens,
             forallb well_typed_token tokens = true ->
             forallb well_typed_token (flush current tokens) = true).
  { intros current tokens T. unfold flush. destruct (nonempty current); [|exact T].
    rewrite forallb_app, T. reflexivity. }
  assert (I : forall content, well_typed_index (index_of_content content) = true).
  { intros content. unfold index_of_content.
    destruct (isNaN (StringToNumber content)) eqn:E; simpl; rewrite E; reflexivity. }
  induction fuel as [|fuel IH]; intros rest current tokens T; simpl; [exact T|].
  destruct rest as [|c rest]; [apply F, T|].
  destruct (Ascii.eqb c "."); [apply IH, F, T|].
  destruct (Ascii.eqb c "[").
  { destruct (scan_matching "[" "]" rest 1 "") as [content after].
    apply IH. rewrite forallb_app, (F _ _ T). simpl. rewrite I. reflexivity. }
  destruct (Ascii.eqb c "(").
  { destruct (scan_matching "(" ")" rest 1 "") as [content after].
    apply IH. rewrite forallb_app, T. reflexivity. }
  apply IH, T.
Qed.

(** A run of plain characters is gathered into the current name. *)
Lemma tokenize_loop_name (name : string) :
  forall (fuel : nat) (rest current : string) (tokens : list PathToken),
    plain_name name = true ->
    tokenize_loop (String.length name + fuel) (String.append name rest) current
      tokens
    = tokenize_loop fuel rest (String.append current name) tokens.
Proof.
  induction name as [|c name IH]; intros fuel rest current tokens P; simpl.
  - rewrite append_empty. reflexivity.
  - simpl in P. apply andb_prop in P as [C P].
    apply negb_true_iff in C. apply orb_false_elim in C as [C C3].
    apply orb_false_elim in C as [C1 C2]. rewrite C1, C2, C3.
    rewrite IH by exact P. unfold push_char. rewrite append_assoc. reflexivity.
Qed.

(** The scan for the closing bracket stops at the first one when no bracket
    opens before it. *)
Lemma scan_matching_bracket_free (content : string) :
  forall (rest acc : string),
    bracket_free content = true ->
    scan_matching "[" "]" (String.append content (String "]" rest)) 1 acc
    = (String.append acc content, rest).
Proof.
  induction content as [|c content IH]; intros rest acc B; simpl.
  - rewrite append_empty. reflexivity.
  - simpl in B. apply andb_prop in B as [C B].
    apply negb_true_iff in C. apply orb_false_elim in C as [C1 C2].
    rewrite C1, C2. simpl. rewrite IH by exact B.
    unfold push_char. rewrite append_assoc. reflexivity.
Qed.

Lemma tokenizePath_indexed (name content : string) :
  plain_name name = true -> bracket_free content = true ->
  tokenizePath (String.append name (String "[" (String.append content "]")))
  = flush name [] ++ [index (index_of_content content)].
Proof.
  intros P B. unfold tokenizePath.
  rewrite (tokenize_loop_fuel _ (String.length name + S (S (S (String.length content))))).
  - rewrite tokenize_loop_name by exact P. simpl.
    rewrite scan_matching_bracket_free by exact B. reflexivity.
  - lia.
  - rewrite length_append. simpl. rewrite length_append. simpl. lia.
Qed.

(** C4: the value of an index token is fixed when the path is tokenized, by
    the numeric test on the whole bracket content: [x[3]] gives the number 3
    and [x[ab]] the string [ab]; in general a plain name followed by bracket
    content without brackets gives the name and the index that the test
    chooses, and no index token of any path contradicts the test. The
    evaluator does not look at the choice again: it uses the value of an
    index token as a property key and nothing else. *)
Theorem index_value_fixed_by_tokenizer :
  tokenizePath "x[3]" = [property "x"; index (of_number (Finite false 3 0))]
  /\ tokenizePath "x[ab]" = [property "x"; index (of_string "ab")]
  /\ (forall content : string,
        index_of_content content =
        if isNaN (StringToNumber content) then of_string content
        else of_number (StringToNumber content))
  /\ (forall name content : string,
        plain_name name = true -> bracket_free content = true ->
        tokenizePath
          (String.append name (String "[" (String.append content "]")))
        = flush name [] ++ [index (index_of_content content)])
  /\ (forall path : string,
        forallb well_typed_token (tokenizePath path) = true)
  /\ (forall (rt : runtime) (v : index_value) (tokens : list PathToken)
             (current defaultValue : any) (h : heap),
        evaluate_loop rt (index v :: tokens) current defaultValue h
        = evaluate_loop rt (property (ToPropertyKey v) :: tokens) current
            defaultValue h).
Proof.
  split; [reflexivity|]. split; [reflexivity|]. split; [reflexivity|].
  split; [exact tokenizePath_indexed|].
  split; [|reflexivity].
  intros path. apply tokenize_loop_typed. reflexivity.
Qed.

(** ** The argument list parser *)

Lemma fields_of_nonempty (s : string) :
  forall previous m, fields_of previous s m <> [].
Proof.
  induction s as [|c s IH]; intros previous m; simpl; [discriminate|].
  destruct (Ascii.eqb c "," && top_level m); [discriminate|].
  destruct (fields_of (Some c) s (scan_next previous c m)); discriminate.
Qed.

Lemma rejoin_fields_of (s : string) :
  forall previous m, rejoin (fields_of previous s m) = s.
Proof.
  induction s as [|c s IH]; intros previous m; simpl; [reflexivity|].
  destruct (Ascii.eqb c "," && top_level m) eqn:E.
  - apply andb_prop in E as [E _]. apply Ascii.eqb_eq in E. subst c.
    specialize (IH (Some ","%char) m).
    pose proof (fields_of_nonempty s (Some ","%char) m) as N.
    destruct (fields_of (Some ","%char) s m) as [|f fs]; [contradiction|].
    rewrite <- IH. reflexivity.
  - specialize (IH (Some c) (scan_next previous c m)).
    pose proof (fields_of_nonempty s (Some c) (scan_next previous c m)) as N.
    destruct (fields_of (Some c) s (scan_next previous c m)) as [|f fs];
      [contradiction|].
    destruct fs as [|g fs]; simpl in *; rewrite <- IH; reflexivity.
Qed.

(** One turn of the loop, read through [mode_of]: at a top-level comma the
    current field is parsed and a new one starts; any other character joins
    the current field and moves the mode on. *)
Lemma arguments_step_mode (previous : option ascii) (c : ascii)
    (st : arguments_state) :
  consistent st ->
  let st' := arguments_step previous c st in
  consistent st'
  /\ if Ascii.eqb c "," && top_level (mode_of st) then
       args st' = args st ++ [parse_field (current st)]
       /\ current st' = "" /\ mode_of st' = mode_of st
     else
       args st' = args st /\ current st' = push_char (current st) c
       /\ mode_of st' = scan_next previous c (mode_of st).
Proof.
  intros C. unfold consistent in C. unfold arguments_step, mode_of, top_level, scan_next, consistent, escaped.
  destruct st as [a cur ins sc pc bc]; simpl in *.
  destruct ins; simpl.
  - destruct sc as [q|]; [|exfalso; apply C; reflexivity].
    rewrite andb_false_r.
    destruct (Ascii.eqb c q); simpl.
    + destruct previous as [p|]; simpl; [destruct (Ascii.eqb p "\")|]; simpl;
        repeat split; try discriminate; congruence.
    + repeat split; discriminate.
  - destruct (Ascii.eqb c double_quote) eqn:Q1; simpl.
    { apply Ascii.eqb_eq in Q1. subst c. simpl. repeat split; discriminate. }
    destruct (Ascii.eqb c "'") eqn:Q2; simpl.
    { apply Ascii.eqb_eq in Q2. subst c. simpl. repeat split; discriminate. }
    destruct (Ascii.eqb c "(") eqn:Q3; simpl.
    { apply Ascii.eqb_eq in Q3. subst c. simpl. repeat split; discriminate. }
    destruct (Ascii.eqb c ")") eqn:Q4; simpl.
    { apply Ascii.eqb_eq in Q4. subst c. simpl. repeat split; discriminate. }
    destruct (Ascii.eqb c "[") eqn:Q5; simpl.
    { apply Ascii.eqb_eq in Q5. subst c. simpl. repeat split; discriminate. }
    destruct (Ascii.eqb c "]") eqn:Q6; simpl.
    { apply Ascii.eqb_eq in Q6. subst c. simpl. repeat split; discriminate. }
    destruct (Ascii.eqb c ","); simpl; [|repeat split; discriminate].
    destruct (pc =? 0)%Z; simpl; [|repeat split; discriminate].
    destruct (bc =? 0)%Z; simpl; repeat split; discriminate.
Qed.

Lemma arguments_loop_fields (s : string) :
  forall (previous : option ascii) (st : arguments_state),
    consistent st ->
    let fs := attach (current st) (fields_of previous s (mode_of st)) in
    let st' := arguments_loop previous s st in
    args st' = args st ++ map parse_field (removelast fs)
    /\ current st' = List.last fs "".
Proof.
  induction s as [|c s IH]; intros previous st C; simpl.
  - rewrite append_empty, app_nil_r. split; reflexivity.
  - destruct (arguments_step_mode previous c st C) as [C' S].
    specialize (IH (Some c) _ C'). simpl in IH. destruct IH as [IHa IHc].
    rewrite IHa, IHc. clear IHa IHc.
    destruct (Ascii.eqb c "," && top_level (mode_of st)).
    + destruct S as (Sa & Sc & Sm). rewrite Sa, Sc, Sm.
      pose proof (fields_of_nonempty s (Some c) (mode_of st)) as N.
      destruct (fields_of (Some c) s (mode_of st)) as [|f fs]; [contradiction|].
      simpl. rewrite append_empty, <- app_assoc. split; reflexivity.
    + destruct S as (Sa & Sc & Sm). rewrite Sa, Sc, Sm.
      pose proof (fields_of_nonempty s (Some c) (scan_next previous c (mode_of st))) as N.
      destruct (fields_of (Some c) s (scan_next previous c (mode_of st)))
        as [|f fs]; [contradiction|].
      unfold attach, push_char. rewrite append_assoc. simpl. split; reflexivity.
Qed.

Lemma without_blank_end_map (fs : list string) :
  fs <> [] ->
  map parse_field (without_blank_end fs)
  = map parse_field (removelast fs)
    ++ (if blank (List.last fs "") then [] else [parse_field (List.last fs "")]).
Proof.
  induction fs as [|f fs IH]; intros N; [contradiction|].
  destruct fs as [|g fs].
  - simpl. destruct (blank f); reflexivity.
  - change (without_blank_end (f :: g :: fs)) with (f :: without_blank_end (g :: fs)).
    change (removelast (f :: g :: fs)) with (f :: removelast (g :: fs)).
    change (List.last (f :: g :: fs) "") with (List.last (g :: fs) "").
    rewrite !map_cons, IH by discriminate. reflexivity.
Qed.

Lemma parseArguments_split (s : string) :
  parseArguments s = map parse_field (split_arguments s).
Proof.
  unfold parseArguments, split_arguments. fold (blank s).
  destruct (blank s); [reflexivity|].
  assert (C : consistent arguments_start) by (intros H; discriminate H).
  destruct (arguments_loop_fields s None arguments_start C) as [A L].
  simpl in A, L.
  pose proof (fields_of_nonempty s None outside) as N.
  change (mode_of arguments_start) with outside in A, L.
  assert (T : attach "" (fields_of None s outside) = fields_of None s outside).
  { destruct (fields_of None s outside); [contradiction|reflexivity]. }
  rewrite T in A, L.
  rewrite without_blank_end_map by exact N.
  rewrite A, L. unfold blank.
  destruct (nonempty (trim (List.last (fields_of None s outside) ""))); simpl.
  - reflexivity.
  - rewrite app_nil_r. reflexivity.
Qed.

(** C6: [parseArguments] cuts its input at the commas met outside quote mode
    and at depth zero of parentheses and brackets, and nowhere else (putting
    the commas back between the fields gives the input again), and hands each
    trimmed field to [parseValue] in order; the two examples come out as
    stated, the comma inside the quotes staying in its field. *)
Theorem parseArguments_splits_at_top_level_commas :
  parseArguments "1, 'two', [3,4], true, null"
  = [LNumber (Finite false 1 0); LString "two";
     LArray [LNumber (Finite false 3 0); LNumber (Finite false 4 0)];
     LBool true; LNull]
  /\ parseArguments quoted_comma = [LString "a,b"; LNumber (Finite false 2 0)]
  /\ split_arguments quoted_comma
     = [String double_quote (push_char "a,b" double_quote); " 2"]
  /\ (forall s : string, parseArguments s = map parse_field (split_arguments s))
  /\ (forall s : string, rejoin (fields_of None s outside) = s).
Proof.
  split; [vm_compute; reflexivity|].
  split; [vm_compute; reflexivity|].
  split; [vm_compute; reflexivity|].
  split; [exact parseArguments_split|].
  intros s. apply rejoin_fields_of.
Qed.

(** ** Members of objects *)

Lemma lookup_set_member_eq {A : Type} (k : string) (v : A)
    (ms : list (string * A)) :
  lookup_member k (set_member k v ms) = Some v.
Proof.
  induction ms as [|[k' v'] ms IH]; simpl.
  - rewrite String.eqb_refl. reflexivity.
  - destruct (String.eqb k' k) eqn:E; simpl; rewrite E; [reflexivity|exact IH].
Qed.

Lemma lookup_set_member_ne {A : Type} (k k' : string) (v : A)
    (ms : list (string * A)) :
  k <> k' -> lookup_member k' (set_member k v ms) = lookup_member k' ms.
Proof.
  intros N. induction ms as [|[k0 v0] ms IH]; simpl.
  - destruct (String.eqb k k') eqn:E; [|reflexivity].
    apply String.eqb_eq in E. contradiction.
  - destruct (String.eqb k0 k) eqn:E; simpl.
    + apply String.eqb_eq in E. subst k0.
      destruct (String.eqb k k') eqn:E'; [|reflexivity].
      apply String.eqb_eq in E'. contradiction.
    + rewrite IH. reflexivity.
Qed.

Lemma put_object_assign (rt : runtime) (h : heap) (o : object) (key : string)
    (v : any) :
  names_length o key = false -> put_object rt h o key v = Ok (assign key v o).
Proof.
  unfold names_length, is_array, put_object, assign, grown.
  destruct (kind o); simpl; intros L; try reflexivity.
  rewrite L. reflexivity.
Qed.

Lemma object_member_assign_eq (o : object) (key : string) (v : any) :
  names_length o key = false -> object_member (assign key v o) key = v.
Proof.
  unfold names_length, is_array, object_member, assign, grown.
  destruct (kind o); simpl; intros L; rewrite ?L, lookup_set_member_eq;
    reflexivity.
Qed.

Lemma nullish_member_not_length (o : object) (key : string) :
  nullish (object_member o key) = true -> names_length o key = false.
Proof.
  unfold names_length, is_array, object_member.
  destruct (kind o); simpl; try reflexivity.
  destruct (String.eqb key "length"); [discriminate|reflexivity].
Qed.

(** ** The steps of the write walk *)

Lemma write_object (rt : runtime) (h : heap) (l : loc) (o : object)
    (key : string) (v : any) :
  h !! l = Some o -> names_length o key = false ->
  write rt (VObject l) key v h = (Ok tt, <[l := assign key v o]> h).
Proof.
  intros H L. unfold write. rewrite H, put_object_assign by exact L.
  reflexivity.
Qed.

(** Descending into a member that is null or absent creates a container at
    the next free location, stores it under the key, and steps into it. *)
Lemma descend_creates (rt : runtime) (h : heap) (l : loc) (o : object)
    (key : string) (nextToken : PathToken) :
  h !! l = Some o -> nullish (object_member o key) = true ->
  descend rt (VObject l) key nextToken h
  = (Ok (VObject (length h)),
     <[l := assign key (VObject (length h)) o]> (h ++ [new_container nextToken])).
Proof.
  intros H N. pose proof (nullish_member_not_length o key N) as L.
  assert (B : l < length h) by (apply lookup_lt_is_Some; eauto).
  unfold descend, bind, read, alloc, ret. cbn [get_member]. rewrite H, N.
  assert (H' : (h ++ [new_container nextToken]) !! l = Some o)
    by (rewrite lookup_app_l; assumption).
  rewrite (write_object rt _ l o key _ H' L).

  rewrite list_lookup_insert_eq by (rewrite length_app; simpl; lia).
  rewrite object_member_assign_eq by exact L. reflexivity.
Qed.

(** Descending into a member that is there changes nothing. *)
Lemma descend_enters (rt : runtime) (h : heap) (l : loc) (o : object)
    (key : string) (nextToken : PathToken) :
  h !! l = Some o -> nullish (object_member o key) = false ->
  descend rt (VObject l) key nextToken h = (Ok (object_member o key), h).
Proof.
  intros H N. unfold descend, bind, read, ret. simpl. rewrite H, N. simpl.
  rewrite H. reflexivity.
Qed.

Lemma isArray_object (h : heap) (l : loc) (o : object) :
  h !! l = Some o -> isArray (VObject l) h = (Ok (is_array o), h).
Proof.
  intros H. unfold isArray, is_array. rewrite H.
  destruct o as [[] ps]; reflexivity.
Qed.

Lemma get_member_object (h : heap) (l : loc) (key : string) (v : any) :
  get_member h (VObject l) key = Ok v ->
  exists o, h !! l = Some o /\ object_member o key = v.
Proof.
  simpl. destruct (h !! l) as [o|]; [|discriminate].
  intros E. injection E as E. eauto.
Qed.

(** ** The write walk, token by token *)

Lemma setValueAtPath_tokens (rt : runtime) (obj : any) (path : string)
    (value : any) :
  setValueAtPath rt obj path value
  = set_tokens rt (tokenizePath path) obj value.
Proof. reflexivity. Qed.

Lemma set_tokens_one (rt : runtime) (token : PathToken) (current value : any)
    (h : heap) :
  set_tokens rt [token] current value h
  = set_last rt (Some token) current value h.
Proof. reflexivity. Qed.

Lemma set_tokens_more (rt : runtime) (token nextToken : PathToken)
    (tokens : list PathToken) (current value : any) (h : heap) :
  set_tokens rt (token :: nextToken :: tokens) current value h
  = match set_step rt token nextToken current h with
    | (Ok next, h1) => set_tokens rt (nextToken :: tokens) next value h1
    | (Throw e, h1) => (Throw e, h1)
    end.
Proof.
  unfold set_tokens, bind. cbn [set_loop]. unfold bind.
  destruct (set_step rt token nextToken current h) as [[next|e] h1];
    reflexivity.
Qed.

Lemma descend_result (rt : runtime) (h : heap) (current : any) (key : string)
    (nextToken : PathToken) :
  step_result h current key nextToken (descend rt current key nextToken h).
Proof.
  destruct current as [| |b|n|s|l].
  - apply step_fails. left. reflexivity.
  - apply step_fails. left. reflexivity.
  - apply step_fails. right. reflexivity.
  - apply step_fails. right. reflexivity.
  - destruct (nullish (string_member s key)) eqn:N.
    + unfold descend, bind, read, alloc. cbn [get_member]. rewrite N.
      apply step_fails. right. reflexivity.
    + unfold descend, bind, read, ret. cbn [get_member]. rewrite N.
      eapply step_character; [reflexivity|exact N].
  - destruct (h !! l) as [o|] eqn:H.
    + destruct (nullish (object_member o key)) eqn:N.
      * rewrite (descend_creates rt h l o) by assumption.
        eapply step_creates; eauto.
      * rewrite (descend_enters rt h l o) by assumption.
        eapply step_enters; eauto.
    + unfold descend, bind, read. cbn [get_member]. rewrite H.
      apply step_fails. left. reflexivity.
Qed.

Lemma set_step_result (rt : runtime) (h : heap) (token nextToken : PathToken)
    (current : any) (key : string) :
  token_key token = Some key ->
  step_result h current key nextToken (set_step rt token nextToken current h).
Proof.
  destruct token as [k|k|name args]; simpl; intros K; [| |discriminate].
  - injection K as K. subst key. apply descend_result.
  - injection K as K. subst key. unfold bind.
    destruct (isArray current h) as [[[]|e] h1] eqn:A;
      unfold isArray in A; injection A as A1 A2; subst h1;
      try discriminate.
    + apply descend_result.
    + apply step_fails. left. reflexivity.
Qed.

(** The outcomes of one turn of the loop, spelled out. *)
Lemma set_step_cases (rt : runtime) (h : heap) (token nextToken : PathToken)
    (current : any) (key : string) :
  token_key token = Some key ->
  (exists l o, current = VObject l /\ h !! l = Some o
     /\ nullish (object_member o key) = false
     /\ set_step rt token nextToken current h = (Ok (object_member o key), h))
  \/ (exists l o, current = VObject l /\ h !! l = Some o
        /\ nullish (object_member o key) = true
        /\ set_step rt token nextToken current h
           = (Ok (VObject (length h)),
              <[l := assign key (VObject (length h)) o]>
                (h ++ [new_container nextToken])))
  \/ (exists s, current = VString s
        /\ nullish (string_member s key) = false
        /\ set_step rt token nextToken current h
           = (Ok (string_member s key), h))
  \/ (exists e h', set_step rt token nextToken current h = (Throw e, h')
        /\ (h' = h \/ h' = h ++ [new_container nextToken])).
Proof.
  intros K.
  pose proof (set_step_result rt h token nextToken current key K) as R.
  remember (set_step rt token nextToken current h) as outcome eqn:E.
  destruct R as [l o C H N|l o C H N|s C N|e h' F].
  - left. exists l, o. auto.
  - right. left. exists l, o. auto.
  - right. right. left. exists s. auto.
  - right. right. right. exists e, h'. auto.
Qed.

(** ** What a write leaves in place *)




Lemma accesses_cons (token : PathToken) (tokens : list PathToken) :
  accesses (token :: tokens) = true ->
  (exists key, token_key token = Some key) /\ accesses tokens = true.
Proof.
  unfold accesses. simpl. intros A. apply andb_prop in A as [T A].
  split; [|exact A]. destruct token; simpl in *; eauto; discriminate.
Qed.

(** ** The order in which the language lists the keys of an object *)














(** ** Creation of missing containers *)

Lemma lookup_fresh (h : heap) (o : object) (n : nat) :
  n = length h -> (h ++ [o]) !! n = Some o.
Proof.
  intros ->. rewrite lookup_app_r by lia. rewrite Nat.sub_diag. reflexivity.
Qed.

Ltac heap_length :=
  repeat first [rewrite length_insert | rewrite length_app];
  cbn [length]; rewrite ?Nat.add_1_r.

(** Looking up a location in a heap built by allocations and updates. *)
Ltac heap_lookup :=
  repeat first
    [ rewrite list_lookup_insert_eq by (heap_length; lia)
    | rewrite list_lookup_insert_ne by lia
    | rewrite lookup_fresh by (heap_length; lia)
    | rewrite lookup_app_l by (heap_length; lia) ];
  try reflexivity; try assumption.

(** The rule of creation, for a token applied to an object (to an array when
    it is an index token) whose member is null or absent: the new container
    is an array when the next token is an index token and a plain object
    otherwise, it is stored under the key, and the walk steps into it. *)
Lemma set_step_creates (rt : runtime) (h : heap) (l : loc) (o : object)
    (token nextToken : PathToken) (key : string) :
  h !! l = Some o -> token_key token = Some key ->
  (is_index token = true -> is_array o = true) ->
  nullish (object_member o key) = true ->
  exists h',
    set_step rt token nextToken (VObject l) h = (Ok (VObject (length h)), h')
    /\ h !! length h = None
    /\ h' !! length h
       = Some (if is_index nextToken then empty_array else empty_object)
    /\ get_member h' (VObject l) key = Ok (VObject (length h)).
Proof.
  intros H K A N.
  assert (B : l < length h) by (apply lookup_lt_is_Some; eauto).
  assert (D : descend rt (VObject l) key nextToken h
              = (Ok (VObject (length h)),
                 <[l := assign key (VObject (length h)) o]>
                   (h ++ [new_container nextToken])))
    by (apply descend_creates; assumption).
  exists (<[l := assign key (VObject (length h)) o]>
            (h ++ [new_container nextToken])).
  split; [|split; [|split]].
  - destruct token as [k|k|name args]; simpl in K; [| |discriminate];
      injection K as K; subst key; cbn [set_step].
    + exact D.
    + unfold bind. rewrite (isArray_object h l o H), A by reflexivity. exact D.
  - apply lookup_ge_None. lia.
  - rewrite list_lookup_insert_ne by lia. rewrite lookup_fresh by reflexivity.
    destruct nextToken; reflexivity.
  - cbn [get_member].
    rewrite list_lookup_insert_eq by (rewrite length_app; simpl; lia).
    rewrite object_member_assign_eq
      by (apply nullish_member_not_length; exact N).
    reflexivity.
Qed.

(** An index token applied to an object that is not an array creates
    nothing: the walk throws and the heap is as it was. *)
Lemma set_step_index_guard (rt : runtime) (h : heap) (l : loc) (o : object)
    (v : index_value) (nextToken : PathToken) :
  h !! l = Some o -> is_array o = false ->
  set_step rt (index v) nextToken (VObject l) h
  = (Throw (Error "Cannot access array index on non-array"), h).
Proof.
  intros H A. cbn [set_step]. unfold bind.
  rewrite (isArray_object h l o H), A. reflexivity.
Qed.

(** The walk of [a.b[0].c] from an empty object. *)
Lemma set_example_heap (rt : runtime) (h : heap) (r : loc) (value : any) :
  h !! r = Some empty_object ->
  setValueAtPath rt (VObject r) "a.b[0].c" value h
  = (Ok tt,
     <[S (S (length h)) := assign "c" value empty_object]>
       (<[S (length h) := assign "0" (VObject (S (S (length h)))) empty_array]>
          (<[length h := assign "b" (VObject (S (length h))) empty_object]>
             (<[r := assign "a" (VObject (length h)) empty_object]>
                (h ++ [empty_object]) ++ [empty_array]) ++ [empty_object]))).
Proof.
  intros H.
  assert (B : r < length h) by (apply lookup_lt_is_Some; eauto).
  rewrite setValueAtPath_tokens.
  change (tokenizePath "a.b[0].c")
    with [property "a"; property "b"; index (of_number (Finite false 0 0));
          property "c"].
  rewrite set_tokens_more. cbn [set_step].
  rewrite (descend_creates rt h r empty_object) by (assumption || reflexivity).
  rewrite set_tokens_more. cbn [set_step].
  rewrite (descend_creates rt _ (length h) empty_object)
    by (reflexivity || heap_lookup).
  rewrite set_tokens_more. cbn [set_step]. unfold bind at 1.
  heap_length.
  rewrite (isArray_object _ (S (length h)) empty_array) by heap_lookup.
  cbn [is_array empty_array kind].
  change (ToPropertyKey (of_number (Finite false 0 0))) with "0".
  rewrite (descend_creates rt _ (S (length h)) empty_array)
    by (reflexivity || heap_lookup).
  rewrite set_tokens_one. cbn [set_last].
  heap_length.
  rewrite (write_object rt _ (S (S (length h))) empty_object)
    by (reflexivity || heap_lookup).
  reflexivity.
Qed.

(** An index token met at an object that is not an array: nothing is
    created under its key, though the member is absent. *)
Lemma index_on_plain_object_creates_nothing :
  tokenizePath "[0].x" = [index (of_number (Finite false 0 0)); property "x"]
  /\ get_member [empty_object] (VObject 0) "0" = Ok VUndefined
  /\ ~ (exists l : loc,
          get_member
            (snd (LSet inert (VObject 0) (VString "[0].x")
                    (VNumber (Finite false 1 0)) [empty_object]))
            (VObject 0) "0"
          = Ok (VObject l)).
Proof.
  split; [reflexivity|]. split; [reflexivity|].
  intros [l E]. vm_compute in E. discriminate E.
Qed.

(** C3, amended: [LSet] on an empty object with the path [a.b[0].c] and the
    value 5 leaves [a] a plain object, [a.b] an array, [a.b[0]] a plain
    object and [a.b[0].c] equal to 5. In general, where the value stepped
    from is an object, and an array in the case of an index token, a member
    that is an own property holding null or undefined, or that is absent
    under a key which names no built-in member of the object, is replaced
    by a new array when the next token is an index token and by a new plain
    object otherwise; an index token met at an object that is not an array
    creates nothing and ends the walk. Under a key such as [__proto__] or
    [constructor], which an object answers to without holding it, the code
    reads the inherited member instead, and nothing is said here. *)
Theorem missing_containers_are_created (rt : runtime) :
  (forall (h : heap) (r : loc),
      h !! r = Some empty_object ->
      exists (la lb lc : loc) (oa ob oc : object) (n : N),
        let h' := snd (LSet rt (VObject r) (VString "a.b[0].c")
                         (VNumber (Finite false 5 0)) h) in
        get_member h' (VObject r) "a" = Ok (VObject la)
        /\ h' !! la = Some oa /\ kind oa = PlainObject
        /\ object_member oa "b" = VObject lb
        /\ h' !! lb = Some ob /\ kind ob = ArrayObject n
        /\ object_member ob "0" = VObject lc
        /\ h' !! lc = Some oc /\ kind oc = PlainObject
        /\ object_member oc "c" = VNumber (Finite false 5 0))
  /\ (forall (h : heap) (l : loc) (o : object) (token nextToken : PathToken)
             (key : string),
        h !! l = Some o -> token_key token = Some key ->
        (is_index token = true -> is_array o = true) ->
        nullish (object_member o key) = true ->
        reads_own o key = true ->
        exists h',
          set_step rt token nextToken (VObject l) h
          = (Ok (VObject (length h)), h')
          /\ h !! length h = None
          /\ h' !! length h
             = Some (if is_index nextToken then empty_array else empty_object)
          /\ get_member h' (VObject l) key = Ok (VObject (length h)))
  /\ (forall (h : heap) (l : loc) (o : object) (v : index_value)
             (nextToken : PathToken),
        h !! l = Some o -> is_array o = false ->
        set_step rt (index v) nextToken (VObject l) h
        = (Throw (Error "Cannot access array index on non-array"), h)).
Proof.
  split; [|split].
  - intros h r H.
    assert (B : r < length h) by (apply lookup_lt_is_Some; eauto).
    exists (length h), (S (length h)), (S (S (length h))).
    exists (assign "b" (VObject (S (length h))) empty_object).
    exists (assign "0" (VObject (S (S (length h)))) empty_array).
    exists (assign "c" (VNumber (Finite false 5 0)) empty_object).
    exists 1%N.
    cbv zeta. rewrite LSet_string. cbn [truthy].
    rewrite set_example_heap by exact H. cbn [snd get_member].
    repeat split; heap_lookup.
  - intros h l o token nextToken key H K A N _.
    apply (set_step_creates rt h l o token nextToken key H K A N).
  - intros h l o v nextToken. apply set_step_index_guard.
Qed.

(** ** Writing, then reading the same path *)

Lemma string_member_primitive (s key : string) :
  is_object (string_member s key) = false.
Proof.
  unfold string_member. destruct (String.eqb key "length"); [reflexivity|].
  destruct (array_index key) as [i|]; [|reflexivity].
  destruct (get (N.to_nat i) s); reflexivity.
Qed.

Lemma get_member_primitive (h : heap) (current : any) (key : string)
    (member : any) :
  is_object current = false -> get_member h current key = Ok member ->
  is_object member = false.
Proof.
  destruct current as [| |b|n|s|l]; simpl; intros P E; try discriminate;
    injection E as <-; try reflexivity.
  apply string_member_primitive.
Qed.

(** A path that starts at a value that is not an object meets no object. *)
Lemma trail_primitive (h : heap) (tokens : list PathToken) :
  forall (current x : any),
    is_object current = false -> In x (trail h tokens current) ->
    is_object x = false.
Proof.
  induction tokens as [|token tokens IH]; intros current x P I.
  - destruct I as [<-|[]]. exact P.
  - destruct tokens as [|nextToken tokens];
      [destruct I as [<-|[]]; exact P|].
    cbn [trail] in I. destruct I as [<-|I]; [exact P|].
    destruct (token_key token) as [key|]; [|destruct I].
    destruct (get_member h current key) as [member|e] eqn:G; [|destruct I].
    destruct (nullish member); [destruct I|].
    eapply IH; [|exact I]. eapply get_member_primitive; eassumption.
Qed.

(** A path that starts at an object without members stops there, or at the
    length of an empty array. *)
Lemma trail_empty_object (h : heap) (tokens : list PathToken) (n : loc)
    (c : object) :
  h !! n = Some c -> properties c = [] ->
  trail h tokens (VObject n) = [VObject n]
  \/ exists m, trail h tokens (VObject n) = [VObject n; VNumber m].
Proof.
  intros H E.
  assert (M : forall key, object_member c key = VUndefined
                          \/ exists m, object_member c key = VNumber m).
  { intros key. unfold object_member. rewrite E. simpl.
    destruct (kind c); auto. destruct (String.eqb key "length"); eauto. }
  destruct tokens as [|token [|nextToken tokens]]; [left; reflexivity..|].
  cbn [trail]. destruct (token_key token) as [key|]; [|left; reflexivity].
  cbn [get_member]. rewrite H.
  destruct (M key) as [-> | [m ->]]; cbn [nullish]; [left; reflexivity|].
  right. exists m. f_equal.
  destruct tokens as [|t tokens]; [reflexivity|]. cbn [trail].
  destruct (token_key nextToken); reflexivity.
Qed.

Lemma trail_empty_object_only (h : heap) (tokens : list PathToken) (n l : loc)
    (c : object) :
  h !! n = Some c -> properties c = [] ->
  In (VObject l) (trail h tokens (VObject n)) -> l = n.
Proof.
  intros H E I.
  destruct (trail_empty_object h tokens n c H E) as [T|[m T]];
    rewrite T in I; simpl in I; intuition congruence.
Qed.

Lemma trail_empty_object_NoDup (h : heap) (tokens : list PathToken) (n : loc)
    (c : object) :
  h !! n = Some c -> properties c = [] ->
  NoDup (trail h tokens (VObject n)).
Proof.
  intros H E.
  destruct (trail_empty_object h tokens n c H E) as [T|[m T]]; rewrite T.
  - apply NoDup_singleton.
  - apply NoDup_cons. split; [|apply NoDup_singleton].
    rewrite list_elem_of_singleton. discriminate.
Qed.

(** From a value that is not an object the write walk does not complete. *)
Lemma set_tokens_primitive (rt : runtime) (value : any)
    (tokens : list PathToken) :
  tokens <> [] -> accesses tokens = true ->
  forall (current : any) (h : heap),
    is_object current = false ->
    fst (set_tokens rt tokens current value h) <> Ok tt.
Proof.
  induction tokens as [|token tokens IH]; intros N A current h P;
    [contradiction|].
  apply accesses_cons in A as [[key K] A].
  destruct tokens as [|nextToken tokens].
  - rewrite set_tokens_one.
    destruct token as [k|k|name args]; [| |discriminate]; cbn [set_last].
    + destruct current; try discriminate; simpl; discriminate.
    + unfold bind. destruct current; try discriminate; simpl; discriminate.
  - rewrite set_tokens_more.
    destruct (set_step_cases rt h token nextToken current key K)
      as [(l & o & -> & _)|[(l & o & -> & _)|[(s & -> & _ & E)
         |(e & h' & E & _)]]]; try discriminate; rewrite E.
    + apply IH; [discriminate|exact A|apply string_member_primitive].
    + simpl. discriminate.
Qed.

(** A write changes no object off the path. *)
Lemma write_frame (rt : runtime) (current : any) (key : string) (v : any)
    (h : heap) (l : loc) :
  current <> VObject l -> snd (write rt current key v h) !! l = h !! l.
Proof.
  intros N. unfold write. destruct current as [| |b|n|s|l']; try reflexivity.
  destruct (h !! l') as [o|]; [|reflexivity].
  destruct (put_object rt h o key v); [|reflexivity].
  simpl. apply list_lookup_insert_ne. congruence.
Qed.

Lemma set_last_frame (rt : runtime) (token : option PathToken)
    (current value : any) (h : heap) (l : loc) :
  current <> VObject l ->
  snd (set_last rt token current value h) !! l = h !! l.
Proof.
  intros N. destruct token as [[k|k|name args]|]; cbn [set_last];
    try reflexivity.
  - apply write_frame, N.
  - unfold bind.
    destruct (isArray current h) as [[[]|e] h1] eqn:A;
      unfold isArray in A; injection A as A1 A2; subst h1; try discriminate;
      try reflexivity.
    apply write_frame, N.
Qed.

Lemma set_tokens_frame (rt : runtime) (value : any) (tokens : list PathToken) :
  accesses tokens = true ->
  forall (current : any) (h : heap) (l : loc),
    l < length h -> ~ In (VObject l) (trail h tokens current) ->
    snd (set_tokens rt tokens current value h) !! l = h !! l.
Proof.
  induction tokens as [|token tokens IH]; intros A current h l B T;
    [reflexivity|].
  apply accesses_cons in A as [[key K] A].
  destruct tokens as [|nextToken tokens].
  - rewrite set_tokens_one. apply set_last_frame.
    intros ->. apply T. left. reflexivity.
  - rewrite set_tokens_more.
    cbn [trail] in T. rewrite K in T.
    destruct (set_step_cases rt h token nextToken current key K)
      as [(l0 & o & -> & H & N & E)|[(l0 & o & -> & H & N & E)
         |[(s & -> & N & E)|(e & h' & E & F)]]]; rewrite E.
    + cbn [get_member] in T. rewrite H, N in T.
      apply IH; [exact A|exact B|]. intros I. apply T. right. exact I.
    + assert (B0 : l0 < length h) by (apply lookup_lt_is_Some; eauto).
      assert (D : l <> l0) by (intros ->; apply T; left; reflexivity).
      rewrite IH.
      * rewrite list_lookup_insert_ne by congruence. apply lookup_app_l, B.
      * exact A.
      * rewrite length_insert, length_app. simpl. lia.
      * intros I.
        eapply (trail_empty_object_only _ (nextToken :: tokens) (length h)
                  l (new_container nextToken)) in I.
        -- lia.
        -- rewrite list_lookup_insert_ne by lia. apply lookup_fresh.
           reflexivity.
        -- destruct nextToken; reflexivity.
    + cbn [get_member] in T. rewrite N in T.
      apply IH; [exact A|exact B|]. intros I. apply T. right. exact I.
    + destruct F as [->| ->]; [reflexivity|]. apply lookup_app_l, B.
Qed.

Lemma evaluate_loop_access (rt : runtime) (token : PathToken) (key : string)
    (tokens : list PathToken) (current defaultValue : any) (h : heap) :
  token_key token = Some key ->
  evaluate_loop rt (token :: tokens) current defaultValue h
  = if nullish current then (Ok defaultValue, h)
    else
      match get_member h current key with
      | Ok next => evaluate_loop rt tokens next defaultValue h
      | Throw e => (Throw e, h)
      end.
Proof.
  intros K. cbn [evaluate_loop]. destruct (nullish current); [reflexivity|].
  destruct token as [k|k|name args]; simpl in K; [| |discriminate];
    injection K as ->; unfold bind, read;
    destruct (get_member h current _); reflexivity.
Qed.

Lemma last_key_more (token nextToken : PathToken) (tokens : list PathToken) :
  last_key (token :: nextToken :: tokens) = last_key (nextToken :: tokens).
Proof. reflexivity. Qed.

Lemma resizes_one (rt : runtime) (token : PathToken) (l : loc) (o : object)
    (key : string) (h : heap) :
  h !! l = Some o -> token_key token = Some key ->
  resizes rt [token] (VObject l) h = names_length o key.
Proof.
  intros H K. unfold resizes, last_key. cbn. rewrite H, K. reflexivity.
Qed.

Lemma resizes_more (rt : runtime) (token nextToken : PathToken)
    (tokens : list PathToken) (current : any) (h : heap) :
  resizes rt (token :: nextToken :: tokens) current h
  = match set_step rt token nextToken current h with
    | (Ok next, h1) => resizes rt (nextToken :: tokens) next h1
    | (Throw _, _) => false
    end.
Proof.
  unfold resizes. cbn [set_loop]. unfold bind. rewrite last_key_more.
  destruct (set_step rt token nextToken current h) as [[next|e] h1];
    reflexivity.
Qed.

(** The switch on the last token, at an object: it throws and leaves the
    heap alone, or it stores the value, unless it resizes an array. *)
Lemma set_last_cases (rt : runtime) (token : PathToken) (key : string)
    (current value : any) (h : heap) :
  token_key token = Some key ->
  resizes rt [token] current h = false ->
  (exists e, set_last rt (Some token) current value h = (Throw e, h))
  \/ (exists l o, current = VObject l /\ h !! l = Some o
        /\ names_length o key = false
        /\ set_last rt (Some token) current value h
           = (Ok tt, <[l := assign key value o]> h)).
Proof.
  intros K R.
  assert (W : (exists e, write rt current key value h = (Throw e, h))
              \/ (exists l o, current = VObject l /\ h !! l = Some o
                    /\ names_length o key = false
                    /\ write rt current key value h
                       = (Ok tt, <[l := assign key value o]> h))).
  { destruct current as [| |b|n|s|l]; try (left; eexists; reflexivity).
    destruct (h !! l) as [o|] eqn:H.
    - right. exists l, o. rewrite (resizes_one rt token l o key h H K) in R.
      repeat split; try assumption. apply write_object; assumption.
    - left. exists TypeError. unfold write. rewrite H. reflexivity. }
  destruct token as [k|k|name args]; simpl in K; [| |discriminate];
    injection K as K; subst key; cbn [set_last].
  - exact W.
  - unfold bind.
    destruct (isArray current h) as [[[]|e] h1] eqn:A;
      unfold isArray in A; injection A as A1 A2; subst h1; try discriminate.
    + exact W.
    + left. eexists. reflexivity.
Qed.

Lemma object_member_assign_ne (o : object) (key key' : string) (v : any) :
  key <> key' -> is_object (object_member o key') = true ->
  object_member (assign key v o) key' = object_member o key'.
Proof.
  unfold object_member, assign, grown. intros D O.
  destruct (kind o) as [|len|id]; cbn [kind properties];
    rewrite ?lookup_set_member_ne by exact D; try reflexivity.
  destruct (String.eqb key' "length"); [discriminate O|reflexivity].
Qed.

Lemma cut_from_primitive (seen : list (loc * string)) (h : heap)
    (tokens : list PathToken) (current : any) :
  is_object current = false -> cut_from seen h tokens current = false.
Proof.
  intros P. destruct tokens as [|token tokens]; [reflexivity|].
  cbn [cut_from]. destruct (token_key token); [|reflexivity].
  destruct current; try reflexivity. discriminate P.
Qed.

Lemma member_of_empty (c : object) (key : string) :
  properties c = [] -> is_object (object_member c key) = false.
Proof.
  unfold object_member. intros ->. cbn.
  destruct (kind c); try reflexivity.
  destruct (String.eqb key "length"); reflexivity.
Qed.

Lemma cut_from_more (seen : list (loc * string)) (h : heap)
    (token nextToken : PathToken) (tokens : list PathToken) (l : loc)
    (key : string) :
  token_key token = Some key ->
  cut_from seen h (token :: nextToken :: tokens) (VObject l)
  = match get_member h (VObject l) key with
    | Ok member =>
        if nullish member then false
        else cut_from ((l, key) :: seen) h (nextToken :: tokens) member
    | Throw _ => false
    end.
Proof. intros K. cbn. rewrite K. reflexivity. Qed.

Lemma cut_from_empty (h : heap) (tokens : list PathToken) (n : loc)
    (c : object) :
  h !! n = Some c -> properties c = [] ->
  cut_from [] h tokens (VObject n) = false.
Proof.
  intros H P. destruct tokens as [|token [|nextToken tokens]];
    [reflexivity| |].
  - cbn. destruct (token_key token); reflexivity.
  - destruct (token_key token) as [key|] eqn:K;
      [|cbn; rewrite K; reflexivity].
    rewrite (cut_from_more _ _ _ _ _ _ key K). cbn [get_member]. rewrite H.
    destruct (nullish (object_member c key)); [reflexivity|].
    apply cut_from_primitive, member_of_empty, P.
Qed.

(** The walk that completes, read back along the same tokens: the members
    stepped through so far, [seen], read as before, and the tokens lead to
    the value written. *)
Lemma set_tokens_then_evaluate (rt : runtime) (value defaultValue : any)
    (tokens : list PathToken) :
  accesses tokens = true -> tokens <> [] ->
  forall (seen : list (loc * string)) (current : any) (h : heap),
    fst (set_tokens rt tokens current value h) = Ok tt ->
    resizes rt tokens current h = false ->
    cut_from seen h tokens current = false ->
    (forall l k, In (l, k) seen ->
       exists o, h !! l = Some o /\ is_object (object_member o k) = true) ->
    evaluate_loop rt tokens current defaultValue
      (snd (set_tokens rt tokens current value h))
    = (Ok match value with
          | VUndefined => defaultValue
          | _ => value
          end,
       snd (set_tokens rt tokens current value h))
    /\ forall l k, In (l, k) seen ->
         get_member (snd (set_tokens rt tokens current value h)) (VObject l) k
         = get_member h (VObject l) k.
Proof.
  induction tokens as [|token tokens IH]; intros A NE seen current h S R C Seen;
    [contradiction|].
  apply accesses_cons in A as [[key K] A].
  destruct tokens as [|nextToken tokens].
  - clear IH. rewrite set_tokens_one in *.
    destruct (set_last_cases rt token key current value h K R)
      as [[e E]|(l & o & -> & H & L & E)]; rewrite E in *; [discriminate S|].
    cbn [snd]. split.
    + rewrite (evaluate_loop_access rt token key) by exact K.
      cbn [nullish get_member].
      rewrite list_lookup_insert_eq by (apply lookup_lt_is_Some; eauto).
      rewrite object_member_assign_eq by exact L. reflexivity.
    + intros l' k' I. cbn [get_member].
      destruct (decide (l' = l)) as [->|D];
        [|rewrite list_lookup_insert_ne by congruence; reflexivity].
      rewrite list_lookup_insert_eq by (apply lookup_lt_is_Some; eauto).
      rewrite H. f_equal.
      destruct (Seen _ _ I) as (o' & H' & O). rewrite H in H'.
      injection H' as <-.
      apply object_member_assign_ne; [|exact O].
      intros <-. cbn [cut_from] in C. rewrite K in C.
      assert (X : existsb (fun s => Nat.eqb (fst s) l && String.eqb (snd s) key)
                    seen = true).
      { apply existsb_exists. exists (l, key). split; [exact I|]. cbn.
        rewrite Nat.eqb_refl, String.eqb_refl. reflexivity. }
      rewrite X in C. discriminate C.
  - rewrite set_tokens_more in *. rewrite resizes_more in R.
    destruct (set_step_cases rt h token nextToken current key K)
      as [(l & o & -> & H & N & E)|[(l & o & -> & H & N & E)
         |[(s & -> & N & E)|(e & h' & E & F)]]]; rewrite E in *.
    + (* the member is there: it is an object, and is read again later *)
      destruct (is_object (object_member o key)) eqn:O.
      2:{ exfalso. revert S. apply set_tokens_primitive;
            [discriminate|exact A|exact O]. }
      rewrite (cut_from_more _ _ _ _ _ _ key K) in C. cbn [get_member] in C.
      rewrite H, N in C.
      destruct (IH A ltac:(discriminate) ((l, key) :: seen)
                  (object_member o key) h S R C) as [G P].
      { intros l' k' [I|I]; [injection I as <- <-; eauto|apply Seen, I]. }
      split.
      * rewrite (evaluate_loop_access rt token key) by exact K.
        cbn [nullish].
        rewrite (P l key (or_introl eq_refl)). cbn [get_member]. rewrite H.
        exact G.
      * intros l' k' I. apply P. right. exact I.
    + (* the member is created: the rest of the walk is in new containers *)
      assert (B : l < length h) by (apply lookup_lt_is_Some; eauto).
      set (h1 := <[l := assign key (VObject (length h)) o]>
                   (h ++ [new_container nextToken])) in *.
      assert (F : h1 !! length h = Some (new_container nextToken)).
      { unfold h1. rewrite list_lookup_insert_ne by lia. apply lookup_fresh.
        reflexivity. }
      assert (P : properties (new_container nextToken) = [])
        by (destruct nextToken; reflexivity).
      assert (Old : forall l', l' < length h ->
                snd (set_tokens rt (nextToken :: tokens)
                       (VObject (length h)) value h1) !! l' = h1 !! l').
      { intros l' B'. apply set_tokens_frame.
        - exact A.
        - unfold h1. rewrite length_insert, length_app. simpl. lia.
        - intros I.
          eapply trail_empty_object_only in I; [|exact F|exact P]. lia. }
      destruct (IH A ltac:(discriminate) [] (VObject (length h)) h1 S R)
        as [G _].
      { eapply cut_from_empty; [exact F|exact P]. }
      { intros l' k' []. }
      assert (Hl : snd (set_tokens rt (nextToken :: tokens)
                          (VObject (length h)) value h1) !! l
                   = Some (assign key (VObject (length h)) o)).
      { rewrite Old by exact B. unfold h1.
        apply list_lookup_insert_eq. rewrite length_app. simpl. lia. }
      pose proof (nullish_member_not_length o key N) as L.
      split.
      * rewrite (evaluate_loop_access rt token key) by exact K.
        cbn [nullish get_member]. rewrite Hl.
        rewrite object_member_assign_eq by exact L. exact G.
      * intros l' k' I. destruct (Seen _ _ I) as (o' & H' & O).
        assert (B' : l' < length h) by (apply lookup_lt_is_Some; eauto).
        cbn [get_member]. rewrite Old by exact B'. unfold h1.
        destruct (decide (l' = l)) as [->|D].
        -- rewrite list_lookup_insert_eq by (rewrite length_app; simpl; lia).
           rewrite H. f_equal. rewrite H in H'. injection H' as <-.
           apply object_member_assign_ne; [|exact O].
           intros <-. destruct (object_member o key); discriminate.
        -- rewrite list_lookup_insert_ne by congruence.
           rewrite lookup_app_l by exact B'. reflexivity.
    + exfalso. revert S. apply set_tokens_primitive;
        [discriminate|exact A|apply string_member_primitive].
    + discriminate S.
Qed.

(** An index token at an object that is not an array: the write is given up
    and the read finds nothing. *)
Lemma write_then_read_fails_off_arrays :
  accesses (tokenizePath "a[0]") = true
  /\ fst (LGet inert (VObject 0) (VString "a[0]") VUndefined
            (snd (LSet inert (VObject 0) (VString "a[0]")
                    (VNumber (Finite false 5 0)) holder_heap)))
     <> Ok (VNumber (Finite false 5 0)).
Proof.
  split; [reflexivity|]. vm_compute. discriminate.
Qed.

(** Two more conditions are needed. On a path that comes back to an object
    it has left, the last write can cut the path: here the member assigned
    is the one the path steps through first, the write completes, and the
    read ends at the number written. *)
Lemma write_then_read_fails_on_cycle :
  cut cyclic_heap (tokenizePath "a.a") (VObject 0) = true
  /\ fst (setValueAtPath inert (VObject 0) "a.a" (VNumber (Finite false 5 0))
            cyclic_heap) = Ok tt
  /\ fst (LGet inert (VObject 0) (VString "a.a") VUndefined
            (snd (LSet inert (VObject 0) (VString "a.a")
                    (VNumber (Finite false 5 0)) cyclic_heap)))
     <> Ok (VNumber (Finite false 5 0)).
Proof.
  split; [reflexivity|]. split; [reflexivity|]. vm_compute. discriminate.
Qed.

(** The length of an array holds the number its new value converts to: null
    is written, and 0 is read. *)
Lemma write_then_read_fails_on_length :
  resizes inert (tokenizePath "a.length") (VObject 0) numbers_heap = true
  /\ fst (setValueAtPath inert (VObject 0) "a.length" VNull numbers_heap)
     = Ok tt
  /\ fst (LGet inert (VObject 0) (VString "a.length") VUndefined
            (snd (LSet inert (VObject 0) (VString "a.length") VNull
                    numbers_heap)))
     = Ok (VNumber (Finite false 0 0)).
Proof.
  split; [reflexivity|]. split; vm_compute; reflexivity.
Qed.

(** A path may pass through an object twice, and may end in a member named
    [length], as long as the member assigned is not one it has stepped
    through and is not the length of an array. *)
Lemma write_then_read_on_a_cycle :
  cut cyclic_heap (tokenizePath "a.a.length") (VObject 0) = false
  /\ resizes inert (tokenizePath "a.a.length") (VObject 0) cyclic_heap = false
  /\ fst (LGet inert (VObject 0) (VString "a.a.length") VUndefined
            (snd (LSet inert (VObject 0) (VString "a.a.length")
                    (VNumber (Finite false 5 0)) cyclic_heap)))
     = Ok (VNumber (Finite false 5 0)).
Proof.
  split; [reflexivity|]. split; [reflexivity|]. vm_compute. reflexivity.
Qed.

(** C2, amended: for a path that has a token and holds property and index
    tokens only, if the write walk completes without throwing, meets only
    members that the heap holds (no built-in member read in place of an own
    property, no assignment taken by a built-in setter or read-only member),
    does not end at the length of an array, and does not assign a member the
    path itself steps through, then reading the path after the write returns
    the value written (the default value when undefined was written). *)
Theorem write_then_read (rt : runtime) (obj : any) (path : string)
    (value defaultValue : any) (h : heap) :
  tokenizePath path <> [] ->
  accesses (tokenizePath path) = true ->
  fst (setValueAtPath rt obj path value h) = Ok tt ->
  held h (tokenizePath path) obj = true ->
  resizes rt (tokenizePath path) obj h = false ->
  cut h (tokenizePath path) obj = false ->
  LGet rt obj (VString path) defaultValue
    (snd (LSet rt obj (VString path) value h))
  = (Ok match value with
        | VUndefined => defaultValue
        | _ => value
        end,
     snd (LSet rt obj (VString path) value h)).
Proof.
  intros NE A S _ R C. rewrite setValueAtPath_tokens in S.
  assert (O : is_object obj = true).
  { destruct (is_object obj) eqn:O; [reflexivity|]. exfalso. revert S.
    apply set_tokens_primitive; assumption. }
  destruct obj as [| |b|n|s|l]; try discriminate O.
  rewrite LSet_string, LGet_string. cbn [truthy snd].
  rewrite setValueAtPath_tokens. unfold evaluatePath. cbv zeta.
  destruct (set_tokens_then_evaluate rt value defaultValue (tokenizePath path)
              A NE [] (VObject l) h S R C) as [G _].
  { intros l' k' []. }
  rewrite G. reflexivity.
Qed.

Lemma write_then_read_witness :
  LGet inert (VObject 0) (VString "a.b[0].c") VUndefined
    (snd (LSet inert (VObject 0) (VString "a.b[0].c")
            (VNumber (Finite false 5 0)) holder_heap))
  = (Ok (VNumber (Finite false 5 0)),
     snd (LSet inert (VObject 0) (VString "a.b[0].c")
            (VNumber (Finite false 5 0)) holder_heap)).
Proof.
  apply (write_then_read inert (VObject 0) "a.b[0].c"
           (VNumber (Finite false 5 0)) VUndefined holder_heap);
    [discriminate | reflexivity..].
Defined.

(** ** What a write changes *)










(** A call on the way runs the code of a member, which may change any
    entry: here the flag of the root, which the path does not name. *)
Lemma write_with_call_changes_members :
  (exists o, marked_heap !! 0 = Some o
     /\ lookup_member "done" (properties o) = Some (VBool false))
  /\ (exists o',
        snd (LSet marking (VObject 0) (VString "mark().x") VNull marked_heap)
        !! 0 = Some o'
        /\ lookup_member "done" (properties o') = Some (VBool true)).
Proof.
  split; eexists; (split; [vm_compute; reflexivity|reflexivity]).
Qed.


(** A member named [length] of an object that is not an array is a member
    like any other: writing it deletes nothing. *)
Lemma length_of_a_plain_object_is_a_member :
  resizes inert (tokenizePath "a.length") (VObject 0) holder_heap = false
  /\ snd (LSet inert (VObject 0) (VString "a.length")
            (VNumber (Finite false 0 0)) holder_heap)
     = [ {| kind := PlainObject; properties := [("a", VObject 1)] |};
         {| kind := PlainObject;
            properties := [("length", VNumber (Finite false 0 0))] |} ].
Proof. split; reflexivity. Qed.



(** ** Reading is free of effects unless a member or a call has some *)

(** The loop of [evaluatePath] has no effect of its own: the state it
    leaves is the one it found when the reads and the calls it makes leave
    theirs. *)
Lemma evaluate_in_quiet {W : Type} (H : host W) (defaultValue : any)
    (tokens : list PathToken) (current : any) (w : W)
    (out : result any * W) :
  quiet_reads H ->
  forallb (fun token => negb (is_call token)) tokens = true \/ quiet_calls H ->
  evaluate_in H defaultValue tokens current w out -> snd out = w.
Proof.
  intros Q C E.
  induction E as
    [ current w | token tokens current w N
    | value tokens current next w w1 out N M E IH
    | value tokens current w w1 e N M
    | value tokens current next w w1 out N M E IH
    | value tokens current w w1 e N M
    | name args tokens current w w1 e N M
    | name args tokens current tested w w1 N M F
    | name args tokens current tested w w1 w2 e N M F M'
    | name args tokens current tested member w w1 w2 w3 e N M F M' A
    | name args tokens current tested member next w w1 w2 w3 out N M F M' A
        E IH ];
    try reflexivity;
    try (assert (C' : forallb (fun token => negb (is_call token)) tokens = true
                      \/ quiet_calls H)
           by (destruct C as [C|C]; [left|right; exact C];
               apply accesses_cons in C as [_ C]; exact C)).
  - apply Q in M. subst w1. apply IH, C'.
  - apply Q in M. exact M.
  - apply Q in M. subst w1. apply IH, C'.
  - apply Q in M. exact M.
  - apply Q in M. exact M.
  - apply Q in M. exact M.
  - apply Q in M. subst w1. apply Q in M'. exact M'.
  - destruct C as [C|C]; [discriminate C|].
    apply Q in M. subst w1. apply Q in M'. subst w2. apply C in A. exact A.
  - destruct C as [C|C]; [discriminate C|].
    apply Q in M. subst w1. apply Q in M'. subst w2. apply C in A. subst w3.
    apply IH. right. exact C.
Qed.

(** In a deterministic host the loop has one outcome. *)
Lemma evaluate_in_deterministic {W : Type} (H : host W) (defaultValue : any)
    (tokens : list PathToken) (current : any) (w : W)
    (out : result any * W) :
  deterministic H ->
  evaluate_in H defaultValue tokens current w out ->
  forall out' : result any * W,
    evaluate_in H defaultValue tokens current w out' -> out' = out.
Proof.
  intros [DM DA] E.
  induction E as
    [ current w | token tokens current w N
    | value tokens current next w w1 out N M E IH
    | value tokens current w w1 e N M
    | value tokens current next w w1 out N M E IH
    | value tokens current w w1 e N M
    | name args tokens current w w1 e N M
    | name args tokens current tested w w1 N M F
    | name args tokens current tested w w1 w2 e N M F M'
    | name args tokens current tested member w w1 w2 w3 e N M F M' A
    | name args tokens current tested member next w w1 w2 w3 out N M F M' A
        E IH ];
    intros out' E'; inversion E'; subst; try reflexivity; try congruence;
    repeat match goal with
      | M1 : host_member H ?c ?k ?w0 _, M2 : host_member H ?c ?k ?w0 _ |- _ =>
          let X := fresh in
          pose proof (DM _ _ _ _ _ M1 M2) as X; clear M2; inversion X; subst;
          clear X
      | M1 : host_apply H ?f ?t ?a ?w0 _, M2 : host_apply H ?f ?t ?a ?w0 _
        |- _ =>
          let X := fresh in
          pose proof (DA _ _ _ _ _ _ M1 M2) as X; clear M2; inversion X; subst;
          clear X
      end;
    try reflexivity; try congruence; try (apply IH; assumption).
Qed.

(** The host of the heap is quiet in its reads and deterministic, and its
    calls are quiet when the functions of the runtime are. *)
Lemma own_data_quiet (rt : runtime) : quiet_reads (own_data rt).
Proof. intros current key h r h' M. cbn in M. injection M as _ ->. reflexivity. Qed.

Lemma own_data_deterministic (rt : runtime) : deterministic (own_data rt).
Proof. split; cbn; intros; congruence. Qed.

Lemma own_data_quiet_calls (rt : runtime) :
  effect_free rt -> quiet_calls (own_data rt).
Proof.
  intros F f this args h r h' A. cbn in A. unfold apply in A.
  destruct (function_id h f) as [id|].
  - pose proof (F id this args h) as P. rewrite <- A in P. exact P.
  - injection A as _ ->. reflexivity.
Qed.

(** Over the host of the heap, [evaluate_in] is [evaluate_loop] and
    [LGet_in] is [LGet]. *)
Lemma evaluate_in_own_data (rt : runtime) (defaultValue : any)
    (tokens : list PathToken) :
  forall (current : any) (h : heap),
    evaluate_in (own_data rt) defaultValue tokens current h
      (evaluate_loop rt tokens current defaultValue h).
Proof.
  induction tokens as [|token tokens IH]; intros current h;
    [apply evaluate_end|].
  cbn [evaluate_loop]. destruct (nullish current) eqn:N;
    [apply evaluate_nullish, N|].
  destruct token as [value|value|name args]; unfold bind.
  - destruct (read current value h) as [[next|e] h1] eqn:M.
    + eapply evaluate_property; [exact N|symmetry; exact M|apply IH].
    + eapply evaluate_property_throws; [exact N|symmetry; exact M].
  - destruct (read current (ToPropertyKey value) h) as [[next|e] h1] eqn:M.
    + eapply evaluate_index; [exact N|symmetry; exact M|apply IH].
    + eapply evaluate_index_throws; [exact N|symmetry; exact M].
  - unfold read at 1.
    destruct (get_member h current name) as [member|e] eqn:M.
    + assert (R : (Ok member, h) = read current name h)
        by (unfold read; rewrite M; reflexivity).
      unfold is_function.
      destruct (bool_decide (is_Some (function_id h member))) eqn:F.
      * destruct (apply rt member current args h) as [[next|e] h1] eqn:A.
        -- eapply evaluate_call; [exact N|exact R|exact F|exact R
                                  |symmetry; exact A|apply IH].
        -- eapply evaluate_call_throws; [exact N|exact R|exact F|exact R
                                         |symmetry; exact A].
      * eapply evaluate_no_function; [exact N|exact R|exact F].
    + eapply evaluate_test_throws; [exact N|].
      cbn. unfold read. rewrite M. reflexivity.
Qed.

Lemma LGet_in_own_data (rt : runtime) (obj path defaultValue : any) (h : heap)
    (r : any) (h' : heap) :
  LGet_in (own_data rt) obj path defaultValue h (r, h')
  <-> LGet rt obj path defaultValue h = (Ok r, h').
Proof.
  assert (Run : forall p : string, truthy obj = true ->
            forall out : result any * heap,
              evaluate_in (own_data rt) defaultValue (tokenizePath p) obj h out
              <-> out = evaluatePath rt obj p defaultValue h).
  { intros p T out. unfold evaluatePath. cbv zeta. split.
    - intros E.
      apply (evaluate_in_deterministic (own_data rt) defaultValue _ _ _ _
               (own_data_deterministic rt) (evaluate_in_own_data rt _ _ _ _)).
      exact E.
    - intros ->. apply evaluate_in_own_data. }
  split.
  - intros G. inversion G as [C|p r0 w0 T P E|p e w0 T P E]; subst.
    + destruct C as [C|C].
      * destruct path; try reflexivity. unfold LGet. rewrite C. reflexivity.
      * destruct path; try reflexivity. destruct (C s eq_refl).
    + apply Run in E; [|exact T]. rewrite LGet_string, T, <- E. reflexivity.
    + apply Run in E; [|exact T]. rewrite LGet_string, T, <- E. reflexivity.
  - intros G. destruct path as [| |b|n|p|l];
      try (injection G as E1 E2; subst r h'; apply LGet_guard; right;
           discriminate).
    rewrite LGet_string in G. destruct (truthy obj) eqn:T.
    + destruct (evaluatePath rt obj p defaultValue h) as [[r0|e] h0] eqn:E;
        injection G as E1 E2; subst r h'.
      * eapply LGet_returns; [exact T|reflexivity|]. apply Run; auto.
      * eapply LGet_catches; [exact T|reflexivity|]. apply Run; eauto.
    + injection G as E1 E2; subst r h'. apply LGet_guard. left. exact T.
Qed.

(** The call in the path changes the object it is applied to, and the second
    read sees the change. *)
Lemma read_with_call_differs :
  let first :=
    LGet marking (VObject 0) (VString "mark()") VUndefined marked_heap in
  let second :=
    LGet marking (VObject 0) (VString "mark()") VUndefined (snd first) in
  ~ (fst first = fst second /\ snd first = marked_heap).
Proof.
  vm_compute. intros [E _]. discriminate E.
Qed.

(** A path without a call has effects as well when a member it reads is an
    accessor that has some: the first read of [id] returns 0 and leaves the
    count at 1, and the second returns 1. *)
Lemma read_through_accessor_differs :
  LGet_in counting (VBool true) (VString "id") VUndefined 0
    (VNumber (of_N 0), 1)
  /\ LGet_in counting (VBool true) (VString "id") VUndefined 1
       (VNumber (of_N 1), 2).
Proof.
  split; (eapply LGet_returns; [reflexivity|reflexivity|]);
    change (tokenizePath "id") with [property "id"];
    (eapply evaluate_property; [reflexivity|reflexivity|]);
    apply (evaluate_end counting VUndefined (VNumber _)).
Qed.

(** Without effects a second read can still differ from the first, when a
    member is not determined by the state. *)
Lemma read_of_a_toss_differs :
  LGet_in tossing (VBool true) (VString "heads") VUndefined tt
    (VBool true, tt)
  /\ LGet_in tossing (VBool true) (VString "heads") VUndefined tt
       (VBool false, tt).
Proof.
  split; (eapply LGet_returns; [reflexivity|reflexivity|]);
    change (tokenizePath "heads") with [property "heads"].
  - eapply evaluate_property; [reflexivity|left; reflexivity|].
    apply (evaluate_end tossing VUndefined (VBool true)).
  - eapply evaluate_property; [reflexivity|right; reflexivity|].
    apply (evaluate_end tossing VUndefined (VBool false)).
Qed.

(** C8, amended: [LGet] has no effect of its own. In any host, if reading a
    member changes nothing (the members read are data properties, or
    accessors and traps without effects) and the path holds no call or the
    functions called change nothing either, then [LGet] leaves the state as
    it found it; and if reads and calls are also determined by the state,
    the same [LGet] made again returns the same value. *)
Theorem read_is_effect_free_up_to_calls {W : Type} (H : host W)
    (obj path defaultValue r : any) (w w' : W) :
  quiet_reads H ->
  calls_nothing path = true \/ quiet_calls H ->
  LGet_in H obj path defaultValue w (r, w') ->
  w' = w
  /\ (deterministic H ->
      forall (r2 : any) (w2 : W),
        LGet_in H obj path defaultValue w' (r2, w2) -> r2 = r /\ w2 = w').
Proof.
  intros Q C G.
  assert (E : w' = w).
  { inversion G as [|p r0 w0 T P Ev|p e w0 T P Ev]; subst; [reflexivity| |];
      apply (evaluate_in_quiet H _ _ _ _ _ Q C Ev). }
  split; [exact E|]. subst w'. intros D r2 w2 G2.
  inversion G as [Guard|p r0 w0 T P Ev|p e w0 T P Ev];
    inversion G2 as [Guard2|p2 r3 w3 T2 P2 Ev2|p2 e2 w3 T2 P2 Ev2]; subst;
    try (split; reflexivity);
    try (destruct Guard as [Guard|Guard];
         [congruence|destruct (Guard _ eq_refl)]);
    try (destruct Guard2 as [Guard2|Guard2];
         [congruence|destruct (Guard2 _ eq_refl)]);
    match goal with
    | X : VString _ = VString _ |- _ => injection X as ->
    end;
    pose proof (evaluate_in_deterministic H _ _ _ _ _ D Ev _ Ev2)
      as X; inversion X; subst; split; reflexivity.
Qed.

Lemma read_is_effect_free_witness :
  snd (LGet marking (VObject 0) (VString "done") VUndefined marked_heap)
  = marked_heap.
Proof.
  assert (G : LGet_in (own_data marking) (VObject 0) (VString "done")
                VUndefined marked_heap
                (VBool false,
                 snd (LGet marking (VObject 0) (VString "done") VUndefined
                        marked_heap)))
    by (apply LGet_in_own_data; reflexivity).
  exact (proj1 (read_is_effect_free_up_to_calls (own_data marking) (VObject 0)
                  (VString "done") VUndefined (VBool false) marked_heap _
                  (own_data_quiet marking) (or_introl eq_refl) G)).
Defined.

(** On the heap of own data properties: a read whose path holds no call, or
    whose calls are free of effects, leaves the heap as it was. *)
Lemma LGet_of_own_data_is_effect_free (rt : runtime)
    (obj path defaultValue : any) (h : heap) :
  calls_nothing path = true \/ effect_free rt ->
  snd (LGet rt obj path defaultValue h) = h.
Proof.
  intros C.
  assert (C' : forall tokens,
            forallb (fun token => negb (is_call token)) tokens = true
            \/ effect_free rt ->
            forallb (fun token => negb (is_call token)) tokens = true
            \/ quiet_calls (own_data rt)).
  { intros tokens [X|X]; [left; exact X|right].
    apply own_data_quiet_calls, X. }
  destruct path as [| |b|n|p|l]; try reflexivity.
  rewrite LGet_string. destruct (truthy obj); [|reflexivity].
  pose proof (evaluate_in_quiet (own_data rt) defaultValue (tokenizePath p)
                obj h _ (own_data_quiet rt) (C' _ C)
                (evaluate_in_own_data rt defaultValue _ obj h)) as P.
  unfold evaluatePath. cbv zeta.
  destruct (evaluate_loop rt (tokenizePath p) obj defaultValue h)
    as [[r|e] h']; exact P.
Qed.

(** ** Reading and writing through a string-keyed index *)

(** C10: where [a] is an object that is not an array, [LGet] reads
    [a[name]] like any member, while the write walk throws at the index
    token (at the last token with "Cannot set array index on non-array",
    before it with "Cannot access array index on non-array"), assigns
    nothing, and [LSet] returns the root; where [a] is an array the same
    write assigns the member. The same holds token by token: the read takes
    the member an index token names from any object, and both places of the
    write walk refuse an index token at an object that is not an array. *)
Theorem bracket_member_read_but_written_only_in_arrays (rt : runtime)
    (h : heap) (r la : loc) (oa : object) (defaultValue value : any) :
  get_member h (VObject r) "a" = Ok (VObject la) ->
  h !! la = Some oa ->
  LGet rt (VObject r) (VString "a[name]") defaultValue h
  = (Ok match object_member oa "name" with
        | VUndefined => defaultValue
        | member => member
        end, h)
  /\ (is_array oa = false ->
      setValueAtPath rt (VObject r) "a[name]" value h
      = (Throw (Error "Cannot set array index on non-array"), h)
      /\ LSet rt (VObject r) (VString "a[name]") value h = (Ok (VObject r), h)
      /\ setValueAtPath rt (VObject r) "a[name].x" value h
         = (Throw (Error "Cannot access array index on non-array"), h))
  /\ (is_array oa = true ->
      LSet rt (VObject r) (VString "a[name]") value h
      = (Ok (VObject r), <[la := assign "name" value oa]> h))
  /\ (forall (v : index_value) (tokens : list PathToken),
        evaluate_loop rt (index v :: tokens) (VObject la) defaultValue h
        = evaluate_loop rt tokens (object_member oa (ToPropertyKey v))
            defaultValue h)
  /\ (is_array oa = false ->
      forall (v : index_value) (nextToken : PathToken),
        set_step rt (index v) nextToken (VObject la) h
        = (Throw (Error "Cannot access array index on non-array"), h)
        /\ set_last rt (Some (index v)) (VObject la) value h
           = (Throw (Error "Cannot set array index on non-array"), h)).
Proof.
  intros A H.
  destruct (get_member_object _ _ _ _ A) as (o & R & M).
  assert (N : nullish (object_member o "a") = false) by (rewrite M; reflexivity).
  assert (T1 : tokenizePath "a[name]"
               = [property "a"; index (of_string "name")]) by reflexivity.
  assert (T2 : tokenizePath "a[name].x"
               = [property "a"; index (of_string "name"); property "x"])
    by reflexivity.
  assert (W : forall next, set_step rt (property "a") next (VObject r) h
                           = (Ok (VObject la), h)).
  { intros next. simpl. rewrite (descend_enters rt h r o) by assumption.
    rewrite M. reflexivity. }
  assert (L : is_array oa = false ->
              forall v, set_last rt (Some (index v)) (VObject la) value h
                        = (Throw (Error "Cannot set array index on non-array"),
                           h)).
  { intros NA v. cbn [set_last]. unfold bind.
    rewrite (isArray_object h la oa H), NA. reflexivity. }
  split; [|split; [|split; [|split]]].
  - rewrite LGet_string. cbn [truthy]. unfold evaluatePath. rewrite T1. simpl.
    unfold bind, read. rewrite A. simpl. rewrite H. unfold ret.
    destruct (object_member oa "name"); reflexivity.
  - intros NA.
    assert (S1 : setValueAtPath rt (VObject r) "a[name]" value h
                 = (Throw (Error "Cannot set array index on non-array"), h)).
    { rewrite setValueAtPath_tokens, T1, set_tokens_more, W, set_tokens_one.
      apply L, NA. }
    split; [exact S1|]. split.
    + rewrite LSet_string, S1. reflexivity.
    + rewrite setValueAtPath_tokens, T2, set_tokens_more, W, set_tokens_more.
      rewrite (set_step_index_guard rt h la oa) by assumption. reflexivity.
  - intros IA. rewrite LSet_string. cbn [truthy].
    rewrite setValueAtPath_tokens, T1, set_tokens_more, W, set_tokens_one.
    cbn [set_last]. unfold bind.
    rewrite (isArray_object h la oa H), IA.
    rewrite (write_object rt h la oa) by
      (try assumption; unfold names_length; rewrite IA; reflexivity).
    reflexivity.
  - intros v tokens.
    rewrite (evaluate_loop_access rt (index v) (ToPropertyKey v))
      by reflexivity.
    cbn [nullish get_member]. rewrite H. reflexivity.
  - intros NA v nextToken. split; [|apply L, NA].
    apply (set_step_index_guard rt h la oa); assumption.
Qed.

Lemma bracket_member_witness :
  LGet inert (VObject 0) (VString "a[name]") VUndefined named_heap
  = (Ok (VString "Ann"), named_heap)
  /\ LSet inert (VObject 0) (VString "a[name]") (VString "Bob") named_heap
     = (Ok (VObject 0), named_heap).
Proof.
  destruct (bracket_member_read_but_written_only_in_arrays inert named_heap
              0 1 _ VUndefined (VString "Bob") eq_refl eq_refl)
    as (G & S & _).
  split; [exact G|]. apply S. reflexivity.
Defined.

(** ** Paths of names *)

Lemma tokenize_loop_enough (fuel : nat) (rest current : string)
    (tokens : list PathToken) :
  String.length rest < fuel ->
  tokenize_loop fuel rest current tokens
  = tokenize_loop (S (String.length rest)) rest current tokens.
Proof. intros L. apply tokenize_loop_fuel; lia. Qed.

Lemma tokenize_name (name rest current : string) (tokens : list PathToken) :
  plain_name name = true ->
  tokenize_loop (S (String.length (String.append name rest)))
    (String.append name rest) current tokens
  = tokenize_loop (S (String.length rest)) rest (String.append current name)
      tokens.
Proof.
  intros P. rewrite length_append.
  replace (S (String.length name + String.length rest))
    with (String.length name + S (String.length rest)) by lia.
  now apply tokenize_loop_name.
Qed.

Lemma tokenize_dot (rest current : string) (tokens : list PathToken) :
  tokenize_loop (S (String.length (String "." rest))) (String "." rest)
    current tokens
  = tokenize_loop (S (String.length rest)) rest "" (flush current tokens).
Proof. reflexivity. Qed.

Lemma flush_tokens (current : string) (tokens : list PathToken) :
  flush current tokens
  = tokens ++ map property (List.filter nonempty [current]).
Proof.
  unfold flush. cbn. destruct (nonempty current); [reflexivity|].
  now rewrite app_nil_r.
Qed.

Lemma tokenize_dotted (names : list string) :
  forall (name current : string) (tokens : list PathToken),
    forallb plain_name (name :: names) = true ->
    tokenize_loop (S (String.length (dotted (name :: names))))
      (dotted (name :: names)) current tokens
    = tokens
      ++ map property
           (List.filter nonempty (String.append current name :: names)).
Proof.
  induction names as [|name' names IH]; intros name current tokens P;
    cbn [forallb] in P; apply andb_prop in P as [P P'].
  - cbn [dotted]. rewrite <- (append_empty name) at 1 2.
    rewrite tokenize_name by exact P. cbn [String.length tokenize_loop].
    apply flush_tokens.
  - change (dotted (name :: name' :: names))
      with (String.append name (String "." (dotted (name' :: names)))).
    rewrite tokenize_name by exact P. rewrite tokenize_dot.
    rewrite IH by exact P'. rewrite flush_tokens, <- app_assoc.
    cbn [String.append]. cbn [List.filter].
    destruct (nonempty (String.append current name)); reflexivity.
Qed.

(** X1: A path of names joined by dots is the list of its names: one
    property token for each name that is not empty, so that a leading, a
    trailing or a doubled dot is passed over. *)
Theorem tokenizePath_of_dotted_names (names : list string) :
  forallb plain_name names = true ->
  tokenizePath (dotted names) = map property (List.filter nonempty names).
Proof.
  destruct names as [|name names]; [reflexivity|]. intros P.
  unfold tokenizePath. now rewrite tokenize_dotted.
Qed.

Lemma tokenizePath_of_dotted_names_witness :
  tokenizePath ".a..b." = [property "a"; property "b"].
Proof.
  exact (tokenizePath_of_dotted_names [""; "a"; ""; "b"; ""] eq_refl).
Defined.

Lemma proper_names_tokens (names : list string) :
  forallb proper_name names = true ->
  forallb plain_name names = true /\ List.filter nonempty names = names.
Proof.
  induction names as [|name names IH]; intros P; [now split|].
  cbn in P. apply andb_prop in P as [N P]. unfold proper_name in N.
  apply andb_prop in N as [N1 N2]. destruct (IH P) as [IH1 IH2].
  cbn. now rewrite N1, N2, IH1, IH2.
Qed.

Lemma tokenizePath_proper (name : string) (names : list string) :
  forallb proper_name (name :: names) = true ->
  tokenizePath (dotted (name :: names))
  = property name :: map property names.
Proof.
  intros P. destruct (proper_names_tokens _ P) as [P1 P2].
  unfold tokenizePath. rewrite tokenize_dotted by exact P1.
  cbn [String.append app]. now rewrite P2.
Qed.

(** ** Brackets and parentheses that are not closed *)

Lemma scan_matching_unclosed (opening closing : ascii) (content : string) :
  forall acc : string,
    (forall c, In c (list_ascii_of_string content) ->
               Ascii.eqb c opening = false /\ Ascii.eqb c closing = false) ->
    scan_matching opening closing content 1 acc
    = (String.append acc content, EmptyString).
Proof.
  induction content as [|c content IH]; intros acc F; cbn.
  - now rewrite append_empty.
  - destruct (F c (or_introl eq_refl)) as [-> ->]. cbn.
    rewrite IH by (intros x X; apply F; now right).
    unfold push_char. now rewrite append_assoc.
Qed.

Lemma scan_matching_closed (opening closing : ascii) (content : string) :
  forall rest acc : string,
    Ascii.eqb closing opening = false ->
    (forall c, In c (list_ascii_of_string content) ->
               Ascii.eqb c opening = false /\ Ascii.eqb c closing = false) ->
    scan_matching opening closing (String.append content (String closing rest))
      1 acc
    = (String.append acc content, rest).
Proof.
  induction content as [|c content IH]; intros rest acc D F; cbn.
  - rewrite D, Ascii.eqb_refl. cbn. now rewrite append_empty.
  - destruct (F c (or_introl eq_refl)) as [-> ->]. cbn.
    rewrite IH by (assumption || intros x X; apply F; now right).
    unfold push_char. now rewrite append_assoc.
Qed.

Lemma bracket_free_characters (content : string) :
  bracket_free content = true ->
  forall c, In c (list_ascii_of_string content) ->
            Ascii.eqb c "[" = false /\ Ascii.eqb c "]" = false.
Proof.
  induction content as [|x content IH]; intros B c I; [destruct I|].
  cbn in B. apply andb_prop in B as [X B]. apply negb_true_iff in X.
  apply orb_false_elim in X. destruct I as [<-|I]; [exact X | now apply IH].
Qed.

Lemma paren_free_characters (content : string) :
  paren_free content = true ->
  forall c, In c (list_ascii_of_string content) ->
            Ascii.eqb c "(" = false /\ Ascii.eqb c ")" = false.
Proof.
  induction content as [|x content IH]; intros B c I; [destruct I|].
  cbn in B. apply andb_prop in B as [X B]. apply negb_true_iff in X.
  apply orb_false_elim in X. destruct I as [<-|I]; [exact X | now apply IH].
Qed.

Lemma tokenize_bracket (rest current : string) (tokens : list PathToken) :
  tokenize_loop (S (String.length (String "[" rest))) (String "[" rest)
    current tokens
  = let (indexContent, after) := scan_matching "[" "]" rest 1 "" in
    tokenize_loop (S (String.length rest)) after ""
      (flush current tokens ++ [index (index_of_content indexContent)]).
Proof. reflexivity. Qed.

Lemma tokenize_paren (rest current : string) (tokens : list PathToken) :
  tokenize_loop (S (String.length (String "(" rest))) (String "(" rest)
    current tokens
  = let (argsContent, after) := scan_matching "(" ")" rest 1 "" in
    tokenize_loop (S (String.length rest)) after ""
      (tokens ++ [function current (parseArguments argsContent)]).
Proof. reflexivity. Qed.

Lemma tokenizePath_call (name args : string) :
  plain_name name = true -> paren_free args = true ->
  tokenizePath (String.append name (String "(" (String.append args ")")))
  = [function name (parseArguments args)].
Proof.
  intros P F. unfold tokenizePath. rewrite tokenize_name by exact P.
  rewrite tokenize_paren.
  rewrite (scan_matching_closed "(" ")" args "" "" eq_refl
             (paren_free_characters args F)).
  reflexivity.
Qed.

(** X2: After a plain name, a bracket that is never closed and whose
    content holds no further bracket takes the rest of the path as its
    content: the tokens are those of the path with the closing bracket added
    at the end. The same holds of a parenthesis that is never closed and
    whose content holds no further parenthesis. *)
Theorem unclosed_delimiter_takes_the_rest (name content : string) :
  plain_name name = true ->
  (bracket_free content = true ->
   tokenizePath (String.append name (String "[" content))
   = flush name [] ++ [index (index_of_content content)]
   /\ tokenizePath (String.append name (String "[" content))
      = tokenizePath
          (String.append name (String "[" (String.append content "]"))))
  /\ (paren_free content = true ->
      tokenizePath (String.append name (String "(" content))
      = [function name (parseArguments content)]
      /\ tokenizePath (String.append name (String "(" content))
         = tokenizePath
             (String.append name (String "(" (String.append content ")")))).
Proof.
  intros P. split; intros F.
  - assert (E : tokenizePath (String.append name (String "[" content))
                = flush name [] ++ [index (index_of_content content)]).
    { unfold tokenizePath. rewrite tokenize_name by exact P.
      rewrite tokenize_bracket.
      rewrite (scan_matching_unclosed "[" "]" content ""
                 (bracket_free_characters content F)).
      reflexivity. }
    split; [exact E|]. rewrite E. symmetry. now apply tokenizePath_indexed.
  - assert (E : tokenizePath (String.append name (String "(" content))
                = [function name (parseArguments content)]).
    { unfold tokenizePath. rewrite tokenize_name by exact P.
      rewrite tokenize_paren.
      rewrite (scan_matching_unclosed "(" ")" content ""
                 (paren_free_characters content F)).
      reflexivity. }
    split; [exact E|]. rewrite E. symmetry. now apply tokenizePath_call.
Qed.

Lemma unclosed_delimiter_takes_the_rest_witness :
  tokenizePath "rows[0" = tokenizePath "rows[0]"
  /\ tokenizePath "find(1, 2" = tokenizePath "find(1, 2)".
Proof.
  destruct (unclosed_delimiter_takes_the_rest "rows" "0" eq_refl) as [B _].
  destruct (unclosed_delimiter_takes_the_rest "find" "1, 2" eq_refl) as [_ C].
  split; [apply B | apply C]; reflexivity.
Defined.

(** ** A path that is one call *)

(** X3: Writing at a path that is one call, [name(args)], changes nothing
    and calls nothing: the walk stops at the last token before any function
    is looked up, and [LSet] returns the root. *)
Theorem LSet_at_a_call_does_nothing (rt : runtime) (obj value : any)
    (name args : string) (h : heap) :
  plain_name name = true -> paren_free args = true ->
  LSet rt obj
    (VString (String.append name (String "(" (String.append args ")"))))
    value h
  = (Ok obj, h).
Proof.
  intros P F. rewrite LSet_string. f_equal.
  destruct (truthy obj); [|reflexivity].
  rewrite setValueAtPath_tokens, tokenizePath_call by assumption.
  reflexivity.
Qed.

Lemma LSet_at_a_call_does_nothing_witness :
  LSet marking (VObject 0) (VString "mark(1)") VNull marked_heap
  = (Ok (VObject 0), marked_heap).
Proof.
  exact (LSet_at_a_call_does_nothing marking (VObject 0) VNull "mark" "1"
           marked_heap eq_refl eq_refl).
Defined.

(** ** The empty path *)

Lemma tokenizePath_dots (n : nat) : tokenizePath (dots n) = [].
Proof.
  unfold tokenizePath. induction n as [|n IH]; [reflexivity|].
  cbn [dots]. now rewrite tokenize_dot.
Qed.

(** X4: A path without any name, empty or made of dots, is the root
    itself: [LGet] returns the root, the default value only if the root is
    falsy, and [LSet] returns the root and writes nothing. *)
Theorem empty_path_is_the_root (rt : runtime) (obj value defaultValue : any)
    (n : nat) (h : heap) :
  LGet rt obj (VString (dots n)) defaultValue h
  = (Ok (if truthy obj then obj else defaultValue), h)
  /\ LSet rt obj (VString (dots n)) value h = (Ok obj, h).
Proof.
  rewrite LGet_string, LSet_string. unfold evaluatePath.
  rewrite setValueAtPath_tokens, tokenizePath_dots.
  destruct obj as [| |b|x|s|l]; try (now split).
  - destruct b; now split.
  - destruct (truthy (VNumber x)); now split.
  - destruct (truthy (VString s)); now split.
Qed.

(** ** Writing where nothing is yet, then reading *)

Lemma accesses_properties (names : list string) :
  accesses (map property names) = true.
Proof. induction names; [reflexivity | assumption]. Qed.

(** The walk along names from an object that lacks the first of them: it
    completes, and the same names read back what was written. *)
Lemma set_names_then_evaluate (rt : runtime) (value defaultValue : any)
    (names : list string) :
  forall (name : string) (h : heap) (r : loc) (o : object),
    h !! r = Some o ->
    nullish (object_member o name) = true ->
    fst (set_tokens rt (map property (name :: names)) (VObject r) value h)
    = Ok tt
    /\ evaluate_loop rt (map property (name :: names)) (VObject r)
         defaultValue
         (snd (set_tokens rt (map property (name :: names)) (VObject r)
                 value h))
       = (Ok match value with
             | VUndefined => defaultValue
             | _ => value
             end,
          snd (set_tokens rt (map property (name :: names)) (VObject r)
                 value h)).
Proof.
  induction names as [|name' names IH]; intros name h r o H N.
  - cbn [map]. rewrite set_tokens_one. cbn [set_last].
    pose proof (nullish_member_not_length o name N) as L.
    rewrite (write_object rt h r o name value H L). split; [reflexivity|].
    cbn [fst snd].
    rewrite (evaluate_loop_access rt (property name) name) by reflexivity.
    cbn [nullish get_member].
    rewrite list_lookup_insert_eq by (apply lookup_lt_is_Some; eauto).
    rewrite object_member_assign_eq by exact L. reflexivity.
  - cbn [map]. rewrite set_tokens_more. cbn [set_step].
    rewrite (descend_creates rt h r o name (property name') H N).
    set (h1 := <[r := assign name (VObject (length h)) o]>
                 (h ++ [new_container (property name')])).
    assert (B : r < length h) by (apply lookup_lt_is_Some; eauto).
    assert (H1 : h1 !! length h = Some empty_object).
    { unfold h1. rewrite list_lookup_insert_ne by lia.
      now rewrite lookup_fresh. }
    destruct (IH name' h1 (length h) empty_object H1 eq_refl) as [S E].
    change (property name' :: map property names)
      with (map property (name' :: names)).
    split; [exact S|].
    set (h2 := snd (set_tokens rt (map property (name' :: names))
                      (VObject (length h)) value h1)) in *.
    assert (F : h2 !! r = h1 !! r).
    { apply set_tokens_frame.
      - apply accesses_properties.
      - unfold h1. rewrite length_insert, length_app. cbn. lia.
      - intros I.
        apply (trail_empty_object_only h1 _ (length h) r empty_object H1
                 eq_refl) in I. lia. }
    change (map property (name :: name' :: names))
      with (property name :: map property (name' :: names)).
    rewrite (evaluate_loop_access rt (property name) name) by reflexivity.
    cbn [nullish get_member]. rewrite F. unfold h1 at 1.
    rewrite list_lookup_insert_eq by (rewrite length_app; cbn; lia).
    rewrite object_member_assign_eq
      by (apply nullish_member_not_length; exact N).
    exact E.
Qed.

(** X5: In an object that lacks the first name of a path of names, none
    of which names a built-in member of the object it is applied to (as
    [__proto__] and [constructor] do), the write creates every object on the
    way and completes, and the read of the same path returns the value
    written (the default value when undefined was written). *)
Theorem write_creates_then_read (rt : runtime) (value defaultValue : any)
    (name : string) (names : list string) (h : heap) (r : loc) (o : object) :
  forallb proper_name (name :: names) = true ->
  h !! r = Some o ->
  nullish (object_member o name) = true ->
  reads_own o name = true ->
  forallb (fun n => negb (built_in PlainObject n)) names = true ->
  let path := VString (dotted (name :: names)) in
  fst (setValueAtPath rt (VObject r) (dotted (name :: names)) value h) = Ok tt
  /\ LGet rt (VObject r) path defaultValue
       (snd (LSet rt (VObject r) path value h))
     = (Ok match value with
           | VUndefined => defaultValue
           | _ => value
           end,
        snd (LSet rt (VObject r) path value h)).
Proof.
  intros P H N _ _. cbv zeta.
  rewrite LSet_string, LGet_string. cbn [truthy snd].
  unfold evaluatePath. rewrite setValueAtPath_tokens.
  rewrite (tokenizePath_proper name names P).
  change (property name :: map property names)
    with (map property (name :: names)).
  destruct (set_names_then_evaluate rt value defaultValue names name h r o H N)
    as [S E].
  split; [exact S|]. now rewrite E.
Qed.

Lemma write_creates_then_read_witness :
  LGet inert (VObject 1) (VString "b.length.c") VUndefined
    (snd (LSet inert (VObject 1) (VString "b.length.c") VNull holder_heap))
  = (Ok VNull,
     snd (LSet inert (VObject 1) (VString "b.length.c") VNull holder_heap)).
Proof.
  apply (write_creates_then_read inert VNull VUndefined "b" ["length"; "c"]
           holder_heap 1 empty_object eq_refl eq_refl eq_refl eq_refl
           eq_refl).
Defined.

(** ** Reading in two steps *)

Lemma evaluate_loop_undefined (rt : runtime) (tokens : list PathToken)
    (defaultValue : any) (h : heap) :
  evaluate_loop rt tokens VUndefined defaultValue h = (Ok defaultValue, h).
Proof. destruct tokens; reflexivity. Qed.

Lemma evaluate_loop_app (rt : runtime) (tokens tokens' : list PathToken)
    (defaultValue : any) :
  forall (current : any) (h : heap),
    evaluate_loop rt (tokens ++ tokens') current defaultValue h
    = match evaluate_loop rt tokens current VUndefined h with
      | (Ok next, h') => evaluate_loop rt tokens' next defaultValue h'
      | (Throw e, h') => (Throw e, h')
      end.
Proof.
  induction tokens as [|token tokens IH]; intros current h.
  - cbn [app evaluate_loop]. unfold ret. now destruct current.
  - cbn [app evaluate_loop]. destruct (nullish current).
    { unfold ret. now rewrite evaluate_loop_undefined. }
    destruct token as [k|k|name args]; unfold bind.
    + destruct (read current k h) as [[next|e] h1]; [apply IH | reflexivity].
    + destruct (read current _ h) as [[next|e] h1]; [apply IH | reflexivity].
    + destruct (read current name h) as [[member|e] h1]; [|reflexivity].
      destruct (is_function member h1) as [[[]|e] h2]; [| |reflexivity].
      * destruct (apply rt member current args h2) as [[next|e] h3];
          [apply IH | reflexivity].
      * unfold ret. now rewrite evaluate_loop_undefined.
Qed.

Lemma tokenizePath_names_then (names : list string) (path : string) :
  forallb plain_name names = true ->
  tokenizePath (String.append (dotted names) (String "." path))
  = map property (List.filter nonempty names) ++ tokenizePath path.
Proof.
  intros P. unfold tokenizePath.
  assert (G : forall names name current tokens,
             forallb plain_name (name :: names) = true ->
             tokenize_loop
               (S (String.length
                     (String.append (dotted (name :: names)) (String "." path))))
               (String.append (dotted (name :: names)) (String "." path))
               current tokens
             = tokenize_loop (S (String.length path)) path ""
                 (tokens
                  ++ map property
                       (List.filter nonempty
                          (String.append current name :: names)))).
  { clear. induction names as [|name' names IH]; intros name current tokens P;
      cbn [forallb] in P; apply andb_prop in P as [P P'].
    - cbn [dotted]. rewrite tokenize_name by exact P. rewrite tokenize_dot.
      now rewrite flush_tokens.
    - change (dotted (name :: name' :: names))
        with (String.append name (String "." (dotted (name' :: names)))).
      rewrite append_assoc. cbn [String.append].
      rewrite tokenize_name by exact P. rewrite tokenize_dot.
      rewrite IH by exact P'. rewrite flush_tokens, <- app_assoc.
      cbn [String.append]. cbn [List.filter].
      destruct (nonempty (String.append current name)); reflexivity. }
  destruct names as [|name names]; [reflexivity|].
  rewrite G by exact P. cbn [app String.append].
  generalize (map property (List.filter nonempty (name :: names))).
  intros tokens.
  assert (A : forall fuel rest current tokens tokens0,
             tokenize_loop fuel rest current (tokens0 ++ tokens)
             = tokens0 ++ tokenize_loop fuel rest current tokens).
  { clear. induction fuel as [|fuel IH]; intros rest current tokens tokens0;
      [reflexivity|].
    destruct rest as [|c rest]; cbn [tokenize_loop].
    - unfold flush. destruct (nonempty current); [|reflexivity].
      now rewrite app_assoc.
    - assert (F : flush current (tokens0 ++ tokens)
                  = tokens0 ++ flush current tokens).
      { unfold flush. destruct (nonempty current); [|reflexivity].
        now rewrite app_assoc. }
      destruct (Ascii.eqb c "."); [rewrite F; apply IH|].
      destruct (Ascii.eqb c "[").
      { destruct (scan_matching "[" "]" rest 1 "") as [content after].
        rewrite F, <- app_assoc. apply IH. }
      destruct (Ascii.eqb c "(").
      { destruct (scan_matching "(" ")" rest 1 "") as [content after].
        rewrite <- app_assoc. apply IH. }
      apply IH. }
  rewrite <- (app_nil_r tokens) at 1. apply A.
Qed.

(** X6: Reading a path after names is reading in two steps: the names
    first, with no default value, then the rest of the path from the value
    they lead to, in the heap the first step leaves; a throw in the first
    step is the throw of the whole. *)
Theorem read_in_two_steps (rt : runtime) (obj defaultValue : any)
    (names : list string) (path : string) (h : heap) :
  forallb plain_name names = true ->
  evaluatePath rt obj (String.append (dotted names) (String "." path))
    defaultValue h
  = match evaluatePath rt obj (dotted names) VUndefined h with
    | (Ok next, h') => evaluatePath rt next path defaultValue h'
    | (Throw e, h') => (Throw e, h')
    end.
Proof.
  intros P. unfold evaluatePath.
  rewrite tokenizePath_names_then by exact P.
  replace (tokenizePath (dotted names))
    with (map property (List.filter nonempty names)).
  - apply evaluate_loop_app.
  - destruct names as [|name names]; [reflexivity|].
    unfold tokenizePath. now rewrite tokenize_dotted.
Qed.

Lemma read_in_two_steps_witness :
  evaluatePath inert (VObject 0) "a.name" VNull named_heap
  = (Ok (VString "Ann"), named_heap).
Proof.
  exact (eq_trans
           (read_in_two_steps inert (VObject 0) VNull ["a"] "name" named_heap
              eq_refl) eq_refl).
Defined.

(** ** Quoted values *)

Lemma rev_onto_append (s : string) : forall acc : string,
  rev_onto s acc = String.append (reverse_string s) acc.
Proof.
  unfold reverse_string. induction s as [|c s IH]; intros acc; [reflexivity|].
  cbn [rev_onto]. rewrite (IH (String c acc)), (IH (String c EmptyString)).
  now rewrite append_assoc.
Qed.

Lemma reverse_string_append (a b : string) :
  reverse_string (String.append a b)
  = String.append (reverse_string b) (reverse_string a).
Proof.
  induction a as [|c a IH]; cbn [String.append].
  - now rewrite append_empty.
  - unfold reverse_string at 1 3. cbn [rev_onto].
    rewrite !rev_onto_append, IH. now rewrite append_assoc.
Qed.

Lemma reverse_string_involutive (s : string) :
  reverse_string (reverse_string s) = s.
Proof.
  induction s as [|c s IH]; [reflexivity|].
  change (String c s) with (String.append (String c EmptyString) s) at 1.
  rewrite reverse_string_append, reverse_string_append, IH. reflexivity.
Qed.

(** X7: A text between two quotes of the same kind is the string between
    them, character for character: inner quotes and backslashes are kept
    and nothing is unescaped. *)
Theorem parseValue_quoted (q : ascii) (s : string) :
  q = double_quote \/ q = "'"%char ->
  parseValue (String q (String.append s (String q EmptyString))) = LString s.
Proof.
  intros Q.
  set (t := String q (String.append s (String q EmptyString))).
  assert (S : is_space q = false) by (destruct Q as [->| ->]; reflexivity).
  assert (R : reverse_string t
              = String q (String.append (reverse_string s) (String q EmptyString))).
  { unfold t.
    change (String q (String.append s (String q EmptyString)))
      with (String.append (String q EmptyString)
              (String.append s (String q EmptyString))).
    now rewrite !reverse_string_append. }
  assert (T : trim t = t).
  { unfold trim, trimEnd. replace (trimStart t) with t
      by (unfold t; cbn [trimStart]; now rewrite S).
    rewrite R. cbn [trimStart]. rewrite S, <- R.
    apply reverse_string_involutive. }
  unfold parseValue. cbv zeta. rewrite T.
  assert (E : endsWith t q = true).
  { unfold endsWith. rewrite R. cbn. apply Ascii.eqb_refl. }
  assert (B : startsWith t q = true) by (cbn; apply Ascii.eqb_refl).
  assert (D : slice_1_m1 t = s).
  { unfold t, slice_1_m1, drop_last. rewrite reverse_string_append.
    cbn [reverse_string rev_onto String.append].
    apply reverse_string_involutive. }
  change (negb (nonempty t)) with false. cbn match.
  destruct Q as [-> | ->]; rewrite B, E, D; cbn [andb orb];
    [reflexivity|].
  now destruct (_ && _).
Qed.

Lemma parseValue_quoted_witness :
  parseValue "'it's \n'" = LString "it's \n".
Proof.
  exact (parseValue_quoted "'" "it's \n" (or_intror eq_refl)).
Defined.

(** ** Null and primitive members on the way *)

(** X8: A member that is null is a value at the end of a path and a gap
    inside it: reading the member returns null, whatever the default value,
    and reading anything below it returns the default value. *)
Theorem null_is_a_value_only_at_the_end (rt : runtime) (defaultValue : any)
    (name : string) (names : list string) (h : heap) (r : loc) (o : object) :
  forallb proper_name (name :: names) = true ->
  names <> [] ->
  h !! r = Some o ->
  object_member o name = VNull ->
  LGet rt (VObject r) (VString name) defaultValue h = (Ok VNull, h)
  /\ LGet rt (VObject r) (VString (dotted (name :: names))) defaultValue h
     = (Ok defaultValue, h).
Proof.
  intros P N H M. rewrite !LGet_string. cbn [truthy]. unfold evaluatePath.
  assert (P0 : forallb proper_name [name] = true).
  { cbn in P |- *. apply andb_prop in P as [-> _]. reflexivity. }
  pose proof (tokenizePath_proper name [] P0) as T0. cbn [dotted map] in T0.
  rewrite T0, (tokenizePath_proper name names P).
  rewrite !(evaluate_loop_access rt (property name) name) by reflexivity.
  cbn [nullish get_member]. rewrite H, M. split; [reflexivity|].
  destruct names as [|name' names]; [contradiction|]. reflexivity.
Qed.

Lemma null_is_a_value_only_at_the_end_witness :
  LGet inert (VObject 0) (VString "a") (VString "none")
    [ {| kind := PlainObject; properties := [("a", VNull)] |} ]
  = (Ok VNull, [ {| kind := PlainObject; properties := [("a", VNull)] |} ])
  /\ LGet inert (VObject 0) (VString "a.b") (VString "none")
       [ {| kind := PlainObject; properties := [("a", VNull)] |} ]
     = (Ok (VString "none"),
        [ {| kind := PlainObject; properties := [("a", VNull)] |} ]).
Proof.
  apply (null_is_a_value_only_at_the_end inert (VString "none") "a" ["b"]
           [ {| kind := PlainObject; properties := [("a", VNull)] |} ] 0
           {| kind := PlainObject; properties := [("a", VNull)] |});
    [reflexivity | discriminate | reflexivity | reflexivity].
Defined.

(** X9: A write below a member that is a number, a string or a boolean
    assigns nothing, as long as no name below the member names a built-in
    member of such a value (as [constructor] and [__proto__] do): the walk
    throws, [LSet] returns the root, and every object that was there is as
    it was. *)
Theorem write_below_a_primitive_changes_nothing (rt : runtime) (value : any)
    (name : string) (names : list string) (h : heap) (r : loc) (o : object) :
  forallb proper_name (name :: names) = true ->
  names <> [] ->
  h !! r = Some o ->
  nullish (object_member o name) = false ->
  is_object (object_member o name) = false ->
  forallb (fun n => negb (primitive_built_in n)) names = true ->
  let path := dotted (name :: names) in
  fst (setValueAtPath rt (VObject r) path value h) <> Ok tt
  /\ fst (LSet rt (VObject r) (VString path) value h) = Ok (VObject r)
  /\ forall l : loc,
       l < length h ->
       snd (LSet rt (VObject r) (VString path) value h) !! l = h !! l.
Proof.
  intros P N H M O _. cbv zeta. rewrite LSet_string. cbn [truthy fst snd].
  rewrite setValueAtPath_tokens, (tokenizePath_proper name names P).
  destruct names as [|name' names]; [contradiction|].
  cbn [map]. rewrite set_tokens_more. cbn [set_step].
  rewrite (descend_enters rt h r o name _ H M).
  change (property name' :: map property names)
    with (map property (name' :: names)).
  split; [|split; [reflexivity|]].
  - apply set_tokens_primitive;
      [discriminate | apply accesses_properties | exact O].
  - intros l L. apply set_tokens_frame;
      [apply accesses_properties | exact L |].
    intros I. apply (trail_primitive h _ _ _ O) in I. discriminate I.
Qed.

Lemma write_below_a_primitive_changes_nothing_witness :
  snd (LSet inert (VObject 1) (VString "name.first") (VString "Ann")
         named_heap) !! 1
  = named_heap !! 1.
Proof.
  apply (write_below_a_primitive_changes_nothing inert (VString "Ann") "name"
           ["first"] named_heap 1
           {| kind := PlainObject; properties := [("name", VString "Ann")] |});
    [reflexivity | discriminate | reflexivity | reflexivity | reflexivity
    | reflexivity | cbn; lia].
Defined.

(** ** Property names and column names *)

Lemma is_upper_lower_letter c : is_upper c = true -> is_lower (lower_letter c) = true.
Proof.
  unfold lower_letter. intros U. rewrite U. unfold is_upper, is_lower in *.
  cbv zeta in *. rewrite N_ascii_embedding.
  - apply andb_true_iff in U as [U1 U2]. apply N.leb_le in U1, U2.
    apply andb_true_iff. split; apply N.leb_le; lia.
  - apply andb_true_iff in U as [U1 U2]. apply N.leb_le in U1, U2. lia.
Qed.

Lemma upper_lower_letter c : is_upper c = true -> upper_letter (lower_letter c) = c.
Proof.
  intros U. unfold upper_letter. rewrite (is_upper_lower_letter c U).
  unfold lower_letter. rewrite U. unfold is_upper in U. cbv zeta in U.
  apply andb_true_iff in U as [U1 U2]. apply N.leb_le in U1, U2.
  rewrite N_ascii_embedding by lia.
  replace (N_of_ascii c + 32 - 32)%N with (N_of_ascii c) by lia.
  apply ascii_N_embedding.
Qed.

Lemma is_lower_upper_letter c : is_lower c = true -> is_upper (upper_letter c) = true.
Proof.
  unfold upper_letter. intros U. rewrite U. unfold is_upper, is_lower in *.
  cbv zeta in *. apply andb_true_iff in U as [U1 U2]. apply N.leb_le in U1, U2.
  rewrite N_ascii_embedding by lia.
  apply andb_true_iff. split; apply N.leb_le; lia.
Qed.

Lemma lower_upper_letter c : is_lower c = true -> lower_letter (upper_letter c) = c.
Proof.
  intros U. unfold lower_letter. rewrite (is_lower_upper_letter c U).
  unfold upper_letter. rewrite U. unfold is_lower in U. cbv zeta in U.
  apply andb_true_iff in U as [U1 U2]. apply N.leb_le in U1, U2.
  rewrite N_ascii_embedding by lia.
  replace (N_of_ascii c - 32 + 32)%N with (N_of_ascii c) by lia.
  apply ascii_N_embedding.
Qed.

Lemma upper_not_lower c : is_upper c = true -> is_lower c = false.
Proof.
  unfold is_upper, is_lower. cbv zeta. intros U.
  apply andb_true_iff in U as [U1 U2]. apply N.leb_le in U1, U2.
  apply andb_false_iff. left. apply N.leb_gt. lia.
Qed.

Lemma upper_not_underscore c : is_upper c = true -> Ascii.eqb c "_" = false.
Proof.
  intros U. apply Ascii.eqb_neq. intros ->. discriminate U.
Qed.

Lemma lower_not_underscore c : is_lower c = true -> Ascii.eqb c "_" = false.
Proof.
  intros U. apply Ascii.eqb_neq. intros ->. discriminate U.
Qed.

Lemma replace_P2CEX_no_upper s : no_upper (replace_P2CEX s) = true.
Proof.
  induction s as [|a s IH]; [reflexivity|]. cbn [replace_P2CEX].
  destruct (is_upper a) eqn:U; cbn [no_upper].
  - replace (is_upper "_") with false by reflexivity.
    assert (L : is_upper (lower_letter a) = false).
    { pose proof (is_upper_lower_letter a U) as L. unfold is_upper, is_lower in *.
      cbv zeta in *. apply andb_true_iff in L as [L1 L2]. apply N.leb_le in L1, L2.
      apply andb_false_iff. right. apply N.leb_gt. lia. }
    now rewrite L, IH.
  - now rewrite U, IH.
Qed.

Lemma round_trip_head (a : ascii) (s : string) :
  Ascii.eqb a "_" && match s with
                     | String b _ => is_lower b
                     | EmptyString => false
                     end = false ->
  replace_C2PEX (replace_P2CEX (String a s))
  = String a (replace_C2PEX (replace_P2CEX s)).
Proof.
  intros N1.
  cbn [replace_P2CEX]. destruct (is_upper a) eqn:U.
  - cbn [replace_C2PEX]. cbn [Ascii.eqb Bool.eqb].
    now rewrite (is_upper_lower_letter a U), (upper_lower_letter a U).
  - cbn [replace_C2PEX]. destruct (Ascii.eqb a "_") eqn:E; [|reflexivity].
    destruct s as [|b s']; [reflexivity|].
    cbn [andb] in N1.
    cbn [replace_P2CEX]. destruct (is_upper b) eqn:Ub.
    + now replace (is_lower "_") with false by reflexivity.
    + now rewrite N1.
Qed.

Lemma round_trip_length (n : nat) (s : string) :
  String.length s <= n ->
  String.length (replace_C2PEX (replace_P2CEX s)) <= String.length s /\
  (no_lower_after_underscore s = false ->
   String.length (replace_C2PEX (replace_P2CEX s)) < String.length s).
Proof.
  revert s. induction n as [|n IH]; intros s L.
  - destruct s; [|cbn in L; lia]. split; [cbn; lia | discriminate].
  - destruct s as [|a s]; [split; [cbn; lia | discriminate]|].
    cbn [String.length] in L. cbn [no_lower_after_underscore].
    destruct (Ascii.eqb a "_" && match s with
                                  | String b _ => is_lower b
                                  | EmptyString => false
                                  end) eqn:H.
    + apply andb_true_iff in H as [E Lb]. destruct s as [|b s']; [discriminate|].
      cbn [String.length] in L.
      assert (Ua : is_upper a = false).
      { apply Ascii.eqb_eq in E. now subst a. }
      assert (Ub : is_upper b = false).
      { destruct (is_upper b) eqn:Ub; [|reflexivity].
        rewrite (upper_not_lower b Ub) in Lb. discriminate. }
      cbn [replace_P2CEX]. rewrite Ua, Ub. cbn [replace_C2PEX]. rewrite E, Lb.
      cbn [String.length]. destruct (IH s' ltac:(lia)) as [I _].
      split; intros; lia.
    + rewrite (round_trip_head a s H). cbn [String.length negb andb].
      destruct (IH s ltac:(lia)) as [I J]. split; [lia|].
      intros N. specialize (J N). lia.
Qed.

Lemma replace_C2PEX_P2CEX (s : string) :
  no_lower_after_underscore s = true -> replace_C2PEX (replace_P2CEX s) = s.
Proof.
  induction s as [|a s IH]; intros N; [reflexivity|].
  cbn [no_lower_after_underscore] in N.
  apply andb_true_iff in N as [N1 N2]. apply negb_true_iff in N1.
  rewrite (round_trip_head a s N1). now rewrite (IH N2).
Qed.

Lemma replace_C2PEX_no_upper (s : string) :
  no_upper s = true -> replace_P2CEX (replace_C2PEX s) = s.
Proof.
  remember (String.length s) as n eqn:L. assert (B : String.length s <= n) by lia.
  clear L. revert s B. induction n as [|n IH]; intros s B N.
  - destruct s; [reflexivity | cbn in B; lia].
  - destruct s as [|a s]; [reflexivity|]. cbn [String.length] in B.
    cbn [no_upper] in N. apply andb_true_iff in N as [Na N].
    apply negb_true_iff in Na. cbn [replace_C2PEX].
    destruct (Ascii.eqb a "_") eqn:E.
    + destruct s as [|b s'].
      * cbn [replace_P2CEX]. now rewrite Na.
      * cbn [no_upper] in N. pose proof N as N0.
        apply andb_true_iff in N as [Nb N'].
        cbn [String.length] in B. destruct (is_lower b) eqn:Lb.
        -- cbn [replace_P2CEX]. rewrite (is_lower_upper_letter b Lb).
           rewrite (lower_upper_letter b Lb), (IH s' ltac:(lia) N').
           apply Ascii.eqb_eq in E. now subst a.
        -- cbn [replace_P2CEX]. rewrite Na.
           now rewrite (IH (String b s') ltac:(cbn; lia) N0).
    + cbn [replace_P2CEX]. rewrite Na. now rewrite (IH s ltac:(lia) N).
Qed.

(** X10: A property name survives the trip to its column name and back
    exactly when none of its underscores is followed by a lower-case
    letter. *)
Theorem C2P_P2C (s : string) :
  C2P (P2C s true) true = s <-> no_lower_after_underscore s = true.
Proof.
  unfold C2P, P2C. split.
  - intros E. destruct (no_lower_after_underscore s) eqn:N; [reflexivity|].
    destruct (round_trip_length (String.length s) s (le_n _)) as [_ J].
    specialize (J N). rewrite E in J. lia.
  - apply replace_C2PEX_P2CEX.
Qed.

(** X11: A column name survives the trip to its property name and back
    exactly when it holds no capital letter. *)
Theorem P2C_C2P (s : string) :
  P2C (C2P s true) true = s <-> no_upper s = true.
Proof.
  unfold C2P, P2C. split.
  - intros E. rewrite <- E. apply replace_P2CEX_no_upper.
  - apply replace_C2PEX_no_upper.
Qed.

(** X12: The column name of a property holds no capital letter, and is
    longer than the property name by the number of its capital letters. *)
Theorem P2C_lower_case (s : string) :
  no_upper (P2C s true) = true /\
  String.length (P2C s true) = String.length s + count_upper s.
Proof.
  split; [apply replace_P2CEX_no_upper|].
  unfold P2C. induction s as [|a s IH]; [reflexivity|].
  cbn [replace_P2CEX count_upper String.length].
  destruct (is_upper a); cbn [String.length]; lia.
Qed.

(** ** Patterns of fixed shape *)

Lemma match_classes_length cs s rest :
  match_classes cs s = Some rest ->
  String.length s = length cs + String.length rest.
Proof.
  revert s. induction cs as [|p cs IH]; intros s M; cbn in M.
  - now inversion M.
  - destruct s as [|c s']; [discriminate|]. destruct (p c); [|discriminate].
    cbn. now rewrite (IH _ M).
Qed.

Lemma test_fixed_width groups : forall n s,
  fixed_width groups n = true -> test groups s = true -> String.length s = n.
Proof.
  induction groups as [|alternatives groups IH]; intros n s F T; cbn in F, T.
  - apply Nat.eqb_eq in F. destruct s; [now subst | discriminate].
  - apply existsb_exists in T as (cs & I & T).
    rewrite forallb_forall in F. specialize (F cs I).
    apply andb_true_iff in F as [L F]. apply Nat.leb_le in L.
    destruct (match_classes cs s) as [rest|] eqn:M; [|discriminate].
    apply match_classes_length in M. rewrite (IH _ _ F T) in M. lia.
Qed.

(** ** Weighted sums *)

Lemma weighted_sum_shift value weights : forall code sum,
  weighted_sum value code weights sum
  = option_map (N.add sum) (weighted_sum value code weights 0).
Proof.
  induction weights as [|w ws IH]; intros code sum;
    cbn [weighted_sum option_map].
  - f_equal. lia.
  - destruct code as [|c rest]; [reflexivity|].
    destruct (value c) as [v|]; [|reflexivity].
    rewrite (IH rest (sum + v * w)%N), (IH rest (0 + v * w)%N).
    destruct (weighted_sum value rest ws 0); cbn [option_map]; [|reflexivity].
    f_equal. lia.
Qed.

Lemma weighted_sum_substitution value : forall a weights c c' b sum n n',
  String.length a < length weights ->
  weighted_sum value (String.append a (String c b)) weights sum = Some n ->
  weighted_sum value (String.append a (String c' b)) weights sum = Some n' ->
  exists w x x' R,
    In w weights /\ value c = Some x /\ value c' = Some x' /\
    n = (R + x * w)%N /\ n' = (R + x' * w)%N.
Proof.
  induction a as [|e a IH]; intros weights c c' b sum n n' L S S'.
  - destruct weights as [|w ws]; [cbn in L; lia|]. cbn in S, S'.
    destruct (value c) as [x|]; [|discriminate].
    destruct (value c') as [x'|]; [|discriminate].
    rewrite weighted_sum_shift in S, S'.
    destruct (weighted_sum value b ws 0) as [t|]; [|discriminate].
    cbn in S, S'. inversion S. inversion S'.
    exists w, x, x', (sum + t)%N. repeat split; [now left | lia | lia].
  - destruct weights as [|w ws]; [cbn in L; lia|]. cbn in L, S, S'.
    destruct (value e) as [v|]; [|discriminate].
    destruct (IH ws c c' b _ n n' ltac:(lia) S S') as (w' & x & x' & R & I & ?).
    exists w', x, x', R. split; [now right | assumption].
Qed.

Lemma weighted_sum_beyond value : forall a weights b b' sum,
  length weights <= String.length a ->
  weighted_sum value (String.append a b) weights sum
  = weighted_sum value (String.append a b') weights sum.
Proof.
  induction a as [|e a IH]; intros weights b b' sum L.
  - destruct weights; [reflexivity | cbn in L; lia].
  - destruct weights as [|w ws]; [reflexivity|]. cbn in L |- *.
    destruct (value e); [|reflexivity]. apply IH. lia.
Qed.

Lemma weighted_sum_substring value : forall weights n code sum,
  length weights <= n ->
  weighted_sum value (String.substring 0 n code) weights sum
  = weighted_sum value code weights sum.
Proof.
  induction weights as [|w ws IH]; intros n code sum L; [reflexivity|].
  cbn in L. destruct n as [|n]; [lia|]. destruct code as [|c rest]; [reflexivity|].
  cbn. destruct (value c); [|reflexivity]. apply IH. lia.
Qed.

(** Two sums that differ in one term have different remainders. *)
Lemma weighted_remainder (p w x x' R : N) :
  Z.gcd (Z.of_N p) (Z.of_N w) = 1%Z -> (x < p)%N -> (x' < p)%N ->
  ((R + x * w) mod p = (R + x' * w) mod p)%N -> x = x'.
Proof.
  intros G X X' E.
  assert (D : (Z.of_N p | Z.of_N w * (Z.of_N x - Z.of_N x'))%Z).
  { apply (f_equal Z.of_N) in E. rewrite !N2Z.inj_mod in E.
    rewrite !N2Z.inj_add, !N2Z.inj_mul in E.
    apply Z.mod_divide; [lia|].
    replace (Z.of_N w * (Z.of_N x - Z.of_N x'))%Z
      with ((Z.of_N R + Z.of_N x * Z.of_N w) - (Z.of_N R + Z.of_N x' * Z.of_N w))%Z
      by ring.
    rewrite Zminus_mod, E, Z.sub_diag. apply Z.mod_0_l. lia. }
  apply Z.gauss in D; [|assumption].
  destruct D as [k K]. assert (k = 0)%Z by nia. subst k. lia.
Qed.

Lemma parseInt_digit (c : ascii) (x : N) :
  parseInt c = Some x -> N_of_ascii c = (48 + x)%N /\ (x < 10)%N.
Proof.
  unfold parseInt, digit. cbv zeta.
  destruct ((48 <=? N_of_ascii c)%N && (N_of_ascii c <=? 57)%N) eqn:D.
  - apply andb_true_iff in D as [D1 D2]. apply N.leb_le in D1, D2.
    destruct (_ <? _)%N; [|discriminate]. intros E. inversion E. lia.
  - destruct ((97 <=? N_of_ascii c)%N && (N_of_ascii c <=? 102)%N) eqn:L.
    + apply andb_true_iff in L as [L1 L2]. apply N.leb_le in L1, L2.
      destruct (N.ltb_spec (N_of_ascii c - 87) 10); [lia | discriminate].
    + destruct ((65 <=? N_of_ascii c)%N && (N_of_ascii c <=? 70)%N) eqn:U;
        [|discriminate].
      apply andb_true_iff in U as [U1 U2]. apply N.leb_le in U1, U2.
      destruct (N.ltb_spec (N_of_ascii c - 55) 10); [lia | discriminate].
Qed.

Lemma parseInt_inj (c c' : ascii) (x : N) :
  parseInt c = Some x -> parseInt c' = Some x -> c = c'.
Proof.
  intros P P'. apply parseInt_digit in P as [P _], P' as [P' _].
  rewrite <- (ascii_N_embedding c), <- (ascii_N_embedding c'). congruence.
Qed.

Lemma indexOf_from_inj (chars : string) (c c' : ascii) : forall i x,
  indexOf_from chars c i = Some x -> indexOf_from chars c' i = Some x -> c = c'.
Proof.
  assert (B : forall chars c i x, indexOf_from chars c i = Some x -> (i <= x)%N).
  { clear. induction chars as [|a chars IH]; intros c i x I; cbn in I;
      [discriminate|].
    destruct (Ascii.eqb a c); [inversion I; lia|]. apply IH in I. lia. }
  induction chars as [|a chars IH]; intros i x I I'; cbn in I, I'; [discriminate|].
  destruct (Ascii.eqb_spec a c) as [<-|N], (Ascii.eqb_spec a c') as [<-|N'].
  - reflexivity.
  - inversion I. subst x. apply B in I'. lia.
  - inversion I'. subst x. apply B in I. lia.
  - eapply IH; eassumption.
Qed.

Lemma indexOf_from_bound (chars : string) (c : ascii) : forall i x,
  indexOf_from chars c i = Some x -> (x < i + N.of_nat (String.length chars))%N.
Proof.
  induction chars as [|a chars IH]; intros i x I; cbn in I; [discriminate|].
  cbn [String.length]. destruct (Ascii.eqb a c); [inversion I; lia|].
  apply IH in I. lia.
Qed.

Lemma get_at (a b : string) (c : ascii) :
  String.get (String.length a) (String.append a (String c b)) = Some c.
Proof.
  symmetry. exact (append_correct2 a (String c b) 0).
Qed.

Lemma get_substituted (a b : string) (c c' : ascii) : forall i,
  i <> String.length a ->
  String.get i (String.append a (String c b))
  = String.get i (String.append a (String c' b)).
Proof.
  induction a as [|e a IH]; intros i N; cbn in N |- *.
  - destruct i; [lia | reflexivity].
  - destruct i; [reflexivity|]. apply IH. lia.
Qed.

Lemma complement_inj (r r' : N) :
  (r < 31)%N -> (r' < 31)%N ->
  ((31 - r) mod 31 = (31 - r') mod 31)%N -> r = r'.
Proof.
  intros R R' E.
  destruct (N.eq_dec r 0%N) as [->|Z], (N.eq_dec r' 0%N) as [->|Z'];
    [reflexivity | | |].
  - rewrite (N.mod_small (31 - r')) in E by lia.
    change ((31 - 0) mod 31)%N with 0%N in E. lia.
  - rewrite (N.mod_small (31 - r)) in E by lia.
    change ((31 - 0) mod 31)%N with 0%N in E. lia.
  - rewrite !N.mod_small in E by lia. lia.
Qed.

Lemma decimal_inj (k k' : N) : decimal k = decimal k' -> k = k'.
Proof.
  assert (Nil : forall n, N.to_uint n <> Decimal.Nil).
  { intros [|p]; [discriminate | apply DecimalPos.Unsigned.to_uint_nonnil]. }
  unfold decimal. intros E.
  apply (f_equal NilZero.uint_of_string) in E.
  rewrite !NilZero.usu in E by apply Nil.
  inversion E as [E']. now apply Unsigned.to_uint_inj.
Qed.

(** ** validIdCard *)

(** X13: In an accepted identity number of 18 characters every change of one
    character is detected, apart from the change of case of a final X. *)
Theorem validIdCard_detects_substitution (a b : string) (c c' : ascii) :
  String.length (String.append a (String c b)) = 18 ->
  validIdCard (String.append a (String c b)) = true ->
  c <> c' ->
  (String.length a = 17 ->
   toUpperCase (String c EmptyString) <> toUpperCase (String c' EmptyString)) ->
  validIdCard (String.append a (String c' b)) = false.
Proof.
  intros L V N U.
  assert (L' : String.length (String.append a (String c' b)) = 18).
  { rewrite length_append in L |- *. exact L. }
  assert (F : forall s, String.length s = 18 -> test regex15 s = false).
  { intros s Ls. destruct (test regex15 s) eqn:T; [|reflexivity].
    apply (test_fixed_width regex15 15) in T; [lia | reflexivity]. }
  unfold validIdCard in *. rewrite (F _ L) in V. rewrite (F _ L').
  destruct (test regex18 _); [|discriminate].
  destruct (test regex18 _); [|reflexivity].
  destruct (weighted_sum parseInt (String.append a (String c b)) _ 0)
    as [n|] eqn:S; [|discriminate].
  destruct (weighted_sum parseInt (String.append a (String c' b)) _ 0)
    as [n'|] eqn:S'; [|reflexivity].
  cbv zeta in *. rewrite length_append in L. cbn [String.length] in L.
  destruct (Nat.eq_dec (String.length a) 17) as [A|A].
  - rewrite <- A, get_at in V |- *.
    rewrite (weighted_sum_beyond _ a _ (String c b) (String c' b)) in S
      by (rewrite A; cbn; lia).
    rewrite S in S'. inversion S'. subst n'.
    destruct (nth_error _ _) as [p|]; [|reflexivity].
    apply String.eqb_eq in V. apply String.eqb_neq. intros V'.
    apply (U A). congruence.
  - rewrite <- (get_substituted a b c c' 17) by lia.
    destruct (String.get 17 _) as [e|]; [|discriminate].
    destruct (fun K => weighted_sum_substitution parseInt a _ c c' b 0 n n' K S S')
      as (w & x & x' & R & I & X & X' & -> & ->); [cbn; lia|].
    destruct (nth_error _ (N.to_nat ((R + x * w) mod 11)))
      as [p|] eqn:P; [|discriminate].
    destruct (nth_error _ (N.to_nat ((R + x' * w) mod 11)))
      as [p'|] eqn:P'; [|reflexivity].
    apply String.eqb_eq in V. apply String.eqb_neq. intros V'.
    apply N. rewrite V in V'. inversion V'. subst p'.
    assert (E : N.to_nat ((R + x * w) mod 11) = N.to_nat ((R + x' * w) mod 11)).
    { assert (D : List.NoDup ["1"; "0"; "X"; "9"; "8"; "7"; "6"; "5"; "4"; "3"; "2"]%char).
      { repeat constructor; cbn; intuition discriminate. }
      rewrite List.NoDup_nth_error in D. apply D; [|congruence].
      apply nth_error_Some. congruence. }
    apply N2Nat.inj in E.
    assert (x = x').
    { apply (weighted_remainder 11 w x x' R); [| | |exact E].
      - cbn in I. repeat (destruct I as [<-|I]; [reflexivity|]). destruct I.
      - apply parseInt_digit in X. lia.
      - apply parseInt_digit in X'. lia. }
    subst x'. eapply parseInt_inj; eassumption.
Qed.

Lemma validIdCard_detects_substitution_witness :
  validIdCard "11010519491271002X" = false.
Proof.
  apply (validIdCard_detects_substitution "110105194912" "1002X" "3" "7");
    [reflexivity | reflexivity | discriminate | discriminate].
Defined.

Lemma match_classes_substitution (c c' : ascii) (cs : list class) :
  (forall p, In p cs -> p c = p c') ->
  forall a b : string,
    (exists a',
       match_classes cs (String.append a (String c b))
       = Some (String.append a' (String c b))
       /\ match_classes cs (String.append a (String c' b))
          = Some (String.append a' (String c' b)))
    \/ match_classes cs (String.append a (String c b))
       = match_classes cs (String.append a (String c' b)).
Proof.
  induction cs as [|p cs IH]; intros E a b.
  - left. exists a. now split.
  - destruct a as [|x a]; cbn [String.append match_classes].
    + right. now rewrite <- (E p (or_introl eq_refl)).
    + destruct (p x); [|now right]. apply IH. intros q Q. apply E. now right.
Qed.

Lemma test_substitution (c c' : ascii) (groups : list (list (list class))) :
  (forall alternatives cs p,
     In alternatives groups -> In cs alternatives -> In p cs -> p c = p c') ->
  forall a b : string,
    test groups (String.append a (String c b))
    = test groups (String.append a (String c' b)).
Proof.
  induction groups as [|alternatives groups IH]; intros E a b.
  - now destruct a.
  - cbn [test].
    assert (G : forall l,
               (forall cs, In cs l -> In cs alternatives) ->
               existsb (fun cs =>
                          match match_classes cs (String.append a (String c b)) with
                          | Some rest => test groups rest
                          | None => false
                          end) l
               = existsb (fun cs =>
                            match match_classes cs (String.append a (String c' b)) with
                            | Some rest => test groups rest
                            | None => false
                            end) l).
    { induction l as [|cs l IHl]; intros S; [reflexivity|]. cbn [existsb].
      rewrite IHl by (intros x X; apply S; now right). f_equal.
      destruct (match_classes_substitution c c' cs
                  (fun p P => E alternatives cs p (or_introl eq_refl)
                                (S cs (or_introl eq_refl)) P) a b)
        as [(a' & -> & ->)| ->]; [|reflexivity].
      apply IH. intros al cs' p A. apply E. now right. }
    apply G. auto.
Qed.

Lemma weighted_sum_no_value (value : ascii -> option N) (c : ascii) :
  value c = None ->
  forall (a b : string) (weights : list N) (sum : N),
    String.length a < length weights ->
    weighted_sum value (String.append a (String c b)) weights sum = None.
Proof.
  intros V. induction a as [|x a IH]; intros b weights sum L;
    (destruct weights as [|w ws]; [cbn in L; lia|]); cbn in L |- *.
  - now rewrite V.
  - destruct (value x); [|reflexivity]. apply IH. lia.
Qed.

(** X14: An identity number is accepted with a small x exactly when it is
    accepted with a capital X in its place. *)
Theorem validIdCard_ignores_case_of_X (a b : string) :
  validIdCard (String.append a (String "x" b))
  = validIdCard (String.append a (String "X" b)).
Proof.
  unfold validIdCard.
  rewrite (test_substitution "x" "X" regex15).
  2:{ intros al cs p A C P. cbn in A.
      repeat (destruct A as [<-|A];
              [cbn in C; repeat (destruct C as [<-|C];
                 [cbn in P; repeat (destruct P as [<-|P]; [reflexivity|]);
                  destruct P|]); destruct C|]).
      destruct A. }
  rewrite (test_substitution "x" "X" regex18).
  2:{ intros al cs p A C P. cbn in A.
      repeat (destruct A as [<-|A];
              [cbn in C; repeat (destruct C as [<-|C];
                 [cbn in P; repeat (destruct P as [<-|P]; [reflexivity|]);
                  destruct P|]); destruct C|]).
      destruct A. }
  destruct (test regex15 _); [reflexivity|].
  destruct (test regex18 _); [|reflexivity].
  destruct (Nat.lt_ge_cases (String.length a) 17) as [L|L].
  - rewrite !(weighted_sum_no_value parseInt) by (reflexivity || exact L).
    reflexivity.
  - rewrite (weighted_sum_beyond parseInt a _ (String "x" b) (String "X" b))
      by exact L.
    destruct (weighted_sum _ _ _ _) as [sum|]; [|reflexivity]. cbv zeta.
    destruct (Nat.eq_dec (String.length a) 17) as [E|E].
    + rewrite <- E, !get_at. reflexivity.
    + now rewrite (get_substituted a b "x" "X" 17) by lia.
Qed.

(** ** validateBusinessLicense *)

Lemma license_characters (k : nat) :
  k < 31 ->
  exists ch, String.get k "0123456789ABCDEFGHJKLMNPQRTUWXY" = Some ch /\
             indexOf "0123456789ABCDEFGHJKLMNPQRTUWXY" ch = Some (N.of_nat k).
Proof.
  intros K.
  do 31 (destruct k as [|k]; [eexists; split; reflexivity|]). lia.
Qed.

Lemma validate18DigitLicense_length (code : string) :
  validate18DigitLicense code = true -> String.length code = 18.
Proof.
  unfold validate18DigitLicense. destruct (test _ code) eqn:T; [|discriminate].
  intros _. eapply test_fixed_width; [|exact T]. reflexivity.
Qed.

Lemma validate15DigitLicense_length (code : string) :
  validate15DigitLicense code = true -> String.length code = 15.
Proof.
  unfold validate15DigitLicense. destruct (test _ code) eqn:T; [|discriminate].
  intros _. eapply test_fixed_width; [|exact T]. reflexivity.
Qed.

Lemma validate18DigitLicense_substitution (a b : string) (c c' : ascii) :
  validate18DigitLicense (String.append a (String c b)) = true ->
  c <> c' ->
  validate18DigitLicense (String.append a (String c' b)) = false.
Proof.
  intros V N. pose proof (validate18DigitLicense_length _ V) as L.
  unfold validate18DigitLicense in *.
  destruct (test _ _); [|discriminate].
  destruct (test _ _); [|reflexivity].
  cbn [negb] in *. cbv zeta in *.
  destruct (weighted_sum _ (String.append a (String c b)) _ 0)
    as [n|] eqn:S; [|discriminate].
  destruct (weighted_sum _ (String.append a (String c' b)) _ 0)
    as [n'|] eqn:S'; [|reflexivity].
  rewrite length_append in L. cbn [String.length] in L.
  destruct (Nat.eq_dec (String.length a) 17) as [A|A].
  - rewrite <- A, get_at in V |- *.
    rewrite (weighted_sum_beyond _ a _ (String c b) (String c' b)) in S
      by (rewrite A; cbn; lia).
    rewrite S in S'. inversion S'. subst n'.
    destruct (String.get _ _) as [p|]; [|reflexivity]. cbn in V |- *.
    apply Ascii.eqb_eq in V. apply Ascii.eqb_neq. congruence.
  - rewrite <- (get_substituted a b c c' 17) by lia.
    destruct (String.get 17 _) as [e|] eqn:G.
    2:{ exfalso. apply (f_equal (fun o => match o with Some _ => true | None => false end)) in G.
        clear -G L A. revert G. 
        assert (K : forall s k, k < String.length s -> String.get k s <> None).
        { induction s as [|x s IH]; intros k Lk; cbn in Lk; [lia|].
          destruct k; cbn; [discriminate|]. apply IH. lia. }
        intros G. apply (K (String.append a (String c b)) 17).
        - rewrite length_append. cbn. lia.
        - destruct (String.get 17 _); [discriminate | reflexivity]. }
    destruct (fun K => weighted_sum_substitution _ a _ c c' b 0 n n' K S S')
      as (w & x & x' & R & I & X & X' & -> & ->); [cbn; lia|].
    pose proof (indexOf_from_bound _ _ _ _ X) as Bx.
    pose proof (indexOf_from_bound _ _ _ _ X') as Bx'. cbn in Bx, Bx'.
    set (k := ((31 - (R + x * w) mod 31) mod 31)%N) in *.
    set (k' := ((31 - (R + x' * w) mod 31) mod 31)%N) in *.
    assert (Bk : (k < 31)%N) by (apply N.mod_lt; lia).
    assert (Bk' : (k' < 31)%N) by (apply N.mod_lt; lia).
    destruct (license_characters (N.to_nat k) ltac:(lia)) as (p & P & Q).
    destruct (license_characters (N.to_nat k') ltac:(lia)) as (p' & P' & Q').
    rewrite P in V. rewrite P'. cbn in V |- *.
    apply Ascii.eqb_eq in V. apply Ascii.eqb_neq. intros V'. apply N.
    assert (E : k = k').
    { rewrite N2Nat.id in Q, Q'. subst p p'. congruence. }
    apply complement_inj in E; [| apply N.mod_lt; lia | apply N.mod_lt; lia].
    assert (x = x').
    { apply (weighted_remainder 31 w x x' R); [|lia|lia|exact E].
      cbn in I. repeat (destruct I as [<-|I]; [reflexivity|]). destruct I. }
    subst x'. eapply indexOf_from_inj; eassumption.
Qed.

Lemma validate15DigitLicense_substitution (a b : string) (c c' : ascii) :
  validate15DigitLicense (String.append a (String c b)) = true ->
  c <> c' ->
  validate15DigitLicense (String.append a (String c' b)) = false.
Proof.
  intros V N. pose proof (validate15DigitLicense_length _ V) as L.
  unfold validate15DigitLicense in *.
  destruct (test _ _); [|discriminate].
  destruct (test _ _); [|reflexivity].
  cbn [negb] in *. cbv zeta in *.
  rewrite weighted_sum_substring in V |- * by (cbn; lia).
  destruct (weighted_sum _ (String.append a (String c b)) _ 0)
    as [n|] eqn:S; [|discriminate].
  destruct (weighted_sum _ (String.append a (String c' b)) _ 0)
    as [n'|] eqn:S'; [|reflexivity].
  rewrite length_append in L. cbn [String.length] in L.
  assert (T : forall k, (if (k =? 0)%N then "0" else decimal k) = decimal k).
  { intros k. destruct (N.eqb_spec k 0); [now subst|reflexivity]. }
  rewrite T in V |- *.
  destruct (Nat.eq_dec (String.length a) 14) as [A|A].
  - rewrite <- A, get_at in V |- *.
    rewrite (weighted_sum_beyond _ a _ (String c b) (String c' b)) in S
      by (rewrite A; cbn; lia).
    rewrite S in S'. inversion S'. subst n'.
    apply String.eqb_eq in V. apply String.eqb_neq. congruence.
  - rewrite <- (get_substituted a b c c' 14) by lia.
    destruct (String.get 14 _) as [e|]; [|discriminate].
    destruct (fun K => weighted_sum_substitution _ a _ c c' b 0 n n' K S S')
      as (w & x & x' & R & I & X & X' & -> & ->); [cbn; lia|].
    apply String.eqb_eq in V. apply String.eqb_neq. intros V'. apply N.
    rewrite V in V'. apply decimal_inj in V'.
    apply complement_inj in V'; [| apply N.mod_lt; lia | apply N.mod_lt; lia].
    assert (x = x').
    { apply (weighted_remainder 31 w x x' R); [| | |exact V'].
      - cbn in I. repeat (destruct I as [<-|I]; [reflexivity|]). destruct I.
      - apply parseInt_digit in X. lia.
      - apply parseInt_digit in X'. lia. }
    subst x'. eapply parseInt_inj; eassumption.
Qed.

Lemma toUpperCase_append (a b : string) :
  toUpperCase (String.append a b)
  = String.append (toUpperCase a) (toUpperCase b).
Proof.
  induction a as [|c a IH]; [reflexivity|]. cbn. now rewrite IH, append_assoc.
Qed.

Lemma remove_spaces_append (a b : string) :
  remove_spaces (String.append a b)
  = String.append (remove_spaces a) (remove_spaces b).
Proof.
  induction a as [|c a IH]; [reflexivity|]. cbn.
  destruct (is_space c); now rewrite IH.
Qed.

Lemma cleaned_character (c : ascii) :
  let t := remove_spaces (toUpperCase (String c EmptyString)) in
  t = "" \/ (exists x, t = String x EmptyString) \/ t = "SS".
Proof.
  cbn. rewrite append_empty. unfold upper_code_unit. cbv zeta.
  destruct (_ || _).
  - cbn. destruct (is_space _); [now left | right; left; eauto].
  - destruct (_ =? _)%N; [now right; right|].
    cbn. destruct (is_space _); [now left | right; left; eauto].
Qed.

Lemma cleaned_substitution (a b : string) (c : ascii) :
  remove_spaces (toUpperCase (String.append a (String c b)))
  = String.append (remove_spaces (toUpperCase a))
      (String.append (remove_spaces (toUpperCase (String c EmptyString)))
         (remove_spaces (toUpperCase b))).
Proof.
  change (String c b) with (String.append (String c EmptyString) b).
  now rewrite !toUpperCase_append, !remove_spaces_append.
Qed.

(** X15: In an accepted licence number every change of one character
    into another is detected, unless the two characters are the same once
    white space is dropped and letters are capitals. The characters are code
    units below 256, as all strings here are, and such a character cleans
    to at most two characters; the statement does not reach a character
    whose capital form has three, such as the ligature U+FB04 (FFL), which
    put in the place of a space makes eighteen characters of fifteen. *)
Theorem validateBusinessLicense_detects_substitution
    (a b : string) (c c' : ascii) :
  validateBusinessLicense (String.append a (String c b)) = true ->
  remove_spaces (toUpperCase (String c EmptyString))
  <> remove_spaces (toUpperCase (String c' EmptyString)) ->
  validateBusinessLicense (String.append a (String c' b)) = false.
Proof.
  unfold validateBusinessLicense. cbv zeta. rewrite !cleaned_substitution.
  set (A := remove_spaces (toUpperCase a)).
  set (B := remove_spaces (toUpperCase b)).
  intros V N.
  assert (L : forall t, String.length (String.append A (String.append t B))
                        = String.length A + String.length t + String.length B).
  { intros t. rewrite !length_append. lia. }
  assert (V15 : forall x, validate15DigitLicense x = true -> String.length x = 15)
    by apply validate15DigitLicense_length.
  assert (V18 : forall x, validate18DigitLicense x = true -> String.length x = 18)
    by apply validate18DigitLicense_length.
  assert (W : forall t t', String.length t <> String.length t' ->
    String.length t <= 2 -> String.length t' <= 2 ->
    (if (String.length (String.append A (String.append t B)) =? 15)%nat
     then validate15DigitLicense (String.append A (String.append t B))
     else if (String.length (String.append A (String.append t B)) =? 18)%nat
          then validate18DigitLicense (String.append A (String.append t B))
          else false) = true ->
    (if (String.length (String.append A (String.append t' B)) =? 15)%nat
     then validate15DigitLicense (String.append A (String.append t' B))
     else if (String.length (String.append A (String.append t' B)) =? 18)%nat
          then validate18DigitLicense (String.append A (String.append t' B))
          else false) = false).
  { intros t t' D T T'. rewrite !L.
    destruct (Nat.eqb_spec (String.length A + String.length t + String.length B) 15),
      (Nat.eqb_spec (String.length A + String.length t + String.length B) 18);
      try lia; intros _ || discriminate;
      destruct (Nat.eqb_spec (String.length A + String.length t' + String.length B) 15),
        (Nat.eqb_spec (String.length A + String.length t' + String.length B) 18);
      reflexivity || lia. }
  destruct (cleaned_character c) as [E|[[x E]|E]],
    (cleaned_character c') as [E'|[[x' E']|E']]; cbv zeta in E, E';
    rewrite E in V, N; rewrite E' in N |- *;
    try (exfalso; now apply N);
    try (refine (W _ _ _ _ _ V); cbn; lia).
  cbn [String.append] in V |- *. rewrite !length_append in V |- *.
  cbn [String.length] in *.
  assert (Nx : x <> x') by congruence.
  destruct (_ =? 15)%nat.
  - now apply validate15DigitLicense_substitution with (c := x).
  - destruct (_ =? 18)%nat; [|reflexivity].
    now apply validate18DigitLicense_substitution with (c := x).
Qed.

Lemma validateBusinessLicense_detects_substitution_witness :
  validateBusinessLicense "9135 0100 m000 100y 43" = true /\
  validateBusinessLicense "9135 0100 n000 100y 43" = false.
Proof.
  split; [reflexivity|].
  apply (validateBusinessLicense_detects_substitution "9135 0100 " "000 100y 43" "m" "n");
    [reflexivity | discriminate].
Defined.

Lemma toUpperCase_idempotent (s : string) :
  toUpperCase (toUpperCase s) = toUpperCase s.
Proof.
  induction s as [|c s IH]; [reflexivity|]. cbn [toUpperCase].
  rewrite toUpperCase_append, IH. f_equal.
  destruct c as [[] [] [] [] [] [] [] []]; reflexivity.
Qed.

Lemma toUpperCase_remove_spaces (s : string) :
  remove_spaces (toUpperCase (remove_spaces s)) = remove_spaces (toUpperCase s).
Proof.
  induction s as [|c s IH]; [reflexivity|]. cbn [toUpperCase remove_spaces].
  rewrite remove_spaces_append, <- IH.
  destruct (is_space c) eqn:S.
  - replace (remove_spaces (upper_code_unit c)) with "";  [reflexivity|].
    revert S. destruct c as [[] [] [] [] [] [] [] []]; (discriminate || reflexivity).
  - cbn [toUpperCase]. now rewrite remove_spaces_append.
Qed.

(** X16: The verdict on a licence number depends neither on the case of its
    letters nor on white space anywhere in it. *)
Theorem validateBusinessLicense_ignores_case_and_space (s : string) :
  validateBusinessLicense (toUpperCase s) = validateBusinessLicense s /\
  validateBusinessLicense (remove_spaces s) = validateBusinessLicense s.
Proof.
  unfold validateBusinessLicense. cbv zeta.
  now rewrite toUpperCase_idempotent, toUpperCase_remove_spaces.
Qed.

(** X17: A licence number of 15 digits is accepted only if the check value
    of its first 14 digits is below ten, and is its last digit: the check
    value is compared as a decimal text with one character. *)
Theorem validate15DigitLicense_check_below_ten (pre14 : string) (c : ascii) :
  String.length pre14 = 14 ->
  validate15DigitLicense (String.append pre14 (String c EmptyString)) = true ->
  exists sum,
    weighted_sum parseInt pre14 [10; 1; 3; 5; 7; 9; 11; 2; 4; 6; 8; 10; 12; 14]%N 0
    = Some sum /\
    ((31 - sum mod 31) mod 31 < 10)%N /\
    parseInt c = Some ((31 - sum mod 31) mod 31)%N.
Proof.
  intros L. unfold validate15DigitLicense.
  destruct (test _ _); [|discriminate]. cbn [negb]. cbv zeta.
  rewrite weighted_sum_substring by (cbn; lia).
  replace (String.get 14 (String.append pre14 (String c EmptyString)))
    with (Some c) by (rewrite <- L; symmetry; apply get_at).
  rewrite (weighted_sum_beyond _ pre14 _ (String c EmptyString) EmptyString)
    by (rewrite L; cbn; lia).
  rewrite append_empty.
  destruct (weighted_sum _ _ _ _) as [sum|]; [|discriminate].
  intros V. exists sum. split; [reflexivity|].
  set (k := ((31 - sum mod 31) mod 31)%N) in *.
  assert (B : (k < 31)%N) by (apply N.mod_lt; lia). clearbody k.
  assert (T : (if (k =? 0)%N then "0" else decimal k) = decimal k).
  { destruct (N.eqb_spec k 0) as [E|]; [rewrite E|]; reflexivity. }
  rewrite T in V. apply String.eqb_eq in V.
  assert (K : exists j : nat, j < 31 /\ k = N.of_nat j).
  { exists (N.to_nat k). lia. }
  destruct K as (j & J & ->). clear -V J.
  do 10 (destruct j as [|j];
         [inversion V; split; [reflexivity | reflexivity]|]).
  do 21 (destruct j as [|j]; [discriminate V|]). lia.
Qed.

Lemma validate15DigitLicense_check_below_ten_witness :
  exists sum,
    weighted_sum parseInt "00000000000002"
      [10; 1; 3; 5; 7; 9; 11; 2; 4; 6; 8; 10; 12; 14]%N 0 = Some sum /\
    ((31 - sum mod 31) mod 31 < 10)%N /\
    parseInt "3" = Some ((31 - sum mod 31) mod 31)%N.
Proof.
  apply (validate15DigitLicense_check_below_ten "00000000000002" "3");
    reflexivity.
Defined.

(** ** Two characters that change places *)

Lemma weighted_sum_transposition (value : ascii -> option N) :
  forall (a : string) (weights : list N) (x y : ascii) (b : string)
         (sum n n' : N),
    S (String.length a) < length weights ->
    weighted_sum value (String.append a (String x (String y b))) weights sum
    = Some n ->
    weighted_sum value (String.append a (String y (String x b))) weights sum
    = Some n' ->
    exists w w' vx vy R,
      In (w, w') (adjacent_pairs weights) /\
      value x = Some vx /\ value y = Some vy /\
      n = (R + vx * w + vy * w')%N /\ n' = (R + vy * w + vx * w')%N.
Proof.
  induction a as [|e a IH]; intros weights x y b sum n n' L S S'.
  - destruct weights as [|w [|w' ws]]; try (cbn in L; lia).
    cbn [String.append weighted_sum] in S, S'.
    destruct (value x) as [vx|]; [|discriminate].
    destruct (value y) as [vy|]; [|discriminate].
    rewrite weighted_sum_shift in S, S'.
    destruct (weighted_sum value b ws 0) as [t|]; [|discriminate].
    cbn in S, S'. inversion S. inversion S'.
    exists w, w', vx, vy, (sum + t)%N.
    repeat split; [now left | lia | lia].
  - destruct weights as [|w ws]; [cbn in L; lia|]. cbn in L.
    cbn [String.append weighted_sum] in S, S'.
    destruct (value e) as [v|]; [|discriminate].
    destruct (IH ws x y b _ n n' ltac:(lia) S S')
      as (w1 & w2 & vx & vy & R & I & ?).
    exists w1, w2, vx, vy, R. split; [|assumption].
    destruct ws as [|w0 ws]; [destruct I | now right].
Qed.

(** The term of the character that has the last weight. *)
Lemma weighted_sum_last (value : ascii -> option N) :
  forall (a : string) (weights : list N) (x : ascii) (b : string) (sum n : N),
    S (String.length a) = length weights ->
    weighted_sum value (String.append a (String x b)) weights sum = Some n ->
    exists w vx R,
      last weights = Some w /\ value x = Some vx /\ n = (R + vx * w)%N /\
      forall (x' : ascii) (b' : string) (vx' : N),
        value x' = Some vx' ->
        weighted_sum value (String.append a (String x' b')) weights sum
        = Some (R + vx' * w)%N.
Proof.
  induction a as [|e a IH]; intros weights x b sum n L S.
  - destruct weights as [|w [|w' ws]]; try discriminate L.
    cbn [String.append weighted_sum] in S.
    destruct (value x) as [vx|]; [|discriminate]. inversion S.
    exists w, vx, sum. repeat split. intros x' b' vx' V. cbn. now rewrite V.
  - destruct weights as [|w ws]; [discriminate L|]. cbn in L.
    cbn [String.append weighted_sum] in S |- *.
    destruct (value e) as [v|]; [|discriminate].
    destruct (IH ws x b _ n ltac:(lia) S) as (w1 & vx & R & La & V & N & A).
    exists w1, vx, R. repeat split; try assumption.
    destruct ws as [|w0 ws]; [destruct a; discriminate L | exact La].
Qed.

Lemma transposed_remainder (p w w' x y R : N) :
  Z.gcd (Z.of_N p) (Z.of_N w - Z.of_N w') = 1%Z -> (x < p)%N -> (y < p)%N ->
  ((R + x * w + y * w') mod p = (R + y * w + x * w') mod p)%N -> x = y.
Proof.
  intros G X Y E.
  assert (D : (Z.of_N p | (Z.of_N w - Z.of_N w') * (Z.of_N x - Z.of_N y))%Z).
  { apply (f_equal Z.of_N) in E. rewrite !N2Z.inj_mod in E.
    rewrite !N2Z.inj_add, !N2Z.inj_mul in E.
    apply Z.mod_divide; [lia|].
    replace ((Z.of_N w - Z.of_N w') * (Z.of_N x - Z.of_N y))%Z
      with ((Z.of_N R + Z.of_N x * Z.of_N w + Z.of_N y * Z.of_N w')
            - (Z.of_N R + Z.of_N y * Z.of_N w + Z.of_N x * Z.of_N w'))%Z
      by ring.
    rewrite Zminus_mod, E, Z.sub_diag. apply Z.mod_0_l. lia. }
  apply Z.gauss in D; [|assumption].
  destruct D as [k K]. assert (k = 0)%Z by nia. subst k. lia.
Qed.

Lemma get_transposed (a b : string) (x y : ascii) : forall i,
  i <> String.length a -> i <> S (String.length a) ->
  String.get i (String.append a (String x (String y b)))
  = String.get i (String.append a (String y (String x b))).
Proof.
  induction a as [|e a IH]; intros i N N'; cbn in N, N' |- *.
  - destruct i as [|[|i]]; [lia | lia | reflexivity].
  - destruct i; [reflexivity|]. apply IH; lia.
Qed.

Lemma get_after (a b : string) (x y : ascii) :
  String.get (S (String.length a)) (String.append a (String x (String y b)))
  = Some y.
Proof.
  symmetry. exact (append_correct2 a (String x (String y b)) 1).
Qed.

Lemma toUpperCase_digit (c : ascii) (v : N) :
  parseInt c = Some v ->
  toUpperCase (String c EmptyString) = String c EmptyString.
Proof.
  destruct c as [[] [] [] [] [] [] [] []]; (discriminate || reflexivity).
Qed.

Lemma parity_value (m : nat) (c : ascii) (v : N) :
  nth_error ["1"; "0"; "X"; "9"; "8"; "7"; "6"; "5"; "4"; "3"; "2"]%char m
  = Some c ->
  parseInt c = Some v -> ((N.of_nat m + v) mod 11 = 1)%N.
Proof.
  do 11 (destruct m as [|m];
         [intros [= <-]; (discriminate || (intros [= <-]; reflexivity))|]).
  destruct m; discriminate.
Qed.

Lemma factor_neighbours (w w' : N) :
  In (w, w')
    (adjacent_pairs [7; 9; 10; 5; 8; 4; 2; 1; 6; 3; 7; 9; 10; 5; 8; 4; 2]%N) ->
  Z.gcd 11 (Z.of_N w - Z.of_N w') = 1%Z.
Proof.
  cbn. intros I.
  repeat (destruct I as [[= <- <-]|I]; [reflexivity|]). destruct I.
Qed.

(** X18: In an accepted identity number of 18 characters every exchange of
    two neighbours that differ is detected. *)
Theorem validIdCard_detects_transposition (a b : string) (x y : ascii) :
  String.length (String.append a (String x (String y b))) = 18 ->
  validIdCard (String.append a (String x (String y b))) = true ->
  x <> y ->
  validIdCard (String.append a (String y (String x b))) = false.
Proof.
  intros L V N.
  assert (L' : String.length (String.append a (String y (String x b))) = 18).
  { rewrite length_append in L |- *. exact L. }
  assert (F : forall s, String.length s = 18 -> test regex15 s = false).
  { intros s Ls. destruct (test regex15 s) eqn:T; [|reflexivity].
    apply (test_fixed_width regex15 15) in T; [lia | reflexivity]. }
  unfold validIdCard in *. rewrite (F _ L) in V. rewrite (F _ L').
  destruct (test regex18 _); [|discriminate].
  destruct (test regex18 _); [|reflexivity].
  destruct (weighted_sum parseInt (String.append a (String x (String y b))) _ 0)
    as [n|] eqn:Hn; [|discriminate].
  destruct (weighted_sum parseInt (String.append a (String y (String x b))) _ 0)
    as [n'|] eqn:Hn'; [|reflexivity].
  cbv zeta in *. rewrite length_append in L. cbn [String.length] in L.
  destruct (Nat.eq_dec (String.length a) 16) as [A|A].
  - assert (B : b = EmptyString) by (destruct b; [reflexivity | cbn in L; lia]).
    subst b.
    replace 17 with (S (String.length a)) in V |- * by lia.
    rewrite get_after in V |- *.
    destruct (fun K => weighted_sum_last parseInt a _ x _ 0 n K Hn)
      as (w & vx & R & W & X & -> & Al); [cbn; lia|].
    cbn in W. injection W as <-.
    destruct (fun K => weighted_sum_last parseInt a _ y _ 0 n' K Hn')
      as (w & vy & R' & _ & Y & _ & _); [cbn; lia|].
    rewrite (Al y _ vy Y) in Hn'. injection Hn' as <-.
    destruct (nth_error _ (N.to_nat ((R + vx * 2) mod 11)))
      as [p|] eqn:P; [|discriminate].
    destruct (nth_error _ (N.to_nat ((R + vy * 2) mod 11)))
      as [p'|] eqn:P'; [|reflexivity].
    rewrite (toUpperCase_digit y vy Y) in V.
    rewrite (toUpperCase_digit x vx X).
    apply String.eqb_eq in V. apply String.eqb_neq. intros V'.
    injection V as <-. injection V' as <-.
    pose proof (parity_value _ _ _ P Y) as Ey.
    pose proof (parity_value _ _ _ P' X) as Ex.
    rewrite N2Nat.id in Ex, Ey. rewrite N.Div0.add_mod_idemp_l in Ex, Ey.
    apply N. assert (vx = vy); [|subst vy; eapply parseInt_inj; eassumption].
    apply (transposed_remainder 11 2 1 vx vy R);
      [reflexivity | apply parseInt_digit in X; lia
      | apply parseInt_digit in Y; lia |].
    rewrite N.mul_1_r. rewrite !N.mul_1_r. congruence.
  - rewrite <- (get_transposed a b x y 17) by lia.
    destruct (String.get 17 _) as [e|]; [|discriminate].
    destruct (fun K => weighted_sum_transposition parseInt a _ x y b 0 n n'
                         K Hn Hn')
      as (w & w' & vx & vy & R & I & X & Y & -> & ->); [cbn; lia|].
    destruct (nth_error _ (N.to_nat ((R + vx * w + vy * w') mod 11)))
      as [p|] eqn:P; [|discriminate].
    destruct (nth_error _ (N.to_nat ((R + vy * w + vx * w') mod 11)))
      as [p'|] eqn:P'; [|reflexivity].
    apply String.eqb_eq in V. apply String.eqb_neq. intros V'.
    apply N. rewrite V in V'. inversion V'. subst p'.
    assert (E : N.to_nat ((R + vx * w + vy * w') mod 11)
                = N.to_nat ((R + vy * w + vx * w') mod 11)).
    { assert (D : List.NoDup
                    ["1"; "0"; "X"; "9"; "8"; "7"; "6"; "5"; "4"; "3"; "2"]%char).
      { repeat constructor; cbn; intuition discriminate. }
      rewrite List.NoDup_nth_error in D. apply D; [|congruence].
      apply nth_error_Some. congruence. }
    apply N2Nat.inj in E.
    assert (vx = vy); [|subst vy; eapply parseInt_inj; eassumption].
    apply (transposed_remainder 11 w w' vx vy R);
      [now apply factor_neighbours | apply parseInt_digit in X; lia
      | apply parseInt_digit in Y; lia | exact E].
Qed.

Lemma validIdCard_detects_transposition_witness :
  validIdCard "11010519491230102X" = false.
Proof.
  apply (validIdCard_detects_transposition "1101051949123" "02X" "1" "0");
    [reflexivity | reflexivity | discriminate].
Defined.

Lemma complement_sum (n : N) : ((n + (31 - n mod 31) mod 31) mod 31 = 0)%N.
Proof.
  rewrite N.Div0.add_mod_idemp_r.
  pose proof (N.mod_lt n 31 ltac:(lia)) as B.
  rewrite (N.Div0.div_mod n 31) at 1.
  replace (31 * (n / 31) + n mod 31 + (31 - n mod 31))%N
    with (31 * (n / 31 + 1))%N by lia.
  rewrite N.mul_comm. apply N.Div0.mod_mul.
Qed.

Lemma weights18_neighbours (w w' : N) :
  In (w, w')
    (adjacent_pairs
       [1; 3; 9; 27; 19; 26; 16; 17; 20; 29; 25; 13; 8; 24; 10; 30; 28]%N) ->
  Z.gcd 31 (Z.of_N w - Z.of_N w') = 1%Z.
Proof.
  cbn. intros I.
  repeat (destruct I as [[= <- <-]|I]; [reflexivity|]). destruct I.
Qed.

Lemma weights15_neighbours (w w' : N) :
  In (w, w')
    (adjacent_pairs [10; 1; 3; 5; 7; 9; 11; 2; 4; 6; 8; 10; 12; 14]%N) ->
  Z.gcd 31 (Z.of_N w - Z.of_N w') = 1%Z.
Proof.
  cbn. intros I.
  repeat (destruct I as [[= <- <-]|I]; [reflexivity|]). destruct I.
Qed.

Lemma check_text_digit (c : ascii) (k : N) :
  (k < 31)%N ->
  String c EmptyString = (if (k =? 0)%N then "0" else decimal k) ->
  parseInt c = Some k.
Proof.
  intros B V.
  assert (K : exists j : nat, j < 31 /\ k = N.of_nat j).
  { exists (N.to_nat k). lia. }
  destruct K as (j & J & ->). revert V.
  do 10 (destruct j as [|j]; [intros [= ->]; reflexivity|]).
  do 21 (destruct j as [|j]; [discriminate|]). lia.
Qed.

Lemma validate18DigitLicense_transposition (a b : string) (x y : ascii) :
  validate18DigitLicense (String.append a (String x (String y b))) = true ->
  x <> y ->
  validate18DigitLicense (String.append a (String y (String x b))) = false.
Proof.
  intros V N. pose proof (validate18DigitLicense_length _ V) as L.
  unfold validate18DigitLicense in *.
  destruct (test _ _); [|discriminate].
  destruct (test _ _); [|reflexivity].
  cbn [negb] in *. cbv zeta in *.
  destruct (weighted_sum _ (String.append a (String x (String y b))) _ 0)
    as [n|] eqn:Hn; [|discriminate].
  destruct (weighted_sum _ (String.append a (String y (String x b))) _ 0)
    as [n'|] eqn:Hn'; [|reflexivity].
  rewrite length_append in L. cbn [String.length] in L.
  set (chars := "0123456789ABCDEFGHJKLMNPQRTUWXY") in *.
  set (k := ((31 - n mod 31) mod 31)%N) in *.
  set (k' := ((31 - n' mod 31) mod 31)%N) in *.
  assert (Bk : (k < 31)%N) by (apply N.mod_lt; lia).
  assert (Bk' : (k' < 31)%N) by (apply N.mod_lt; lia).
  destruct (license_characters (N.to_nat k) ltac:(lia)) as (p & P & Q).
  destruct (license_characters (N.to_nat k') ltac:(lia)) as (p' & P' & Q').
  fold chars in P, P', Q, Q'. rewrite N2Nat.id in Q, Q'.
  rewrite P in V. rewrite P'.
  destruct (Nat.eq_dec (String.length a) 16) as [A|A].
  - assert (B : b = EmptyString) by (destruct b; [reflexivity | cbn in L; lia]).
    subst b.
    replace 17 with (S (String.length a)) in V |- * by lia.
    rewrite get_after in V |- *. cbn [same_character] in V |- *.
    apply Ascii.eqb_eq in V. apply Ascii.eqb_neq. intros V'. subst p p'.
    destruct (fun K => weighted_sum_last (indexOf chars) a _ x _ 0 n K Hn)
      as (w & vx & R & W & X & En & Al); [cbn; lia|].
    cbn in W. injection W as <-.
    rewrite (Al y _ k Q) in Hn'. injection Hn' as En'.
    rewrite Q' in X. injection X as <-.
    pose proof (complement_sum n) as Z. pose proof (complement_sum n') as Z'.
    fold k in Z. fold k' in Z'. rewrite En in Z. rewrite <- En' in Z'.
    apply N. assert (k' = k); [|congruence].
    apply (transposed_remainder 31 28 1 k' k R);
      [reflexivity | exact Bk' | exact Bk |].
    rewrite !N.mul_1_r. congruence.
  - rewrite <- (get_transposed a b x y 17) by lia.
    destruct (String.get 17 _) as [e|]; [|discriminate].
    cbn [same_character] in V |- *.
    apply Ascii.eqb_eq in V. apply Ascii.eqb_neq. intros V'. apply N.
    assert (E : k = k') by congruence.
    apply complement_inj in E; [| apply N.mod_lt; lia | apply N.mod_lt; lia].
    destruct (fun K => weighted_sum_transposition (indexOf chars) a _ x y b 0
                         n n' K Hn Hn')
      as (w & w' & vx & vy & R & I & X & Y & -> & ->); [cbn; lia|].
    pose proof (indexOf_from_bound _ _ _ _ X) as Bx.
    pose proof (indexOf_from_bound _ _ _ _ Y) as By. cbn in Bx, By.
    assert (vx = vy); [|subst vy; eapply indexOf_from_inj; eassumption].
    apply (transposed_remainder 31 w w' vx vy R);
      [now apply weights18_neighbours | lia | lia | exact E].
Qed.

Lemma validate15DigitLicense_transposition (a b : string) (x y : ascii) :
  validate15DigitLicense (String.append a (String x (String y b))) = true ->
  x <> y ->
  validate15DigitLicense (String.append a (String y (String x b))) = false.
Proof.
  intros V N. pose proof (validate15DigitLicense_length _ V) as L.
  unfold validate15DigitLicense in *.
  destruct (test _ _); [|discriminate].
  destruct (test _ _); [|reflexivity].
  cbn [negb] in *. cbv zeta in *.
  rewrite weighted_sum_substring in V |- * by (cbn; lia).
  destruct (weighted_sum _ (String.append a (String x (String y b))) _ 0)
    as [n|] eqn:Hn; [|discriminate].
  destruct (weighted_sum _ (String.append a (String y (String x b))) _ 0)
    as [n'|] eqn:Hn'; [|reflexivity].
  rewrite length_append in L. cbn [String.length] in L.
  set (k := ((31 - n mod 31) mod 31)%N) in *.
  set (k' := ((31 - n' mod 31) mod 31)%N) in *.
  assert (Bk : (k < 31)%N) by (apply N.mod_lt; lia).
  assert (Bk' : (k' < 31)%N) by (apply N.mod_lt; lia).
  destruct (Nat.eq_dec (String.length a) 13) as [A|A].
  - assert (B : b = EmptyString) by (destruct b; [reflexivity | cbn in L; lia]).
    subst b.
    replace 14 with (S (String.length a)) in V |- * by lia.
    rewrite get_after in V |- *.
    apply String.eqb_eq in V. apply String.eqb_neq. intros V'.
    apply (check_text_digit y k Bk) in V.
    apply (check_text_digit x k' Bk') in V'.
    destruct (fun K => weighted_sum_last parseInt a _ x _ 0 n K Hn)
      as (w & vx & R & W & X & En & Al); [cbn; lia|].
    cbn in W. injection W as <-.
    rewrite (Al y _ k V) in Hn'. injection Hn' as En'.
    rewrite V' in X. injection X as <-.
    pose proof (complement_sum n) as Z. pose proof (complement_sum n') as Z'.
    fold k in Z. fold k' in Z'. rewrite En in Z. rewrite <- En' in Z'.
    apply N.
    assert (H : k' = k); [|rewrite H in V'; eapply parseInt_inj; eassumption].
    apply (transposed_remainder 31 14 1 k' k R);
      [reflexivity | exact Bk' | exact Bk |].
    rewrite !N.mul_1_r. congruence.
  - rewrite <- (get_transposed a b x y 14) by lia.
    destruct (String.get 14 _) as [e|]; [|discriminate].
    assert (T : forall j, (if (j =? 0)%N then "0" else decimal j) = decimal j).
    { intros j. destruct (N.eqb_spec j 0) as [E|]; [rewrite E|]; reflexivity. }
    rewrite T in V |- *.
    apply String.eqb_eq in V. apply String.eqb_neq. intros V'. apply N.
    rewrite V in V'. apply decimal_inj in V'.
    apply complement_inj in V'; [| apply N.mod_lt; lia | apply N.mod_lt; lia].
    destruct (fun K => weighted_sum_transposition parseInt a _ x y b 0
                         n n' K Hn Hn')
      as (w & w' & vx & vy & R & I & X & Y & -> & ->); [cbn; lia|].
    assert (vx = vy); [|subst vy; eapply parseInt_inj; eassumption].
    apply (transposed_remainder 31 w w' vx vy R);
      [now apply weights15_neighbours | apply parseInt_digit in X; lia
      | apply parseInt_digit in Y; lia | exact V'].
Qed.

(** X19: In an accepted licence number every exchange of two neighbours is
    detected, when the two are characters of the number that differ once
    letters are capitals. *)
Theorem validateBusinessLicense_detects_transposition
    (a b : string) (x y x' y' : ascii) :
  validateBusinessLicense (String.append a (String x (String y b))) = true ->
  remove_spaces (toUpperCase (String x EmptyString)) = String x' EmptyString ->
  remove_spaces (toUpperCase (String y EmptyString)) = String y' EmptyString ->
  x' <> y' ->
  validateBusinessLicense (String.append a (String y (String x b))) = false.
Proof.
  unfold validateBusinessLicense. cbv zeta. intros V X Y N.
  assert (C : forall u v u' v',
             remove_spaces (toUpperCase (String u EmptyString))
             = String u' EmptyString ->
             remove_spaces (toUpperCase (String v EmptyString))
             = String v' EmptyString ->
             remove_spaces
               (toUpperCase (String.append a (String u (String v b))))
             = String.append (remove_spaces (toUpperCase a))
                 (String u' (String v' (remove_spaces (toUpperCase b))))).
  { intros u v u' v' U V0. rewrite cleaned_substitution, U.
    change (String v b) with (String.append (String v EmptyString) b).
    now rewrite toUpperCase_append, remove_spaces_append, V0. }
  rewrite (C x y x' y' X Y) in V. rewrite (C y x y' x' Y X).
  set (A := remove_spaces (toUpperCase a)) in *.
  set (B := remove_spaces (toUpperCase b)) in *.
  rewrite !length_append in V |- *. cbn [String.length] in V |- *.
  destruct (_ =? 15)%nat.
  - now apply validate15DigitLicense_transposition.
  - destruct (_ =? 18)%nat; [|reflexivity].
    now apply validate18DigitLicense_transposition.
Qed.

Lemma validateBusinessLicense_detects_transposition_witness :
  validateBusinessLicense "91350100M000100Y43" = true /\
  validateBusinessLicense "91350100M0001004Y3" = false.
Proof.
  split; [reflexivity|].
  apply (validateBusinessLicense_detects_transposition "91350100M000100" "3"
           "Y" "4" "Y" "4");
    [reflexivity | reflexivity | reflexivity | discriminate].
Defined.

(** ** SetEx *)

Section SetEx_properties.
Context {T K W : Type} `{EqDecision T} `{EqDecision K}.
Variable member : T -> string -> K.

Local Abbreviation SetEx := (@SetEx T K W).

Lemma filter_agree (P Q : T -> Prop) `{forall x, Decision (P x)}
    `{forall x, Decision (Q x)} (l : list T) :
  (forall x, x ∈ l -> P x <-> Q x) -> filter P l = filter Q l.
Proof.
  induction l as [|x l IH]; intros E; [reflexivity|].
  rewrite !filter_cons. rewrite IH by (intros y Y; apply E; now right).
  pose proof (E x (list_elem_of_here _ _)) as Ex.
  destruct (decide (P x)), (decide (Q x)); tauto || reflexivity.
Qed.

Lemma filter_all (P : T -> Prop) `{forall x, Decision (P x)} (l : list T) :
  (forall x, x ∈ l -> P x) -> filter P l = l.
Proof.
  induction l as [|x l IH]; intros E; [reflexivity|].
  rewrite filter_cons, decide_True by (apply E; now left).
  f_equal. apply IH. intros y Y. apply E. now right.
Qed.

Lemma map_get_set (k key : K) (value : T) (m : list (K * T)) :
  map_get k (map_set key value m)
  = if decide (k = key) then Some value else map_get k m.
Proof.
  induction m as [|[k0 v0] m IH]; cbn.
  - destruct (decide (key = k)), (decide (k = key)); congruence.
  - destruct (decide (k0 = key)) as [->|N]; cbn.
    + destruct (decide (key = k)), (decide (k = key)); congruence.
    + rewrite IH.
      destruct (decide (k0 = k)), (decide (k = key)); congruence.
Qed.

Lemma map_get_delete (k key : K) (m : list (K * T)) :
  map_get k (map_delete key m)
  = if decide (k = key) then None else map_get k m.
Proof.
  induction m as [|[k0 v0] m IH]; cbn.
  - now destruct (decide (k = key)).
  - destruct (decide (k0 = key)) as [->|N0]; cbn; rewrite IH;
      destruct (decide (k = key)); try reflexivity;
      destruct (decide (_ = k)); congruence.
Qed.

Lemma map_get_keys (k : K) (m : list (K * T)) :
  k ∈ map fst m <-> map_get k m <> None.
Proof.
  induction m as [|[k0 v0] m IH]; cbn.
  - rewrite elem_of_nil. tauto.
  - rewrite elem_of_cons, IH. destruct (decide (k0 = k)) as [->|N].
    + split; [discriminate | now left].
    + split; [intros [?|?]; congruence | now right].
Qed.

Lemma map_set_keys (k key : K) (value : T) (m : list (K * T)) :
  k ∈ map fst (map_set key value m) <-> k = key \/ k ∈ map fst m.
Proof.
  rewrite !map_get_keys, map_get_set.
  destruct (decide (k = key)); [|tauto]. split; [now left | discriminate].
Qed.

(** Storing a value under a key that no element has. *)
Lemma store_indexed (value : T) (l : list T) (m : list (K * T))
    (key : string) :
  NoDup l ->
  (forall k v, map_get k m = Some v <-> v ∈ l /\ member v key = k) ->
  map_get (member value key) m = None ->
  (value ∉ l) /\
  NoDup (l ++ [value]) /\
  forall k v, map_get k (map_set (member value key) value m) = Some v
              <-> v ∈ l ++ [value] /\ member v key = k.
Proof.
  intros D I N.
  assert (V : value ∉ l).
  { intros E. assert (map_get (member value key) m = Some value)
      by now apply I. congruence. }
  split; [exact V|]. split.
  - apply NoDup_app. split; [exact D|]. split; [|apply NoDup_singleton].
    intros x X ->%list_elem_of_singleton. now apply V.
  - intros k v. rewrite elem_of_app, list_elem_of_singleton, map_get_set.
    destruct (decide (k = member value key)) as [->|Nk].
    + split.
      * intros [= <-]. auto.
      * intros [[E| ->] Q]; [|reflexivity].
        assert (map_get (member value key) m = Some v) by now apply I.
        congruence.
    + rewrite I. split.
      * intros [? ?]; auto.
      * intros [[?| ->] Q]; [auto | congruence].
Qed.

(** Dropping the element that has a key. *)
Lemma drop_indexed (item : T) (l : list T) (m : list (K * T))
    (key : string) :
  NoDup l ->
  (forall k v, map_get k m = Some v <-> v ∈ l /\ member v key = k) ->
  map_get (member item key) m = Some item ->
  filter (fun x => x <> item) l
  = filter (fun x => member x key <> member item key) l /\
  NoDup (filter (fun x => x <> item) l) /\
  forall k v, map_get k (map_delete (member item key) m) = Some v
              <-> v ∈ filter (fun x => x <> item) l /\ member v key = k.
Proof.
  intros D I S. split; [|split].
  - apply filter_agree. intros x X. split.
    + intros N E. apply N.
      assert (map_get (member item key) m = Some x) by now apply I.
      congruence.
    + intros N ->. now apply N.
  - now apply NoDup_filter.
  - intros k v. rewrite list_elem_of_filter, map_get_delete.
    destruct (decide (k = member item key)) as [->|Nk].
    + split; [discriminate|].
      intros [[N E] Q]. exfalso. apply N.
      assert (map_get (member item key) m = Some v) by now apply I.
      congruence.
    + rewrite I. split.
      * intros [E Q]. split; [split|]; [|exact E|exact Q].
        intros ->. congruence.
      * intros [[_ E] Q]. auto.
Qed.

Lemma add_absent (value : T) (this : SetEx) :
  map_get (member value (_key this)) (_map this) = None ->
  value ∉ elements this ->
  elements (add member value this) = elements this ++ [value] /\
  _map (add member value this)
  = map_set (member value (_key this)) value (_map this) /\
  _key (add member value this) = _key this /\
  _replaceIfExits1 (add member value this) = _replaceIfExits1 this /\
  _replaceIfExits2 (add member value this) = _replaceIfExits2 this.
Proof.
  intros L V. unfold add. rewrite L. unfold super_add.
  rewrite decide_False by exact V.
  destruct this as [els key oe1 [g|] r1 oe2 one2 r2 m w]; repeat split.
Qed.

Lemma add_kept (value item : T) (this : SetEx) :
  map_get (member value (_key this)) (_map this) = Some item ->
  _replaceIfExits1 this = false ->
  elements (add member value this) = elements this /\
  _map (add member value this) = _map this /\
  _key (add member value this) = _key this /\
  _replaceIfExits1 (add member value this) = _replaceIfExits1 this /\
  _replaceIfExits2 (add member value this) = _replaceIfExits2 this.
Proof.
  intros L R. unfold add. rewrite L.
  destruct this as [els key [f|] one1 r1 oe2 one2 r2 m w];
    cbn in R |- *; rewrite R; repeat split.
Qed.

Lemma add_replaced (value item : T) (this : SetEx) :
  map_get (member value (_key this)) (_map this) = Some item ->
  _replaceIfExits1 this = true ->
  value ∉ filter (fun x => x <> item) (elements this) ->
  elements (add member value this)
  = filter (fun x => x <> item) (elements this) ++ [value] /\
  _map (add member value this)
  = map_set (member value (_key this)) value
      (map_delete (member value (_key this)) (_map this)) /\
  _key (add member value this) = _key this /\
  _replaceIfExits1 (add member value this) = _replaceIfExits1 this /\
  _replaceIfExits2 (add member value this) = _replaceIfExits2 this.
Proof.
  intros L R V. unfold add. rewrite L.
  destruct this as [els key [f|] [g|] r1 oe2 one2 r2 m w];
    cbn -[filter] in R, V |- *; rewrite R; unfold super_add, super_delete;
    cbn -[filter]; rewrite decide_False by exact V; repeat split.
Qed.

Lemma add_elements (value : T) (this : SetEx) :
  indexed member this ->
  let key := member value (_key this) in
  elements (add member value this)
  = match map_get key (_map this) with
    | Some _ =>
        if _replaceIfExits1 this
        then filter (fun x => member x (_key this) <> key) (elements this)
             ++ [value]
        else elements this
    | None => elements this ++ [value]
    end /\
  indexed member (add member value this) /\
  (forall k, k ∈ map fst (_map (add member value this))
             <-> k = key \/ k ∈ map fst (_map this)) /\
  _key (add member value this) = _key this /\
  _replaceIfExits1 (add member value this) = _replaceIfExits1 this /\
  _replaceIfExits2 (add member value this) = _replaceIfExits2 this.
Proof.
  intros [D I]. cbv zeta. unfold indexed.
  destruct (map_get (member value (_key this)) (_map this))
    as [item|] eqn:L.
  - destruct (_replaceIfExits1 this) eqn:R.
    + assert (Q : member item (_key this) = member value (_key this))
        by now apply I in L.
      pose proof L as L'. rewrite <- Q in L'.
      destruct (drop_indexed item _ _ _ D I L') as (F & D' & I').
      rewrite Q in F, I'.
      destruct (store_indexed value _ _ (_key this) D' I')
        as (V & D2 & I2);
        [rewrite map_get_delete; now rewrite decide_True|].
      destruct (add_replaced value item this L R V) as (-> & -> & -> & -> & ->).
      rewrite <- F. split; [reflexivity|].
      split; [split; [exact D2 | exact I2]|].
      split; [|repeat split; assumption || reflexivity].
      intros k. rewrite !map_get_keys, map_get_set, map_get_delete.
      destruct (decide (k = member value (_key this))) as [->|];
        [|tauto]. split; [now left | discriminate].
    + destruct (add_kept value item this L R) as (-> & -> & -> & -> & ->).
      split; [reflexivity|].
      split; [split; [exact D | exact I]|].
      split; [|repeat split; assumption || reflexivity].
      intros k. rewrite !map_get_keys.
      split; [now right | intros [->|]; congruence].
  - destruct (store_indexed value _ _ (_key this) D I L) as (V & D2 & I2).
    destruct (add_absent value this L V) as (-> & -> & -> & -> & ->).
    split; [reflexivity|].
    split; [split; [exact D2 | exact I2]|].
    split; [|repeat split; assumption || reflexivity].
    intros k. apply map_set_keys.
Qed.

Lemma addAll_cons (value : T) (values : list T) (this : SetEx) :
  addAll member (value :: values) this
  = addAll member values (add member value this).
Proof. reflexivity. Qed.

Lemma addAll_indexed (values : list T) : forall this : SetEx,
  indexed member this ->
  indexed member (addAll member values this) /\
  _key (addAll member values this) = _key this /\
  _replaceIfExits1 (addAll member values this) = _replaceIfExits1 this /\
  _replaceIfExits2 (addAll member values this) = _replaceIfExits2 this.
Proof.
  induction values as [|v values IH]; intros this I; [now split|].
  rewrite addAll_cons.
  destruct (add_elements v this I) as (_ & I1 & _ & Ek & E1 & E2).
  destruct (IH _ I1) as (I2 & -> & -> & ->). auto.
Qed.




Lemma empty_indexed (this : SetEx) :
  elements this = [] -> _map this = [] -> indexed member this.
Proof.
  intros E M. unfold indexed. rewrite E, M. split; [apply NoDup_nil_2|].
  intros k v. cbn. split; [discriminate|].
  intros [X _]. now apply not_elem_of_nil in X.
Qed.

Lemma new_indexed (key : string) (option : settings) (w : W) :
  indexed member (new member key option w).
Proof.
  unfold new. destruct (values option) as [vs|].
  - apply addAll_indexed. now apply empty_indexed.
  - now apply empty_indexed.
Qed.









(** X23: When [add2] replaces, the element that had the key stays in the
    set: the set grows by the new value, which alone is found by the key,
    and deleting the key afterwards leaves the old element behind. *)
Theorem add2_replacement_keeps_the_old_element (value item : T)
    (this : SetEx) :
  indexed member this ->
  _replaceIfExits2 this = true ->
  map_get (member value (_key this)) (_map this) = Some item ->
  item <> value ->
  let key := member value (_key this) in
  let this' := (add2 member value this).2 in
  elements this' = elements this ++ [value] /\
  find key this' = Some value /\
  elements (delete_ key this').2 = elements this /\
  item ∈ elements (delete_ key this').2 /\
  has key (delete_ key this').2 = false.
Proof.
  intros [D I] R L N. cbv zeta.
  assert (X : item ∈ elements this) by now apply I in L.
  assert (V : value ∉ elements this).
  { intros E.
    assert (map_get (member value (_key this)) (_map this) = Some value)
      by now apply I. congruence. }
  assert (F : filter (fun x => x <> value) (elements this) = elements this).
  { apply filter_all. intros x ? ->. contradiction. }
  assert (G : filter (fun x => x <> value) (elements this ++ [value])
              = elements this).
  { rewrite filter_app, F, filter_cons, filter_nil.
    rewrite decide_False by tauto. apply app_nil_r. }
  unfold add2, delete_, find, has. rewrite L.
  destruct this as [els key oe1 one1 r1 [f|] [g|] r2 m w];
    cbn -[filter map_get map_set map_delete] in *; rewrite R;
    unfold super_add, super_delete;
    cbn -[filter map_get map_set map_delete]; rewrite F;
    rewrite decide_False by exact V;
    cbn -[filter map_get map_set map_delete];
    rewrite map_get_set, decide_True by reflexivity;
    cbn -[filter map_get map_set map_delete]; rewrite G;
    rewrite map_get_delete, decide_True by reflexivity;
    repeat split; exact X.
Qed.

End SetEx_properties.

Lemma add2_replacement_keeps_the_old_element_witness :
  let member := fun (n : nat) (_ : string) => Nat.modulo n 2 in
  let option :=
    {| onExist1 := None; onNotExist1 := None; replaceIfExits1 := None;
       onExist2 := None; onNotExist2 := None; replaceIfExits2 := Some true;
       values := Some [1] |} in
  let this : @SetEx nat nat unit := new member "id" option tt in
  elements (add2 member 3 this).2 = [1; 3] /\
  1 ∈ elements (delete_ 1 (add2 member 3 this).2).2 /\
  has 1 (delete_ 1 (add2 member 3 this).2).2 = false.
Proof.
  cbv zeta.
  destruct (add2_replacement_keeps_the_old_element
              (fun (n : nat) (_ : string) => Nat.modulo n 2) 3 1
              (new (fun (n : nat) (_ : string) => Nat.modulo n 2) "id"
                 {| onExist1 := None; onNotExist1 := None;
                    replaceIfExits1 := None; onExist2 := None;
                    onNotExist2 := None; replaceIfExits2 := Some true;
                    values := Some [1] |} tt))
    as (E & _ & _ & I & N);
    [apply new_indexed | reflexivity | reflexivity | discriminate |].
  split; [exact E | split; [exact I | exact N]].
Defined.


